(** * autowire: the dependency-graph analyzer and the package-name fallback

    A shallow embedding of [internal/types], [internal/analyzer],
    [internal/xsync], [internal/resolver] and the functions of
    [internal/parser] that work on a parsed file, followed by the
    properties the specification states about them and by further
    properties of the code.

    Go strings are [string] (byte-wise; [String.le] is Go's [<=] on
    strings), Go maps are [gmap], a [map[string]bool] read at an absent key
    yields [false], a [map[string]int] yields [0].  Counters bounded by the
    length of a slice are [nat]. *)

From Stdlib Require Import Ascii String.
From stdpp Require Import gmap strings list sorting pretty.


(** ** internal/types *)

Module TypeRef.
Record t := mk { Name : string; ImportPath : string; IsPointer : bool }.

Definition Key (r : t) : string :=
  let prefix := if IsPointer r then "*" else "" in
  if decide (ImportPath r = "") then prefix +:+ Name r
  else ((prefix +:+ ImportPath r) +:+ ".") +:+ Name r.
End TypeRef.

Module Dependency.
(** The Go field is called [Type], a reserved word here. *)
Record t := mk { FieldName : string; Type_ : TypeRef.t }.
End Dependency.

Inductive ProviderKind := ProviderKindStruct | ProviderKindFunc.

Module Provider.
Record t := mk {
  Name : string;
  Kind : ProviderKind;
  ProvidedType : TypeRef.t;
  Dependencies : list Dependency.t;
  CanError : bool;
  ImportPath : string;
  VarName : string
}.

(** [providers[i].VarName = v] *)
Definition setVarName (p : t) (v : string) : t :=
  mk (Name p) (Kind p) (ProvidedType p) (Dependencies p) (CanError p)
     (ImportPath p) v.

(** [p.ProvidedType.Key()] *)
Definition key (p : t) : string := TypeRef.Key (ProvidedType p).
End Provider.

Module Invocation.
Record t := mk {
  Name : string;
  Dependencies : list TypeRef.t;
  CanError : bool;
  ImportPath : string
}.
End Invocation.

Module ParseResult.
Record t := mk {
  Providers : list Provider.t;
  Invocations : list Invocation.t;
  OutputPackage : string;
  OutputImportPath : string;
  OutputPath : string
}.
End ParseResult.

(** [types.PackageNameResolver]: anything with a [ResolveName] method. *)
Class PackageNameResolver (R : Type) := ResolveName : R → string → string.

(** ** The functions of Go's standard library the code calls

    [strings] and [path/filepath] are not part of the repository; the
    definitions follow their documented behaviour, [filepath] with the
    Unix separator. *)

Module gostrings.

(** [strings.Join] *)
Fixpoint Join (elems : list string) (sep : string) : string :=
  match elems with
  | [] => ""
  | [s] => s
  | s :: rest => s +:+ sep +:+ Join rest sep
  end.

(** [s[n:]] *)
Fixpoint sliceFrom (s : string) (n : nat) : string :=
  match n, s with
  | O, _ => s
  | S n, String _ s => sliceFrom s n
  | S _, EmptyString => ""
  end.

(** [s[:n]] *)
Fixpoint sliceTo (s : string) (n : nat) : string :=
  match n, s with
  | O, _ => ""
  | S n, String c s => String c (sliceTo s n)
  | S _, EmptyString => ""
  end.

(** [strings.LastIndex]; [None] is Go's [-1]. *)
Fixpoint LastIndex (s substr : string) : option nat :=
  match s with
  | EmptyString => if decide (substr = "") then Some 0 else None
  | String _ s' =>
      match LastIndex s' substr with
      | Some i => Some (S i)
      | None => if String.prefix substr s then Some 0 else None
      end
  end.

(** [strings.HasSuffix] *)
Definition HasSuffix (s suffix : string) : bool :=
  bool_decide (String.length suffix ≤ String.length s) &&
  bool_decide (sliceFrom s (String.length s - String.length suffix) = suffix).

(** [strings.CutSuffix] *)
Definition CutSuffix (s suffix : string) : string * bool :=
  if HasSuffix s suffix
  then (sliceTo s (String.length s - String.length suffix), true)
  else (s, false).

(** [strings.Index]; [None] is Go's [-1]. *)
Fixpoint Index (s substr : string) : option nat :=
  if String.prefix substr s then Some 0
  else match s with
       | EmptyString => None
       | String _ s' => S <$> Index s' substr
       end.

(** [strings.SplitN] for a separator that is not empty and [n ≥ 0]: at
    most [n] pieces, the last one being the unsplit rest. *)
Fixpoint SplitN (s sep : string) (n : nat) : list string :=
  match n with
  | 0 => []
  | 1 => [s]
  | S n' =>
      match Index s sep with
      | None => [s]
      | Some m => sliceTo s m :: SplitN (sliceFrom s (m + String.length sep)) sep n'
      end
  end.

(** [strings.HasPrefix] *)
Definition HasPrefix (s prefix : string) : bool := String.prefix prefix s.

(** [strings.TrimPrefix] *)
Definition TrimPrefix (s prefix : string) : string :=
  if HasPrefix s prefix then sliceFrom s (String.length prefix) else s.

(** [strings.Trim] for a cutset of ASCII characters: the bytes of the
    cutset are removed from both ends. *)
Definition inCutset (cutset : string) (c : ascii) : bool :=
  bool_decide (c ∈ list_ascii_of_string cutset).

Fixpoint TrimLeft (s cutset : string) : string :=
  match s with
  | EmptyString => ""
  | String c rest => if inCutset cutset c then TrimLeft rest cutset else s
  end.

Fixpoint TrimRight (s cutset : string) : string :=
  match s with
  | EmptyString => ""
  | String c rest =>
      let rest := TrimRight rest cutset in
      if inCutset cutset c && bool_decide (rest = "") then ""
      else String c rest
  end.

Definition Trim (s cutset : string) : string :=
  TrimLeft (TrimRight s cutset) cutset.

End gostrings.

Module filepath.

Definition IsPathSeparator (c : ascii) : bool := Ascii.eqb c "/".

(** The elements of a path: what stands between the separators. *)
Fixpoint split (path : string) : list string :=
  match path with
  | EmptyString => [""]
  | String c rest =>
      if IsPathSeparator c then "" :: split rest
      else match split rest with
           | elem :: elems => String c elem :: elems
           | [] => [String c ""]
           end
  end.

(** The path without its trailing separators. *)
Fixpoint trimRightSeparators (path : string) : string :=
  match path with
  | EmptyString => ""
  | String c rest =>
      let rest := trimRightSeparators rest in
      if IsPathSeparator c && bool_decide (rest = "") then ""
      else String c rest
  end.

(** [filepath.Base]: the last element of the path, after removing
    trailing separators; ["."] for the empty path, ["/"] for a path of
    separators only. *)
Definition Base (path : string) : string :=
  if decide (path = "") then "."
  else
    let elem := List.last (split (trimRightSeparators path)) "" in
    if decide (elem = "") then "/" else elem.

(** The path up to and including its last separator. *)
Fixpoint throughLastSeparator (path : string) : string :=
  match path with
  | EmptyString => ""
  | String c rest =>
      let rest := throughLastSeparator rest in
      if IsPathSeparator c || negb (bool_decide (rest = "")) then String c rest
      else ""
  end.

(** One element of the path met by [filepath.Clean]; [kept] holds the
    elements written so far, last first. *)
Definition cleanElem (rooted : bool) (kept : list string) (elem : string)
    : list string :=
  if decide (elem = "" ∨ elem = ".") then kept
  else if decide (elem = "..") then
    match kept with
    | top :: below => if decide (top = "..") then elem :: kept else below
    | [] => if rooted then [] else [elem]
    end
  else elem :: kept.

(** [filepath.Clean]: drop empty and ["."] elements, let [".."] remove
    the element before it (or stay, at the start of a path that is not
    rooted), join with single separators; ["."] if nothing is left. *)
Definition Clean (path : string) : string :=
  if decide (path = "") then "."
  else
    let rooted := String.prefix "/" path in
    let kept := foldl (cleanElem rooted) [] (split path) in
    let out := (if rooted then "/" else "") +:+ gostrings.Join (rev kept) "/" in
    if decide (out = "") then "." else out.

(** [filepath.Dir]: all but the last element of the path, cleaned. *)
Definition Dir (path : string) : string :=
  Clean (throughLastSeparator path).

End filepath.

(** ** internal/analyzer *)

Module analyzer.

(** The three [fmt.Errorf] sites of the package, with the values they
    format. *)
Inductive AnalyzeError :=
| ErrDuplicate (key dupName pName : string)
| ErrMissing (missing : list string)
| ErrCycle (path : list string).

Definition newline : string := String (ascii_of_nat 10) "".

(** The text of the error value. *)
Definition Error (e : AnalyzeError) : string :=
  match e with
  | ErrDuplicate key dupName pName =>
      "duplicate provider for " +:+ key +:+ ": " +:+ dupName +:+ " and " +:+ pName
  | ErrMissing missing =>
      "missing dependencies:" +:+ newline +:+ "  "
        +:+ gostrings.Join missing (newline +:+ "  ")
  | ErrCycle path => "circular dependency: " +:+ gostrings.Join path " -> "
  end.

(** Result of a computation that may fail; [OutOfFuel] is the bounded
    recursion of [visit] running dry, which [topoSort_ok] rules out. *)
Inductive outcome (A : Type) :=
| Done (a : A)
| Fail (e : AnalyzeError)
| OutOfFuel.
Arguments Done {A} a.
Arguments Fail {A} e.
Arguments OutOfFuel {A}.

Record Result := mkResult {
  Providers : list Provider.t;
  Invocations : list Invocation.t;
  PackageName : string;
  OutputImportPath : string;
  Imports : gmap string string
}.

(** The first loop of [Analyze]: index the providers by key, stopping at
    the first key already present. *)
Fixpoint indexProviders (providers : list Provider.t)
    (byType : gmap string Provider.t) : AnalyzeError + gmap string Provider.t :=
  match providers with
  | [] => inr byType
  | p :: rest =>
      let key := Provider.key p in
      match byType !! key with
      | Some dup => inl (ErrDuplicate key (Provider.Name dup) (Provider.Name p))
      | None => indexProviders rest (<[key := p]> byType)
      end
  end.

(** *** validateDeps *)

(** The inner loop over one provider's dependencies. *)
Fixpoint missingProviderDeps (name : string) (deps : list Dependency.t)
    (byType : gmap string Provider.t) (missing : list string) : list string :=
  match deps with
  | [] => missing
  | dep :: rest =>
      let k := TypeRef.Key (Dependency.Type_ dep) in
      match byType !! k with
      | Some _ => missingProviderDeps name rest byType missing
      | None =>
          missingProviderDeps name rest byType
            (missing ++ [name +:+ " requires " +:+ k])
      end
  end.

(** The inner loop over one invocation's dependencies. *)
Fixpoint missingInvocationDeps (name : string) (deps : list TypeRef.t)
    (byType : gmap string Provider.t) (missing : list string) : list string :=
  match deps with
  | [] => missing
  | dep :: rest =>
      let k := TypeRef.Key dep in
      match byType !! k with
      | Some _ => missingInvocationDeps name rest byType missing
      | None =>
          missingInvocationDeps name rest byType
            (missing ++ [name +:+ " requires " +:+ k])
      end
  end.

Fixpoint missingOfProviders (providers : list Provider.t)
    (byType : gmap string Provider.t) (missing : list string) : list string :=
  match providers with
  | [] => missing
  | p :: rest =>
      missingOfProviders rest byType
        (missingProviderDeps (Provider.Name p) (Provider.Dependencies p)
           byType missing)
  end.

Fixpoint missingOfInvocations (invocations : list Invocation.t)
    (byType : gmap string Provider.t) (missing : list string) : list string :=
  match invocations with
  | [] => missing
  | inv :: rest =>
      missingOfInvocations rest byType
        (missingInvocationDeps (Invocation.Name inv)
           (Invocation.Dependencies inv) byType missing)
  end.

(** [None] is Go's [nil] error. *)
Definition validateDeps (providers : list Provider.t)
    (invocations : list Invocation.t) (byType : gmap string Provider.t)
    : option AnalyzeError :=
  let missing := missingOfProviders providers byType [] in
  let missing := missingOfInvocations invocations byType missing in
  if decide (0 < length missing) then Some (ErrMissing missing) else None.

(** *** resolveVarNames *)

Fixpoint resolveVarNamesFrom (usedNames : gmap string nat)
    (providers : list Provider.t) : list Provider.t :=
  match providers with
  | [] => []
  | p :: rest =>
      let baseName := Provider.VarName p in
      let count := default 0 (usedNames !! baseName) in
      let usedNames := <[baseName := count + 1]> usedNames in
      (if decide (count = 0) then p
       else Provider.setVarName p (baseName +:+ pretty count))
        :: resolveVarNamesFrom usedNames rest
  end.

Definition resolveVarNames (providers : list Provider.t) : list Provider.t :=
  resolveVarNamesFrom ∅ providers.

(** *** topoSort *)

(** Reading a [map[string]bool]. *)
Definition flag (m : gmap string bool) (k : string) : bool :=
  default false (m !! k).

(** The variables captured by the [visit] closure. *)
Record dfs := mkDfs {
  visited : gmap string bool;
  inStack : gmap string bool;
  result : list Provider.t
}.

(** The loop of [visit] over [p.Dependencies]; [rec] is [visit] itself. *)
Fixpoint visitDeps (rec : Provider.t → list string → dfs → outcome dfs)
    (byType : gmap string Provider.t) (deps : list Dependency.t)
    (path : list string) (st : dfs) : outcome dfs :=
  match deps with
  | [] => Done st
  | dep :: rest =>
      match byType !! TypeRef.Key (Dependency.Type_ dep) with
      | Some depProvider =>
          match rec depProvider path st with
          | Done st' => visitDeps rec byType rest path st'
          | Fail e => Fail e
          | OutOfFuel => OutOfFuel
          end
      | None => visitDeps rec byType rest path st
      end
  end.

Fixpoint visit (fuel : nat) (byType : gmap string Provider.t)
    (p : Provider.t) (path : list string) (st : dfs) : outcome dfs :=
  match fuel with
  | O => OutOfFuel
  | S fuel =>
      let key := Provider.key p in
      if flag (inStack st) key then Fail (ErrCycle (path ++ [key]))
      else if flag (visited st) key then Done st
      else
        let st := mkDfs (visited st) (<[key := true]> (inStack st)) (result st) in
        let path := path ++ [key] in
        match visitDeps (visit fuel byType) byType
                (Provider.Dependencies p) path st with
        | Done st =>
            Done (mkDfs (<[key := true]> (visited st))
                        (<[key := false]> (inStack st))
                        (result st ++ [p]))
        | Fail e => Fail e
        | OutOfFuel => OutOfFuel
        end
  end.

(** The loop over one invocation's dependencies: each provided one is a
    traversal root. *)
Fixpoint visitInvocationDeps (rec : Provider.t → list string → dfs → outcome dfs)
    (byType : gmap string Provider.t) (deps : list TypeRef.t) (st : dfs)
    : outcome dfs :=
  match deps with
  | [] => Done st
  | dep :: rest =>
      match byType !! TypeRef.Key dep with
      | Some p =>
          match rec p [] st with
          | Done st' => visitInvocationDeps rec byType rest st'
          | Fail e => Fail e
          | OutOfFuel => OutOfFuel
          end
      | None => visitInvocationDeps rec byType rest st
      end
  end.

Fixpoint visitInvocations (rec : Provider.t → list string → dfs → outcome dfs)
    (byType : gmap string Provider.t) (invocations : list Invocation.t)
    (st : dfs) : outcome dfs :=
  match invocations with
  | [] => Done st
  | inv :: rest =>
      match visitInvocationDeps rec byType (Invocation.Dependencies inv) st with
      | Done st' => visitInvocations rec byType rest st'
      | Fail e => Fail e
      | OutOfFuel => OutOfFuel
      end
  end.

Fixpoint visitProviders (rec : Provider.t → list string → dfs → outcome dfs)
    (providers : list Provider.t) (st : dfs) : outcome dfs :=
  match providers with
  | [] => Done st
  | p :: rest =>
      match rec p [] st with
      | Done st' => visitProviders rec rest st'
      | Fail e => Fail e
      | OutOfFuel => OutOfFuel
      end
  end.

(** Every nested call of [visit] marks one more key of a provider of
    [providers] or of [byType] as on the stack, so the recursion is never
    deeper than the bound used here. *)
Definition visitDepth (providers : list Provider.t)
    (byType : gmap string Provider.t) : nat :=
  S (length providers + size byType).

Definition topoSort (providers : list Provider.t)
    (invocations : list Invocation.t) (byType : gmap string Provider.t)
    : outcome (list Provider.t) :=
  let rec := visit (visitDepth providers byType) byType in
  match visitInvocations rec byType invocations (mkDfs ∅ ∅ []) with
  | Done st =>
      match visitProviders rec providers st with
      | Done st => Done (result st)
      | Fail e => Fail e
      | OutOfFuel => OutOfFuel
      end
  | Fail e => Fail e
  | OutOfFuel => OutOfFuel
  end.

(** *** collectImports and resolveImportAliases *)

(** The [add] closure of [collectImports]. *)
Definition add (outputPath : string) (paths : gset string) (path : string)
    : gset string :=
  if decide (path = "" ∨ path = outputPath) then paths
  else {[path]} ∪ paths.

Definition addProvider (outputPath : string) (paths : gset string)
    (p : Provider.t) : gset string :=
  foldl (λ paths dep, add outputPath paths (TypeRef.ImportPath (Dependency.Type_ dep)))
        (add outputPath paths (Provider.ImportPath p))
        (Provider.Dependencies p).

Definition addInvocation (outputPath : string) (paths : gset string)
    (inv : Invocation.t) : gset string :=
  foldl (λ paths dep, add outputPath paths (TypeRef.ImportPath dep))
        (add outputPath paths (Invocation.ImportPath inv))
        (Invocation.Dependencies inv).

(** The loop of [resolveImportAliases] over the sorted paths. *)
Fixpoint assignAliases `{PackageNameResolver R} (resolver : R)
    (sortedPaths : list string) (baseCount : gmap string nat)
    (imports : gmap string string) : gmap string string :=
  match sortedPaths with
  | [] => imports
  | path :: rest =>
      let base := ResolveName resolver path in
      let count := default 0 (baseCount !! base) in
      let baseCount := <[base := count + 1]> baseCount in
      if decide (count = 0)
      then assignAliases resolver rest baseCount (<[path := ""]> imports)
      else assignAliases resolver rest baseCount
             (<[path := base +:+ pretty count]> imports)
  end.

(** [resolveImportAliases] once [range paths] has delivered the keys of
    the set in the order [ranged]: the keys are sorted with
    [sort.Strings] before anything else looks at them. *)
Definition resolveImportAliasesRanged `{PackageNameResolver R} (resolver : R)
    (ranged : list string) : gmap string string :=
  assignAliases resolver (merge_sort String.le ranged) ∅ ∅.

Definition resolveImportAliases `{PackageNameResolver R}
    (paths : gset string) (resolver : R) : gmap string string :=
  resolveImportAliasesRanged resolver (elements paths).

Definition collectImports `{PackageNameResolver R}
    (providers : list Provider.t) (invocations : list Invocation.t)
    (outputPath : string) (resolver : R) : gmap string string :=
  let paths := foldl (addProvider outputPath) ∅ providers in
  let paths := foldl (addInvocation outputPath) paths invocations in
  resolveImportAliases paths resolver.

(** *** Analyze *)

Definition Analyze `{PackageNameResolver R} (parsed : ParseResult.t)
    (resolver : R) : outcome Result :=
  match indexProviders (ParseResult.Providers parsed) ∅ with
  | inl e => Fail e
  | inr byType =>
      match validateDeps (ParseResult.Providers parsed)
              (ParseResult.Invocations parsed) byType with
      | Some e => Fail e
      | None =>
          match topoSort (ParseResult.Providers parsed)
                  (ParseResult.Invocations parsed) byType with
          | Done ordered =>
              let ordered := resolveVarNames ordered in
              Done (mkResult ordered (ParseResult.Invocations parsed)
                      (ParseResult.OutputPackage parsed)
                      (ParseResult.OutputImportPath parsed)
                      (collectImports ordered (ParseResult.Invocations parsed)
                         (ParseResult.OutputImportPath parsed) resolver))
          | Fail e => Fail e
          | OutOfFuel => OutOfFuel
          end
      end
  end.

End analyzer.

(** ** internal/xsync

    [Map] wraps [sync.Map]; run by one goroutine, a [sync.Map] is a finite
    map.  Every method returns the map it leaves behind when it changes
    it; [zero] is the zero value of the value type. *)

Module xsync.
Section Map.
Context `{Countable K} {V : Type} (zero : V).

Definition Load (m : gmap K V) (key : K) : V * bool :=
  match m !! key with
  | Some val => (val, true)
  | None => (zero, false)
  end.

Definition Store (m : gmap K V) (key : K) (value : V) : gmap K V :=
  <[key := value]> m.

Definition LoadOrStore (m : gmap K V) (key : K) (value : V)
    : (V * bool) * gmap K V :=
  match m !! key with
  | Some actual => ((actual, true), m)
  | None => ((value, false), <[key := value]> m)
  end.

Definition LoadAndDelete (m : gmap K V) (key : K) : (V * bool) * gmap K V :=
  match m !! key with
  | Some val => ((val, true), delete key m)
  | None => ((zero, false), m)
  end.

Definition Delete (m : gmap K V) (key : K) : gmap K V := delete key m.

End Map.
End xsync.

(** ** internal/resolver: the syntactic fallback *)

Module resolver.

Definition isDigit (c : ascii) : bool :=
  (48 <=? nat_of_ascii c) && (nat_of_ascii c <=? 57).

Fixpoint allDigits (s : string) : bool :=
  match s with
  | EmptyString => true
  | String c rest => isDigit c && allDigits rest
  end.

Definition isVersionSuffix (s : string) : bool :=
  match s with
  | String c rest =>
      if (String.length s <? 2) || negb (Ascii.eqb c "v") then false
      else allDigits rest
  | EmptyString => false
  end.

Definition versionSuffix (s : string) : string :=
  match gostrings.LastIndex s ".v" with
  | None => ""
  | Some idx =>
      let suffix := gostrings.sliceFrom s (idx + 1) in
      if negb (isVersionSuffix suffix) then "" else "." +:+ suffix
  end.

Definition fallbackName (importPath : string) : string :=
  let base := filepath.Base importPath in
  if isVersionSuffix base then filepath.Base (filepath.Dir importPath)
  else
    match gostrings.CutSuffix base (versionSuffix base) with
    | (name, true) => name
    | (_, false) => base
    end.

(** [resolve] runs [go list]; [output] is what the command printed, or
    [None] when it failed.  [TrimSpace] is [strings.TrimSpace]. *)
Section lookup.
Context (TrimSpace : string → string).

Definition goListOutputParts : nat := 2.

Definition resolve (output : option string) (path : string) : string :=
  match output with
  | None => fallbackName path
  | Some out =>
      let line := TrimSpace out in
      let parts := gostrings.SplitN line " " goListOutputParts in
      if decide (length parts ≠ goListOutputParts) then fallbackName path
      else nth 1 parts ""
  end.

(** [ResolveName] on the cache [cache]; [output] is the outcome of the
    command, should this call run it.  The second component is the cache
    the call leaves behind. *)
Definition ResolveName (cache : gmap string string) (output : option string)
    (importPath : string) : string * gmap string string :=
  match xsync.Load "" cache importPath with
  | (name, true) => (name, cache)
  | (_, false) =>
      let name := resolve output importPath in
      let '((actual, _), cache) := xsync.LoadOrStore cache importPath name in
      (actual, cache)
  end.

End lookup.

End resolver.

(** ** go/ast

    What the parser reads of a syntax tree.  A [*ast.FieldList] and a
    [*ast.CommentGroup] are options of lists, [None] being [nil]; an
    [*ast.Ident] is its name.  [Other] stands for every kind of
    expression [resolveType] has no case for, with the name [%T] prints
    for it. *)

Module ast.

Record Field {E : Type} := mkField { Names : list string; Type_ : E }.
Arguments Field : clear implicits.

Record FuncType {E : Type} := mkFuncType {
  Params : option (list (Field E));
  Results : option (list (Field E))
}.
Arguments FuncType : clear implicits.

#[warnings="-register-all"]
Inductive Expr :=
| Ident (Name : string)
| StarExpr (X : Expr)
| SelectorExpr (X : Expr) (Sel : string)
| ArrayType (Elt : Expr)
| MapType (Key Value : Expr)
| ChanType (Value : Expr)
| InterfaceType (Methods : option (list (Field Expr)))
| FuncTypeExpr (Type_ : FuncType Expr)
| StructType (Fields : option (list (Field Expr)))
| Other (goType : string).

(** The name [%T] prints for the node. *)
Definition goType (expr : Expr) : string :=
  match expr with
  | Ident _ => "*ast.Ident"
  | StarExpr _ => "*ast.StarExpr"
  | SelectorExpr _ _ => "*ast.SelectorExpr"
  | ArrayType _ => "*ast.ArrayType"
  | MapType _ _ => "*ast.MapType"
  | ChanType _ => "*ast.ChanType"
  | InterfaceType _ => "*ast.InterfaceType"
  | FuncTypeExpr _ => "*ast.FuncType"
  | StructType _ => "*ast.StructType"
  | Other goType => goType
  end.

Module ImportSpec.
(** [Name] is [None] for an import without a local name; [Path] is the
    literal as written, quotes included. *)
Record t := mk { Name : option string; Path : string }.
End ImportSpec.

Module FuncDecl.
Record t := mk {
  Doc : option (list string);
  Recv : option (list (Field Expr));
  Name : string;
  Type_ : FuncType Expr
}.
End FuncDecl.

Inductive Token := IMPORT | CONST | TYPE | VAR.

Inductive Spec :=
| ImportSpecOf (spec : ImportSpec.t)
| ValueSpec
| TypeSpec (Name : string) (Type_ : Expr).

Inductive Decl :=
| BadDecl
| GenDecl (Doc : option (list string)) (Tok : Token) (Specs : list Spec)
| FuncDeclOf (fn : FuncDecl.t).

Module File.
Record t := mk { Imports : list ImportSpec.t; Decls : list Decl }.
End File.

End ast.

(** ** internal/parser

    The functions that turn a parsed file into providers and
    invocations.  An error is the text of its message. *)

Module parser.

Inductive result (A : Type) :=
| Ok (a : A)
| Err (msg : string).
Arguments Ok {A} a.
Arguments Err {A} msg.

Global Instance result_bind : MBind result := λ A B f r,
  match r with
  | Ok a => f a
  | Err msg => Err msg
  end.

(** [fmt.Errorf(prefix + "%w", err)] around a failing call. *)
Definition wrapped {A : Type} (prefix : string) (r : result A) : result A :=
  match r with
  | Ok a => Ok a
  | Err msg => Err (prefix +:+ msg)
  end.

Definition annotationProvide : string := "//autowire:provide".
Definition annotationInvoke : string := "//autowire:invoke".

Record fileContext := mkContext {
  importPath : string;
  imports : gmap string string
}.

Definition quote : string := String (ascii_of_nat 34) "".

Definition buildImportMap (file : ast.File.t) : gmap string string :=
  foldl (λ imports imp,
           let path := gostrings.Trim (ast.ImportSpec.Path imp) quote in
           let name := match ast.ImportSpec.Name imp with
                       | Some name => name
                       | None => filepath.Base path
                       end in
           if decide (name = "_" ∨ name = ".") then imports
           else <[name := path]> imports)
        ∅ (ast.File.Imports file).

Definition builtins : gmap string bool :=
  list_to_map ((λ name, (name, true)) <$>
    [ "any"; "bool"; "byte"; "comparable";
      "complex64"; "complex128"; "error"; "float32";
      "float64"; "int"; "int8"; "int16";
      "int32"; "int64"; "rune"; "string";
      "uint"; "uint8"; "uint16"; "uint32";
      "uint64"; "uintptr" ]).

Definition isBuiltin (name : string) : bool := default false (builtins !! name).

Definition isErrorType (e : ast.Expr) : bool :=
  match e with
  | ast.Ident name => bool_decide (name = "error")
  | _ => false
  end.

Fixpoint resolveType (expr : ast.Expr) (ctx : fileContext) : result TypeRef.t :=
  match expr with
  | ast.Ident name =>
      if isBuiltin name then Ok (TypeRef.mk name "" false)
      else Ok (TypeRef.mk name (importPath ctx) false)
  | ast.StarExpr x =>
      inner ← resolveType x ctx;
      Ok (TypeRef.mk (TypeRef.Name inner) (TypeRef.ImportPath inner) true)
  | ast.SelectorExpr (ast.Ident pkg) sel =>
      match imports ctx !! pkg with
      | None => Err ("unknown package alias: " +:+ pkg)
      | Some importPath => Ok (TypeRef.mk sel importPath false)
      end
  | ast.ArrayType _ => Err "array types not supported as dependencies"
  | ast.MapType _ _ => Err "map types not supported as dependencies"
  | ast.ChanType _ => Err "channel types not supported as dependencies"
  | ast.InterfaceType _ => Err "anonymous interface types not supported"
  | ast.FuncTypeExpr _ => Err "function types not supported as dependencies"
  | _ => Err ("unsupported type expression: " +:+ ast.goType expr)
  end.

Definition resolveInterfaceFromArg (arg : string) (ctx : fileContext)
    : result TypeRef.t :=
  let parts := gostrings.SplitN arg "." 2 in
  if decide (length parts = 1) then Ok (TypeRef.mk arg (importPath ctx) false)
  else
    let pkgAlias := nth 0 parts "" in
    let typeName := nth 1 parts "" in
    match imports ctx !! pkgAlias with
    | None => Err ("unknown package alias: " +:+ pkgAlias)
    | Some importPath => Ok (TypeRef.mk typeName importPath false)
    end.

(** The loop of [parseParams]; [deps] is the slice built so far. *)
Fixpoint parseParamList (params : list (ast.Field ast.Expr))
    (ctx : fileContext) (deps : list Dependency.t)
    : result (list Dependency.t) :=
  match params with
  | [] => Ok deps
  | p :: rest =>
      t ← resolveType (ast.Type_ p) ctx;
      let count := length (ast.Names p) in
      let count := if decide (count = 0) then 1 else count in
      parseParamList rest ctx (deps ++ replicate count (Dependency.mk "" t))
  end.

Definition parseParams (params : option (list (ast.Field ast.Expr)))
    (ctx : fileContext) : result (list Dependency.t) :=
  match params with
  | None => Ok []
  | Some params => parseParamList params ctx []
  end.

Definition parseInvocation (fn : ast.FuncDecl.t) (ctx : fileContext)
    : result Invocation.t :=
  let name := ast.FuncDecl.Name fn in
  params ← wrapped (name +:+ ": ")
             (parseParams (ast.Params (ast.FuncDecl.Type_ fn)) ctx);
  let deps := Dependency.Type_ <$> params in
  let canError :=
    match ast.Results (ast.FuncDecl.Type_ fn) with
    | Some results =>
        match last results with
        | Some last => isErrorType (ast.Type_ last)
        | None => false
        end
    | None => false
    end in
  Ok (Invocation.mk name deps canError (importPath ctx)).

(** [unicode.IsUpper], [strings.ToLower], [strings.TrimSpace] and the
    conversions between a string and its runes follow Unicode's tables
    and UTF-8; the functions below take them as given.  A rune is its
    code point. *)
Section unicode.
Context (runes : string → list N) (ofRunes : list N → string).
Context (IsUpper : N → bool) (ToLower TrimSpace : string → string).

Definition isExported (name : string) : bool :=
  match name with
  | String c _ => IsUpper (N_of_ascii c)
  | EmptyString => false
  end.

(** The first loop of [toLowerCamel]: how many runes at the start are
    upper case. *)
Fixpoint upperPrefix (rs : list N) : nat :=
  match rs with
  | r :: rest => if IsUpper r then S (upperPrefix rest) else 0
  | [] => 0
  end.

Definition toLowerCamel (s : string) : string :=
  let rs := runes s in
  let n := length rs in
  if decide (n = 0) then s
  else
    let upper := upperPrefix rs in
    if decide (upper = 0) then s
    else
      let upper := if decide (1 < upper ∧ upper < n) then upper - 1 else upper in
      ToLower (ofRunes (take upper rs)) +:+ ofRunes (drop upper rs).

(** The loop of [parseAnnotation] over the comments of the group. *)
Fixpoint parseAnnotationIn (comments : list string) (target : string)
    : bool * string :=
  match comments with
  | [] => (false, "")
  | c :: rest =>
      let text := TrimSpace (gostrings.TrimPrefix c "//") in
      if decide (text = target) then (true, "")
      else if negb (gostrings.HasPrefix text (target +:+ " "))
      then parseAnnotationIn rest target
      else (true, TrimSpace (gostrings.TrimPrefix text target))
  end.

Definition parseAnnotation (doc : option (list string)) (annotation : string)
    : bool * string :=
  match doc with
  | None => (false, "")
  | Some comments =>
      parseAnnotationIn comments (gostrings.TrimPrefix annotation "//")
  end.

(** The loop of [parseStructProvider] over the fields of the struct. *)
Fixpoint structDeps (fields : list (ast.Field ast.Expr)) (ctx : fileContext)
    (deps : list Dependency.t) : result (list Dependency.t) :=
  match fields with
  | [] => Ok deps
  | field :: rest =>
      match ast.Names field with
      | [] => structDeps rest ctx deps
      | first :: _ =>
          if negb (isExported first) then structDeps rest ctx deps
          else
            t ← wrapped ("field " +:+ first +:+ ": ")
                  (resolveType (ast.Type_ field) ctx);
            structDeps rest ctx (deps ++ [Dependency.mk first t])
      end
  end.

Definition parseStructProvider (name : string)
    (st : option (list (ast.Field ast.Expr))) (ctx : fileContext)
    (interfaceArg : string) : result Provider.t :=
  deps ← match st with
         | Some fields => structDeps fields ctx []
         | None => Ok []
         end;
  let providedType := TypeRef.mk name (importPath ctx) true in
  providedType ←
    (if decide (interfaceArg ≠ "")
     then wrapped ("resolving interface " +:+ interfaceArg +:+ ": ")
            (resolveInterfaceFromArg interfaceArg ctx)
     else Ok providedType);
  Ok (Provider.mk name ProviderKindStruct providedType deps false
        (importPath ctx) (toLowerCamel name)).

Definition parseFuncProvider (fn : ast.FuncDecl.t) (ctx : fileContext)
    (interfaceArg : string) : result Provider.t :=
  let name := ast.FuncDecl.Name fn in
  let results := default [] (ast.Results (ast.FuncDecl.Type_ fn)) in
  let resultCount := length results in
  match results with
  | [] => Err (name +:+ ": provider must return a value")
  | _ :: _ :: _ :: _ =>
      Err (name +:+ ": provider must return 1 or 2 values, got "
             +:+ pretty resultCount)
  | first :: second =>
      if match second with
         | second :: _ => negb (isErrorType (ast.Type_ second))
         | [] => false
         end
      then Err (name +:+ ": second return value must be error")
      else
        deps ← wrapped (name +:+ ": ")
                 (parseParams (ast.Params (ast.FuncDecl.Type_ fn)) ctx);
        provided ← wrapped (name +:+ " return type: ")
                     (resolveType (ast.Type_ first) ctx);
        provided ←
          (if decide (interfaceArg ≠ "")
           then wrapped (name +:+ ": resolving interface " +:+ interfaceArg
                           +:+ ": ")
                  (resolveInterfaceFromArg interfaceArg ctx)
           else Ok provided);
        let canError := bool_decide (resultCount = 2) in
        Ok (Provider.mk name ProviderKindFunc provided deps canError
              (importPath ctx) (toLowerCamel (TypeRef.Name provided)))
  end.

(** [parseFile] appends to the result it is handed and may fail half
    way: the functions below return the result as they leave it, with
    the error if there is one. *)
Definition appendProvider (result : ParseResult.t) (p : Provider.t)
    : ParseResult.t :=
  ParseResult.mk (ParseResult.Providers result ++ [p])
    (ParseResult.Invocations result) (ParseResult.OutputPackage result)
    (ParseResult.OutputImportPath result) (ParseResult.OutputPath result).

Definition appendInvocation (result : ParseResult.t) (inv : Invocation.t)
    : ParseResult.t :=
  ParseResult.mk (ParseResult.Providers result)
    (ParseResult.Invocations result ++ [inv])
    (ParseResult.OutputPackage result)
    (ParseResult.OutputImportPath result) (ParseResult.OutputPath result).

(** The loop over the specs of a type declaration that carries the
    provide annotation. *)
Fixpoint parseSpecs (specs : list ast.Spec) (ctx : fileContext)
    (provideArg : string) (result : ParseResult.t)
    : ParseResult.t * option string :=
  match specs with
  | [] => (result, None)
  | ast.TypeSpec name (ast.StructType st) :: rest =>
      match parseStructProvider name st ctx provideArg with
      | Err err => (result, Some err)
      | Ok p => parseSpecs rest ctx provideArg (appendProvider result p)
      end
  | _ :: rest => parseSpecs rest ctx provideArg result
  end.

(** The body of the loop for a function declaration. *)
Definition parseFuncDecl (d : ast.FuncDecl.t) (ctx : fileContext)
    (result : ParseResult.t) : ParseResult.t * option string :=
  let '(hasProvide, provideArg) :=
    parseAnnotation (ast.FuncDecl.Doc d) annotationProvide in
  let '(hasInvoke, _) :=
    parseAnnotation (ast.FuncDecl.Doc d) annotationInvoke in
  if hasProvide && hasInvoke
  then (result,
        Some (ast.FuncDecl.Name d
                +:+ ": cannot have both provide and invoke annotations"))
  else
    match (if hasProvide
           then match parseFuncProvider d ctx provideArg with
                | Err err => (result, Some err)
                | Ok p => (appendProvider result p, None)
                end
           else (result, None)) with
    | (result, Some err) => (result, Some err)
    | (result, None) =>
        if hasInvoke
        then match parseInvocation d ctx with
             | Err err => (result, Some err)
             | Ok inv => (appendInvocation result inv, None)
             end
        else (result, None)
    end.

(** The loop of [parseFile] over the declarations. *)
Fixpoint parseDecls (decls : list ast.Decl) (ctx : fileContext)
    (result : ParseResult.t) : ParseResult.t * option string :=
  match decls with
  | [] => (result, None)
  | ast.GenDecl doc tok specs :: rest =>
      match tok with
      | ast.TYPE =>
          let '(hasProvide, provideArg) :=
            parseAnnotation doc annotationProvide in
          if negb hasProvide then parseDecls rest ctx result
          else
            match parseSpecs specs ctx provideArg result with
            | (result, Some err) => (result, Some err)
            | (result, None) => parseDecls rest ctx result
            end
      | _ => parseDecls rest ctx result
      end
  | ast.FuncDeclOf d :: rest =>
      match ast.FuncDecl.Recv d with
      | Some _ => parseDecls rest ctx result
      | None =>
          match parseFuncDecl d ctx result with
          | (result, Some err) => (result, Some err)
          | (result, None) => parseDecls rest ctx result
          end
      end
  | ast.BadDecl :: rest => parseDecls rest ctx result
  end.

(** [parseFile]; [parsed] is what [parser.ParseFile] returned for the
    file at the path. *)
Definition parseFile (parsed : result ast.File.t) (importPath : string)
    (result : ParseResult.t) : ParseResult.t * option string :=
  match parsed with
  | Err err => (result, Some err)
  | Ok file =>
      let ctx := mkContext importPath (buildImportMap file) in
      parseDecls (ast.File.Decls file) ctx result
  end.

End unicode.

End parser.

(** The resolver of the analyzer's tests: [filepath.Base] of the path. *)
Inductive mockResolver := MockResolver.

Global Instance mockResolver_ResolveName : PackageNameResolver mockResolver :=
  λ _ importPath, filepath.Base importPath.

Import analyzer.

(** * Vocabulary of the properties *)

Definition keys (l : list Provider.t) : list string := Provider.key <$> l.
Arguments keys : simpl never.

(** The shape of a reported cycle: the last key also occurs earlier. *)
Definition closesLoop (path : list string) : Prop :=
  ∃ pre k mid, path = pre ++ k :: mid ++ [k].

(** ** The state of the traversal *)

Section invariant.
Context (byType : gmap string Provider.t).
(** [universe] lists the keys the traversal can meet, [known] the
    providers it can be handed. *)
Context (universe : list string) (known : Provider.t → Prop).

(** In [l], every dependency that [byType] resolves has the key of its
    provider at a strictly earlier index. *)
Definition depsBefore (l : list Provider.t) : Prop :=
  ∀ i p dep q, l !! i = Some p → dep ∈ Provider.Dependencies p →
    byType !! TypeRef.Key (Dependency.Type_ dep) = Some q →
    ∃ j q', j < i ∧ l !! j = Some q' ∧ Provider.key q' = Provider.key q.

Record dfsInv (path : list string) (st : dfs) : Prop := {
  inv_stack : ∀ k, flag (inStack st) k = true ↔ k ∈ path;
  inv_path : NoDup path;
  inv_universe : ∀ k, k ∈ path → k ∈ universe;
  inv_visited : ∀ k, flag (visited st) k = true ↔ k ∈ keys (result st);
  inv_disjoint : ∀ k, k ∈ path → k ∉ keys (result st);
  inv_nodup : NoDup (keys (result st));
  inv_known : ∀ p, p ∈ result st → known p;
  inv_topo : depsBefore (result st)
}.

Definition extends (st st' : dfs) : Prop :=
  ∃ added, result st' = result st ++ added.

(** What one call [visit p path] is expected to deliver from [st]. *)
Definition visitOk (path : list string) (st : dfs) (p : Provider.t)
    (o : outcome dfs) : Prop :=
  match o with
  | Done st' =>
      dfsInv path st' ∧ extends st st' ∧ Provider.key p ∈ keys (result st')
  | Fail e => ∃ c, e = ErrCycle c ∧ closesLoop c
  | OutOfFuel => False
  end.

(** The same for a loop over a list of dependency keys. *)
Definition loopOk (path : list string) (st : dfs) (ks : list string)
    (o : outcome dfs) : Prop :=
  match o with
  | Done st' =>
      dfsInv path st' ∧ extends st st' ∧
      ∀ k q, k ∈ ks → byType !! k = Some q →
             Provider.key q ∈ keys (result st')
  | Fail e => ∃ c, e = ErrCycle c ∧ closesLoop c
  | OutOfFuel => False
  end.

End invariant.

(** The providers [topoSort] can be handed, and their keys. *)
Definition reachable (providers : list Provider.t)
    (byType : gmap string Provider.t) (q : Provider.t) : Prop :=
  q ∈ providers ∨ ∃ k, byType !! k = Some q.

(** Every dependency whose key some provider provides has that provider at
    a strictly earlier index. *)
Definition topological (l : list Provider.t) : Prop :=
  ∀ i P D, l !! i = Some P → D ∈ Provider.Dependencies P →
    TypeRef.Key (Dependency.Type_ D) ∈ keys l →
    ∃ j Q, j < i ∧ l !! j = Some Q ∧
           Provider.key Q = TypeRef.Key (Dependency.Type_ D).

(** [dependsOn providers k1 k2]: the provider of [k1] declares a
    dependency on [k2]. *)
Definition dependsOn (providers : list Provider.t) (k1 k2 : string) : Prop :=
  ∃ p dep, p ∈ providers ∧ Provider.key p = k1 ∧
           dep ∈ Provider.Dependencies p ∧
           TypeRef.Key (Dependency.Type_ dep) = k2.

(** Direct, indirect and self cycles alike: some key reaches itself in one
    step or more. *)
Definition hasCycle (providers : list Provider.t) : Prop :=
  ∃ k, tc (dependsOn providers) k k.

(** In the order [l], every declared dependency has a provider of its key
    at a strictly earlier index than the provider that declares it, and no
    provider of that key stands anywhere else. *)
Definition dependenciesFirst (l : list Provider.t) : Prop :=
  ∀ i P D, l !! i = Some P → D ∈ Provider.Dependencies P →
    (∃ j Q, j < i ∧ l !! j = Some Q ∧
            Provider.key Q = TypeRef.Key (Dependency.Type_ D)) ∧
    (∀ j Q, l !! j = Some Q →
            Provider.key Q = TypeRef.Key (Dependency.Type_ D) → j < i).

(** ** Names and aliases *)

(** How many providers before index [i] carry the base name [base]. *)
Definition occurrencesBefore (l : list Provider.t) (i : nat) (base : string)
    : nat :=
  length (filter (λ p, Provider.VarName p = base) (take i l)).

(** The name a provider ends up with when [k] earlier providers share its
    base name. *)
Definition disambiguated (k : nat) (p : Provider.t) : Provider.t :=
  if decide (k = 0) then p
  else Provider.setVarName p (Provider.VarName p +:+ pretty k).

(** The alias of a path whose short name [base] was claimed [k] times
    before it. *)
Definition aliasFor (base : string) (k : nat) : string :=
  if decide (k = 0) then "" else base +:+ pretty k.

Section aliasVocabulary.
Context `{PackageNameResolver R} (resolver : R).

(** How many paths before index [i] of [l] resolve to [base]. *)
Definition sameNameBefore (l : list string) (i : nat) (base : string) : nat :=
  length (filter (λ q, ResolveName resolver q = base) (take i l)).

(** [q] sorts strictly before [path]. *)
Definition strictlyBefore (q path : string) : Prop :=
  String.le q path ∧ q ≠ path.

Global Instance strictlyBefore_dec q path : Decision (strictlyBefore q path).
Proof. unfold strictlyBefore. apply _. Defined.

(** How many paths of the set sort strictly before [path] and resolve
    to the same short name. *)
Definition earlierSameName (paths : gset string) (path : string) : nat :=
  length (filter (λ q, ResolveName resolver q = ResolveName resolver path)
            (filter (λ q, strictlyBefore q path) (elements paths))).

End aliasVocabulary.

(** The name the generated file refers to a namespace by: its alias, or
    its short name when the alias is empty. *)
Definition localName `{PackageNameResolver R} (resolver : R)
    (imports : gmap string string) (path : string) : string :=
  match imports !! path with
  | Some alias => if decide (alias = "") then ResolveName resolver path else alias
  | None => ""
  end.

(** ** Missing references and imports *)

(** The references of one provider, and of one invocation, that no
    provider of [providers] satisfies, as the error lists them. *)
Definition unmetOfProvider (providers : list Provider.t) (p : Provider.t)
    : list string :=
  (λ dep, Provider.Name p +:+ " requires " +:+ TypeRef.Key (Dependency.Type_ dep))
    <$> filter (λ dep, TypeRef.Key (Dependency.Type_ dep) ∉ keys providers)
          (Provider.Dependencies p).

Definition unmetOfInvocation (providers : list Provider.t) (inv : Invocation.t)
    : list string :=
  (λ dep, Invocation.Name inv +:+ " requires " +:+ TypeRef.Key dep)
    <$> filter (λ dep, TypeRef.Key dep ∉ keys providers)
          (Invocation.Dependencies inv).

(** All unmet references: the providers' in declaration order, then the
    invocations'. *)
Definition unmetReferences (parsed : ParseResult.t) : list string :=
  (ParseResult.Providers parsed ≫= unmetOfProvider (ParseResult.Providers parsed))
  ++ (ParseResult.Invocations parsed
        ≫= unmetOfInvocation (ParseResult.Providers parsed)).

(** An unmet reference of a provider, and of an invocation. *)
Definition unmetProviderDep (parsed : ParseResult.t) (p : Provider.t)
    (dep : Dependency.t) : Prop :=
  p ∈ ParseResult.Providers parsed ∧ dep ∈ Provider.Dependencies p ∧
  TypeRef.Key (Dependency.Type_ dep) ∉ keys (ParseResult.Providers parsed).

Definition unmetInvocationDep (parsed : ParseResult.t) (inv : Invocation.t)
    (dep : TypeRef.t) : Prop :=
  inv ∈ ParseResult.Invocations parsed ∧ dep ∈ Invocation.Dependencies inv ∧
  TypeRef.Key dep ∉ keys (ParseResult.Providers parsed).

(** [path] is the namespace of a provider, of one of its dependencies, of
    an invocation, or of one of its required types. *)
Definition referencedByProvider (p : Provider.t) (path : string) : Prop :=
  path = Provider.ImportPath p ∨
  ∃ dep, dep ∈ Provider.Dependencies p ∧
         path = TypeRef.ImportPath (Dependency.Type_ dep).

Definition referencedByInvocation (inv : Invocation.t) (path : string) : Prop :=
  path = Invocation.ImportPath inv ∨
  ∃ dep, dep ∈ Invocation.Dependencies inv ∧ path = TypeRef.ImportPath dep.

Definition referenced (providers : list Provider.t)
    (invocations : list Invocation.t) (path : string) : Prop :=
  (∃ p, p ∈ providers ∧ referencedByProvider p path) ∨
  (∃ inv, inv ∈ invocations ∧ referencedByInvocation inv path).

(** A namespace that is imported: not the empty one, not the output's. *)
Definition importable (outputPath path : string) : Prop :=
  path ≠ "" ∧ path ≠ outputPath.

(** ** Paths and version suffixes *)

Fixpoint noSeparator (s : string) : bool :=
  match s with
  | EmptyString => true
  | String c rest => negb (filepath.IsPathSeparator c) && noSeparator rest
  end.

(** An element [filepath.Clean] keeps as it is. *)
Definition properElement (e : string) : Prop :=
  e ≠ "" ∧ e ≠ "." ∧ e ≠ "..".

(** A bare major-version segment: a [v] followed by one or more digits. *)
Definition bareVersion (s : string) : Prop :=
  ∃ n, s = String "v" n ∧ n ≠ "" ∧ resolver.allDigits n = true.

(** [s] is [stem] followed by [.vN], [N] being one or more digits. *)
Definition dotVersion (s stem : string) : Prop :=
  ∃ n, s = stem +:+ ".v" +:+ n ∧ n ≠ "" ∧ resolver.allDigits n = true.

Fixpoint noDot (s : string) : bool :=
  match s with
  | EmptyString => true
  | String c rest => negb (Ascii.eqb c ".") && noDot rest
  end.

(** ** Sample inputs *)

Definition typeOf (pkg name : string) : TypeRef.t := TypeRef.mk name pkg false.

Definition providerOf (pkg name varName : string) (deps : list TypeRef.t)
    : Provider.t :=
  Provider.mk name ProviderKindFunc (typeOf pkg name)
    (Dependency.mk "" <$> deps) false pkg varName.

Definition parsedOf (providers : list Provider.t)
    (invocations : list Invocation.t) : ParseResult.t :=
  ParseResult.mk providers invocations "main" "example.com/app" "".

(** [A] needs [B] and [C], which both need [D]; [Run] needs [A]. *)
Definition diamond : ParseResult.t :=
  parsedOf
    [ providerOf "pkg" "A" "a" [typeOf "pkg" "B"; typeOf "pkg" "C"];
      providerOf "pkg" "B" "b" [typeOf "pkg" "D"];
      providerOf "pkg" "C" "c" [typeOf "pkg" "D"];
      providerOf "pkg" "D" "d" [] ]
    [ Invocation.mk "Run" [typeOf "pkg" "A"] false "pkg" ].

(** What [Analyze] returns for [diamond]. *)
Definition diamondResult : Result :=
  mkResult
    [ providerOf "pkg" "D" "d" [];
      providerOf "pkg" "B" "b" [typeOf "pkg" "D"];
      providerOf "pkg" "C" "c" [typeOf "pkg" "D"];
      providerOf "pkg" "A" "a" [typeOf "pkg" "B"; typeOf "pkg" "C"] ]
    (ParseResult.Invocations diamond) "main" "example.com/app"
    {[ "pkg" := "" ]}.

(** [A] needs [B], and [B] needs itself. *)
Definition leadIn : ParseResult.t :=
  parsedOf
    [ providerOf "pkg" "A" "a" [typeOf "pkg" "B"];
      providerOf "pkg" "B" "b" [typeOf "pkg" "B"] ]
    [].

(** A provider with two unmet dependencies and an invocation with one
    more. *)
Definition threeMissing : ParseResult.t :=
  parsedOf
    [ providerOf "pkg" "Service" "service"
        [typeOf "pkg" "Config"; typeOf "pkg" "Database"] ]
    [ Invocation.mk "Setup" [typeOf "pkg" "Logger"] false "pkg" ].

(** The two providers of [TestAnalyze_DuplicateProvider]. *)
Definition twoConfigs : ParseResult.t :=
  parsedOf
    [ Provider.mk "NewConfigA" ProviderKindFunc
        (TypeRef.mk "Config" "pkg/config" true) [] false "pkg/config" "config";
      Provider.mk "NewConfigB" ProviderKindFunc
        (TypeRef.mk "Config" "pkg/config" true) [] false "pkg/config" "config" ]
    [].

(** Types [Cfg], [Cfg] and [Cfg1] of three packages: the base names are
    [cfg], [cfg] and [cfg1]. *)
Definition cfgNames : ParseResult.t :=
  parsedOf
    [ providerOf "pkg/a" "Cfg" "cfg" [];
      providerOf "pkg/b" "Cfg" "cfg" [];
      providerOf "pkg/c" "Cfg1" "cfg1" [] ]
    [].

Definition httpPaths : gset string := {[ "a/http"; "b/http"; "c/http1" ]}.

(** ** Vocabulary of the further properties *)

(** Consecutive keys of [l] are related by [R]. *)
Definition linked (R : string → string → Prop) (l : list string) : Prop :=
  ∀ i a b, l !! i = Some a → l !! S i = Some b → R a b.

(** One step of the traversal: a provider it can be handed, with key
    [k1], declares a dependency that [byType] resolves to a provider with
    key [k2]. *)
Definition stepBy (byType : gmap string Provider.t)
    (known : Provider.t → Prop) (k1 k2 : string) : Prop :=
  ∃ p dep q, known p ∧ Provider.key p = k1 ∧
             dep ∈ Provider.Dependencies p ∧
             byType !! TypeRef.Key (Dependency.Type_ dep) = Some q ∧
             Provider.key q = k2.

(** A reported path: the keys on the stack, none of them twice, followed
    by one of them again, each key related to the next by [R]. *)
Definition reportOf (R : string → string → Prop) (c : list string) : Prop :=
  ∃ stack k, c = stack ++ [k] ∧ NoDup stack ∧ k ∈ stack ∧ linked R c.

(** The providers are declared in dependency order: a dependency that
    some provider provides is provided by an earlier one. *)
Definition declaredInOrder (providers : list Provider.t) : Prop :=
  ∀ i p dep, providers !! i = Some p → dep ∈ Provider.Dependencies p →
    TypeRef.Key (Dependency.Type_ dep) ∈ keys providers →
    TypeRef.Key (Dependency.Type_ dep) ∈ keys (take i providers).

(** The providers of [diamond], dependencies first. *)
Definition diamondOrdered : list Provider.t :=
  [ providerOf "pkg" "D" "d" [];
    providerOf "pkg" "B" "b" [typeOf "pkg" "D"];
    providerOf "pkg" "C" "c" [typeOf "pkg" "D"];
    providerOf "pkg" "A" "a" [typeOf "pkg" "B"; typeOf "pkg" "C"] ].

Definition startsWithStar (s : string) : bool :=
  match s with
  | String c _ => Ascii.eqb c "*"
  | EmptyString => false
  end.

(** A reference to a type named by an identifier: no dot in the name,
    and neither the name nor the import path begins with the pointer
    mark. *)
Definition plainRef (t : TypeRef.t) : Prop :=
  noDot (TypeRef.Name t) = true ∧
  startsWithStar (TypeRef.Name t) = false ∧
  startsWithStar (TypeRef.ImportPath t) = false.

(** The key without the pointer mark. *)
Definition keyBody (t : TypeRef.t) : string :=
  if decide (TypeRef.ImportPath t = "") then TypeRef.Name t
  else TypeRef.ImportPath t +:+ String "." (TypeRef.Name t).

(** ** Vocabulary of the parser's properties *)

(** [e] behind [n] pointer marks. *)
Definition stars (n : nat) (e : ast.Expr) : ast.Expr :=
  Nat.iter n ast.StarExpr e.

(** The field's type resolves to [t]. *)
Definition resolvesTo (ctx : parser.fileContext) (f : ast.Field ast.Expr)
    (t : TypeRef.t) : Prop :=
  parser.resolveType (ast.Type_ f) ctx = parser.Ok t.

(** The dependencies a parameter declaration of type [t] stands for: one
    for each of its names, one if it has none. *)
Definition paramDeps (f : ast.Field ast.Expr) (t : TypeRef.t)
    : list Dependency.t :=
  replicate (length (ast.Names f) `max` 1) (Dependency.mk "" t).

(** The path an import declaration names, and the name it is bound to in
    the file. *)
Definition importedPath (imp : ast.ImportSpec.t) : string :=
  gostrings.Trim (ast.ImportSpec.Path imp) parser.quote.

Definition boundName (imp : ast.ImportSpec.t) : string :=
  default (filepath.Base (importedPath imp)) (ast.ImportSpec.Name imp).

(** The reference names a built-in, a type of the file's own package or a
    type of a package the file imports. *)
Definition fromFile (file : ast.File.t) (importPath : string)
    (t : TypeRef.t) : Prop :=
  TypeRef.ImportPath t = "" ∨ TypeRef.ImportPath t = importPath ∨
  ∃ imp, imp ∈ ast.File.Imports file ∧ TypeRef.ImportPath t = importedPath imp.

(** [result] with [ps] and [invs] appended. *)
Definition extended (result : ParseResult.t) (ps : list Provider.t)
    (invs : list Invocation.t) : ParseResult.t :=
  ParseResult.mk (ParseResult.Providers result ++ ps)
    (ParseResult.Invocations result ++ invs)
    (ParseResult.OutputPackage result)
    (ParseResult.OutputImportPath result) (ParseResult.OutputPath result).

(** What a step of the parser leaves behind: the result it was handed
    with providers and invocations appended, all of them good. *)
Definition grows (okProvider : Provider.t → Prop)
    (okInvocation : Invocation.t → Prop) (result : ParseResult.t)
    (out : ParseResult.t * option string) : Prop :=
  ∃ ps invs, out.1 = extended result ps invs ∧
             Forall okProvider ps ∧ Forall okInvocation invs.

(** The reference names a built-in, a type of the file's own package or a
    type of a package the context binds a name to. *)
Definition fromContext (ctx : parser.fileContext) (t : TypeRef.t) : Prop :=
  TypeRef.ImportPath t = "" ∨ TypeRef.ImportPath t = parser.importPath ctx ∨
  ∃ pkg, parser.imports ctx !! pkg = Some (TypeRef.ImportPath t).

(** The first name of a field declaration, if it is exported. *)
Definition exportedName (IsUpper : N → bool) (f : ast.Field ast.Expr)
    : option string :=
  match ast.Names f with
  | first :: _ => if parser.isExported IsUpper first then Some first else None
  | [] => None
  end.

(** The dependency a struct field gives rise to: named after the first
    name of the field, which is exported, with the field's type. *)
Definition fieldDep (IsUpper : N → bool) (ctx : parser.fileContext)
    (f : ast.Field ast.Expr) (dep : Dependency.t) : Prop :=
  exportedName IsUpper f = Some (Dependency.FieldName dep) ∧
  resolvesTo ctx f (Dependency.Type_ dep).

(** Unicode restricted to ASCII, for the samples. *)
Definition asciiIsUpper (r : N) : bool := ((65 <=? r) && (r <=? 90))%N.
Definition asciiRunes (s : string) : list N :=
  N_of_ascii <$> list_ascii_of_string s.
Definition asciiOfRunes (rs : list N) : string :=
  string_of_list_ascii (ascii_of_N <$> rs).
Definition asciiToLower (s : string) : string :=
  asciiOfRunes ((λ r, if asciiIsUpper r then (r + 32)%N else r) <$> asciiRunes s).

(** A file context and a struct for the samples:
    [type Service struct { Repo *Repository; Log, Audit log.Logger;
    cache map[string]int; Base }]. *)
Definition appContext : parser.fileContext :=
  parser.mkContext "example.com/app" (<["log" := "example.com/log"]> ∅).

Definition serviceFields : list (ast.Field ast.Expr) :=
  [ ast.mkField _ ["Repo"] (ast.StarExpr (ast.Ident "Repository"));
    ast.mkField _ ["Log"; "Audit"]
      (ast.SelectorExpr (ast.Ident "log") "Logger");
    ast.mkField _ ["cache"] (ast.MapType (ast.Ident "string") (ast.Ident "int"));
    ast.mkField _ [] (ast.Ident "Base") ].

Definition serviceProvider : Provider.t :=
  Provider.mk "Service" ProviderKindStruct
    (TypeRef.mk "Service" "example.com/app" true)
    [ Dependency.mk "Repo" (TypeRef.mk "Repository" "example.com/app" true);
      Dependency.mk "Log" (TypeRef.mk "Logger" "example.com/log" false) ]
    false "example.com/app" "service".

(** * Properties *)

(** ** Reading and writing the flag maps *)

Lemma flag_empty k : flag ∅ k = false.
Proof. unfold flag. by rewrite lookup_empty. Qed.

Lemma flag_insert m k b k' :
  flag (<[k := b]> m) k' = if decide (k = k') then b else flag m k'.
Proof.
  unfold flag. rewrite lookup_insert. by destruct (decide (k = k')).
Qed.

(** ** The depth-first traversal *)

Lemma keys_app l1 l2 : keys (l1 ++ l2) = keys l1 ++ keys l2.
Proof. apply fmap_app. Qed.

Lemma keys_cons p l : keys (p :: l) = Provider.key p :: keys l.
Proof. done. Qed.

Lemma keys_snoc l p : keys (l ++ [p]) = keys l ++ [Provider.key p].
Proof. by rewrite keys_app. Qed.

Lemma elem_of_keys k l : k ∈ keys l ↔ ∃ p, p ∈ l ∧ Provider.key p = k.
Proof. unfold keys. rewrite list_elem_of_fmap. naive_solver. Qed.

Lemma elem_of_keys_lookup k l :
  k ∈ keys l ↔ ∃ i p, l !! i = Some p ∧ Provider.key p = k.
Proof.
  rewrite elem_of_keys. split.
  - intros (p & [i Hi]%list_elem_of_lookup & <-). eauto.
  - intros (i & p & Hi & <-). exists p. split; [|done].
    apply list_elem_of_lookup. eauto.
Qed.

Section traversal.
Context (byType : gmap string Provider.t).
(** [universe] lists the keys the traversal can meet, [known] the
    providers it can be handed. *)
Context (universe : list string) (known : Provider.t → Prop).
Hypothesis known_byType : ∀ k q, byType !! k = Some q → known q.
Hypothesis known_universe : ∀ q, known q → Provider.key q ∈ universe.

Local Abbreviation depsBefore := (depsBefore byType).
Local Abbreviation dfsInv := (dfsInv byType universe known).
Local Abbreviation visitOk := (visitOk byType universe known).
Local Abbreviation loopOk := (loopOk byType universe known).

Lemma extends_refl st : extends st st.
Proof. exists []. by rewrite app_nil_r. Qed.

Lemma extends_trans st1 st2 st3 :
  extends st1 st2 → extends st2 st3 → extends st1 st3.
Proof.
  intros [a1 H1] [a2 H2]. exists (a1 ++ a2). by rewrite H2, H1, app_assoc.
Qed.

Lemma extends_keys st st' k :
  extends st st' → k ∈ keys (result st) → k ∈ keys (result st').
Proof.
  intros [a ->]. rewrite keys_app, elem_of_app. auto.
Qed.

Lemma dfsInv_push path st key :
  dfsInv path st → key ∈ universe →
  flag (inStack st) key = false → flag (visited st) key = false →
  dfsInv (path ++ [key])
    (mkDfs (visited st) (<[key := true]> (inStack st)) (result st)).
Proof.
  intros [] Hu Hs Hv.
  assert (key ∉ path) as Hnp.
  { intros Hin%inv_stack0. congruence. }
  assert (key ∉ keys (result st)) as Hnk.
  { intros Hin%inv_visited0. congruence. }
  split; simpl; try done.
  - intros k. rewrite flag_insert, elem_of_app, list_elem_of_singleton.
    destruct (decide (key = k)) as [->|]; [naive_solver|].
    rewrite inv_stack0. naive_solver.
  - apply NoDup_app. split_and!; [done| |apply NoDup_singleton].
    intros x Hx ->%list_elem_of_singleton. done.
  - intros k [?| ->%list_elem_of_singleton]%elem_of_app; auto.
  - intros k [?| ->%list_elem_of_singleton]%elem_of_app; auto.
Qed.

Lemma depsBefore_snoc l p :
  depsBefore l →
  (∀ dep q, dep ∈ Provider.Dependencies p →
     byType !! TypeRef.Key (Dependency.Type_ dep) = Some q →
     Provider.key q ∈ keys l) →
  depsBefore (l ++ [p]).
Proof.
  intros Hl Hp i p' dep q Hi Hdep Hq.
  apply lookup_snoc_Some in Hi as [[Hlt Hi]|[-> ->]].
  - destruct (Hl i p' dep q Hi Hdep Hq) as (j & q' & ? & Hj & ?).
    exists j, q'. split_and!; [done| |done].
    by apply lookup_app_l_Some.
  - apply Hp in Hq; [|done].
    apply elem_of_keys_lookup in Hq as (j & q' & Hj & ?).
    exists j, q'. split_and!; [|by apply lookup_app_l_Some|done].
    by eapply lookup_lt_Some.
Qed.

Lemma dfsInv_pop path st p :
  dfsInv (path ++ [Provider.key p]) st → known p →
  (∀ dep q, dep ∈ Provider.Dependencies p →
     byType !! TypeRef.Key (Dependency.Type_ dep) = Some q →
     Provider.key q ∈ keys (result st)) →
  dfsInv path
    (mkDfs (<[Provider.key p := true]> (visited st))
           (<[Provider.key p := false]> (inStack st))
           (result st ++ [p])).
Proof.
  intros [] Hk Hdeps.
  apply NoDup_app in inv_path0 as (Hnd & Hnot & _).
  assert (Provider.key p ∉ path) as Hnp.
  { intros Hin. apply (Hnot _ Hin). by apply list_elem_of_singleton. }
  assert (Provider.key p ∉ keys (result st)) as Hnk.
  { apply inv_disjoint0, elem_of_app. right. by apply list_elem_of_singleton. }
  split; simpl; try done.
  - intros k. rewrite flag_insert.
    destruct (decide (Provider.key p = k)) as [<-|Hne]; [naive_solver|].
    rewrite inv_stack0, elem_of_app, list_elem_of_singleton. naive_solver.
  - intros k Hin. apply inv_universe0, elem_of_app. auto.
  - intros k. rewrite flag_insert, keys_snoc, elem_of_app.
    rewrite list_elem_of_singleton.
    destruct (decide (Provider.key p = k)) as [<-|Hne]; [naive_solver|].
    rewrite inv_visited0. naive_solver.
  - intros k Hin. rewrite keys_snoc, elem_of_app.
    rewrite list_elem_of_singleton. intros [Hr| ->]; [|done].
    eapply inv_disjoint0; [|done]. apply elem_of_app. auto.
  - rewrite keys_snoc. apply NoDup_app. split_and!; [done| |apply NoDup_singleton].
    intros x Hx ->%list_elem_of_singleton. done.
  - intros q [?| ->%list_elem_of_singleton]%elem_of_app; auto.
  - by apply depsBefore_snoc.
Qed.

Lemma dfsInv_path_length path st : dfsInv path st → length path ≤ length universe.
Proof.
  intros []. apply submseteq_length, NoDup_submseteq; auto.
Qed.

Lemma visitDeps_ok rec deps path st :
  (∀ p st, dfsInv path st → known p → visitOk path st p (rec p path st)) →
  dfsInv path st →
  loopOk path st ((TypeRef.Key ∘ Dependency.Type_) <$> deps)
    (visitDeps rec byType deps path st).
Proof.
  intros Hrec. revert st.
  induction deps as [|dep deps IH]; intros st Hinv; simpl.
  - split_and!; [done|apply extends_refl|]. intros k q Hk. by apply elem_of_nil in Hk.
  - destruct (byType !! TypeRef.Key (Dependency.Type_ dep)) as [q0|] eqn:Hq0.
    + specialize (Hrec q0 st Hinv (known_byType _ _ Hq0)).
      destruct (rec q0 path st) as [st1| |]; simpl in *; [|done..].
      destruct Hrec as (Hinv1 & Hext1 & Hin1).
      specialize (IH st1 Hinv1).
      destruct (visitDeps rec byType deps path st1) as [st2| |]; simpl in *; [|done..].
      destruct IH as (Hinv2 & Hext2 & Hin2).
      split_and!; [done|by eapply extends_trans|].
      intros k q [->|Hk]%elem_of_cons Hq; [|by eauto].
      rewrite Hq0 in Hq. injection Hq as <-. by eapply extends_keys.
    + specialize (IH st Hinv).
      destruct (visitDeps rec byType deps path st) as [st2| |]; simpl in *; [|done..].
      destruct IH as (Hinv2 & Hext2 & Hin2).
      split_and!; [done..|].
      intros k q [->|Hk]%elem_of_cons Hq; [congruence|by eauto].
Qed.

Lemma visit_ok fuel p path st :
  dfsInv path st → known p → length universe < fuel + length path →
  visitOk path st p (visit fuel byType p path st).
Proof.
  revert p path st. induction fuel as [|fuel IH]; intros p path st Hinv Hk Hfuel.
  { pose proof (dfsInv_path_length _ _ Hinv). simpl in *. lia. }
  simpl.
  destruct (flag (inStack st) (Provider.key p)) eqn:Hs.
  { simpl. eexists. split; [done|].
    apply (inv_stack _ _ _ _ _ Hinv) in Hs.
    apply list_elem_of_split in Hs as (pre & mid & ->).
    exists pre, (Provider.key p), mid. by rewrite <-app_assoc. }
  destruct (flag (visited st) (Provider.key p)) eqn:Hv.
  { simpl. split_and!; [done|apply extends_refl|].
    by apply (inv_visited _ _ _ _ _ Hinv). }
  pose proof (dfsInv_push _ _ _ Hinv (known_universe _ Hk) Hs Hv) as Hinv1.
  assert (loopOk (path ++ [Provider.key p])
            (mkDfs (visited st) (<[Provider.key p := true]> (inStack st)) (result st))
            ((TypeRef.Key ∘ Dependency.Type_) <$> Provider.Dependencies p)
            (visitDeps (visit fuel byType) byType (Provider.Dependencies p)
               (path ++ [Provider.key p])
               (mkDfs (visited st) (<[Provider.key p := true]> (inStack st)) (result st))))
    as Hloop.
  { apply visitDeps_ok; [|done]. intros q st' Hi Hq. apply IH; [done..|].
    rewrite length_app. simpl. lia. }
  destruct (visitDeps _ _ _ _ _) as [st2| |]; simpl in *; [|done..].
  destruct Hloop as (Hinv2 & [added Hext] & Hdeps).
  split_and!.
  - apply dfsInv_pop; [done..|].
    intros dep q Hdep Hq.
    apply (Hdeps (TypeRef.Key (Dependency.Type_ dep)) q); [|done].
    apply list_elem_of_fmap. by exists dep.
  - simpl in Hext. exists (added ++ [p]). simpl. by rewrite Hext, app_assoc.
  - simpl. rewrite keys_snoc, elem_of_app. right. by apply list_elem_of_singleton.
Qed.

(** The root loops of [topoSort]; every root is visited with an empty
    path. *)
Section roots.
Context (rec : Provider.t → list string → dfs → outcome dfs).
Hypothesis rec_ok : ∀ p st,
  dfsInv [] st → known p → visitOk [] st p (rec p [] st).

Lemma visitInvocationDeps_ok deps st :
  dfsInv [] st →
  loopOk [] st (TypeRef.Key <$> deps)
    (visitInvocationDeps rec byType deps st).
Proof.
  revert st. induction deps as [|dep deps IH]; intros st Hinv; simpl.
  - split_and!; [done|apply extends_refl|].
    intros k q Hk. by apply elem_of_nil in Hk.
  - destruct (byType !! TypeRef.Key dep) as [q0|] eqn:Hq0.
    + pose proof (rec_ok q0 st Hinv (known_byType _ _ Hq0)) as Hrec.
      destruct (rec q0 [] st) as [st1| |]; simpl in *; [|done..].
      destruct Hrec as (Hinv1 & Hext1 & Hin1).
      specialize (IH st1 Hinv1).
      destruct (visitInvocationDeps rec byType deps st1) as [st2| |];
        simpl in *; [|done..].
      destruct IH as (Hinv2 & Hext2 & Hin2).
      split_and!; [done|by eapply extends_trans|].
      intros k q [->|Hk]%elem_of_cons Hq; [|by eauto].
      rewrite Hq0 in Hq. injection Hq as <-. by eapply extends_keys.
    + specialize (IH st Hinv).
      destruct (visitInvocationDeps rec byType deps st) as [st2| |];
        simpl in *; [|done..].
      destruct IH as (Hinv2 & Hext2 & Hin2).
      split_and!; [done..|].
      intros k q [->|Hk]%elem_of_cons Hq; [congruence|by eauto].
Qed.

Lemma visitInvocations_ok invocations st :
  dfsInv [] st →
  loopOk [] st [] (visitInvocations rec byType invocations st).
Proof.
  revert st. induction invocations as [|inv invs IH]; intros st Hinv; simpl.
  - split_and!; [done|apply extends_refl|].
    intros k q Hk. by apply elem_of_nil in Hk.
  - pose proof (visitInvocationDeps_ok (Invocation.Dependencies inv) st Hinv)
      as Hdeps.
    destruct (visitInvocationDeps _ _ _ _) as [st1| |]; simpl in *; [|done..].
    destruct Hdeps as (Hinv1 & Hext1 & _).
    specialize (IH st1 Hinv1).
    destruct (visitInvocations rec byType invs st1) as [st2| |];
      simpl in *; [|done..].
    destruct IH as (Hinv2 & Hext2 & Hin2).
    split_and!; [done|by eapply extends_trans|done].
Qed.

Lemma visitProviders_ok providers st :
  dfsInv [] st → (∀ p, p ∈ providers → known p) →
  match visitProviders rec providers st with
  | Done st' =>
      dfsInv [] st' ∧ extends st st' ∧
      ∀ p, p ∈ providers → Provider.key p ∈ keys (result st')
  | Fail e => ∃ c, e = ErrCycle c ∧ closesLoop c
  | OutOfFuel => False
  end.
Proof.
  revert st. induction providers as [|p ps IH]; intros st Hinv Hknown; simpl.
  - split_and!; [done|apply extends_refl|].
    intros p Hp. by apply elem_of_nil in Hp.
  - pose proof (rec_ok p st Hinv (Hknown p ltac:(left))) as Hrec.
    destruct (rec p [] st) as [st1| |]; simpl in *; [|done..].
    destruct Hrec as (Hinv1 & Hext1 & Hin1).
    specialize (IH st1 Hinv1 (λ q Hq, Hknown q ltac:(by right))).
    destruct (visitProviders rec ps st1) as [st2| |]; simpl in *; [|done..].
    destruct IH as (Hinv2 & Hext2 & Hin2).
    split_and!; [done|by eapply extends_trans|].
    intros q [->|Hq]%elem_of_cons; [by eapply extends_keys|by auto].
Qed.
End roots.

Lemma dfsInv_init : dfsInv [] (mkDfs ∅ ∅ []).
Proof.
  split; simpl.
  - intros k. rewrite flag_empty. split; [done|]. by intros ?%elem_of_nil.
  - apply NoDup_nil_2.
  - by intros k ?%elem_of_nil.
  - intros k. rewrite flag_empty. split; [done|]. by intros ?%elem_of_nil.
  - by intros k ?%elem_of_nil.
  - apply NoDup_nil_2.
  - by intros p ?%elem_of_nil.
  - intros i p dep q Hi. by rewrite lookup_nil in Hi.
Qed.

End traversal.

Lemma size_universe providers (byType : gmap string Provider.t) :
  length (keys providers ++ keys (map_to_list byType).*2)
  = length providers + size byType.
Proof.
  unfold keys. by rewrite length_app, !length_fmap, length_map_to_list.
Qed.

Lemma reachable_universe providers (byType : gmap string Provider.t) q :
  reachable providers byType q →
  Provider.key q ∈ keys providers ++ keys (map_to_list byType).*2.
Proof.
  intros [Hq|[k Hk]]; apply elem_of_app; [left|right]; apply elem_of_keys.
  - eauto.
  - exists q. split; [|done]. apply list_elem_of_fmap. exists (k, q).
    split; [done|]. by apply elem_of_map_to_list.
Qed.

(** [topoSort] always returns: either an order in which nothing is
    repeated, every provider of the input occurs, and every resolved
    dependency comes first; or a cycle whose last key occurs earlier in the
    reported path. *)
Lemma topoSort_ok providers invocations byType :
  match topoSort providers invocations byType with
  | Done l =>
      NoDup (keys l) ∧ depsBefore byType l ∧
      (∀ p, p ∈ l → reachable providers byType p) ∧
      (∀ p, p ∈ providers → Provider.key p ∈ keys l)
  | Fail e => ∃ c, e = ErrCycle c ∧ closesLoop c
  | OutOfFuel => False
  end.
Proof.
  unfold topoSort.
  set (universe := keys providers ++ keys (map_to_list byType).*2).
  set (known := reachable providers byType).
  assert (∀ k q, byType !! k = Some q → known q) as Hkb.
  { intros k q Hq. right. eauto. }
  assert (∀ q, known q → Provider.key q ∈ universe) as Hku.
  { apply reachable_universe. }
  set (rec := visit (visitDepth providers byType) byType).
  assert (∀ p st, dfsInv byType universe known [] st → known p →
            visitOk byType universe known [] st p (rec p [] st)) as Hrec.
  { intros p st Hinv Hp. apply visit_ok; [done..|].
    unfold universe, visitDepth. rewrite size_universe. simpl. lia. }
  clearbody rec.
  pose proof (visitInvocations_ok byType universe known Hkb rec Hrec
                invocations _ (dfsInv_init byType universe known)) as H1.
  destruct (visitInvocations _ _ _ _) as [st1| |]; simpl in *; [|done..].
  destruct H1 as (Hinv1 & _ & _).
  pose proof (visitProviders_ok byType universe known rec Hrec providers st1 Hinv1)
    as H2.
  destruct (visitProviders _ _ _) as [st2| |]; simpl in *.
  - destruct H2 as (Hinv2 & _ & Hall); [by left|].
    destruct Hinv2. split_and!; done.
  - apply H2. by left.
  - apply H2. by left.
Qed.

(** ** The provider index *)

Lemma key_inj_on (ps : list Provider.t) p q :
  NoDup (keys ps) → p ∈ ps → q ∈ ps → Provider.key p = Provider.key q → p = q.
Proof.
  induction ps as [|a ps IH]; [by intros _ ?%elem_of_nil|].
  rewrite keys_cons, NoDup_cons.
  intros [Ha Hnd] [->|Hp]%elem_of_cons [->|Hq]%elem_of_cons Heq; try done.
  - destruct Ha. apply elem_of_keys. eauto.
  - destruct Ha. apply elem_of_keys. eauto.
  - by apply IH.
Qed.

(** A successful index build: no key is met twice, and the index holds
    exactly the providers of the list, each under its key. *)
Lemma indexProviders_inr ps m m' :
  indexProviders ps m = inr m' →
  NoDup (keys ps) ∧ (∀ p, p ∈ ps → m !! Provider.key p = None) ∧
  ∀ k q, m' !! k = Some q ↔ m !! k = Some q ∨ (q ∈ ps ∧ Provider.key q = k).
Proof.
  revert m. induction ps as [|p ps IH]; intros m; simpl.
  - intros [= <-]. split_and!; [apply NoDup_nil_2|by intros p ?%elem_of_nil|].
    intros k q. split; [auto|]. intros [?|[?%elem_of_nil ?]]; done.
  - destruct (m !! Provider.key p) as [dup|] eqn:Hm; [done|].
    intros (Hnd & Hfresh & Hlook)%IH.
    assert (Provider.key p ∉ keys ps) as Hnotin.
    { intros (q & Hq & Hkq)%elem_of_keys.
      specialize (Hfresh q Hq). rewrite Hkq, lookup_insert_eq in Hfresh. done. }
    split_and!.
    + rewrite keys_cons. by apply NoDup_cons.
    + intros q [->|Hq]%elem_of_cons; [done|].
      specialize (Hfresh q Hq).
      rewrite lookup_insert_ne in Hfresh; [done|].
      intros Heq. apply Hnotin. rewrite Heq. apply elem_of_keys. eauto.
    + intros k q. rewrite Hlook, lookup_insert, elem_of_cons.
      destruct (decide (Provider.key p = k)) as [<-|Hne].
      * split.
        -- intros [[= <-]|[Hq Hk]]; [by right; split; [left|]|].
           right. split; [by right|done].
        -- intros [Hq|[[->|Hq] Hk]]; [congruence|by left|by right].
      * split.
        -- intros [Hq|[Hq Hk]]; [by left|]. right. split; [by right|done].
        -- intros [Hq|[[->|Hq] Hk]]; [by left|done|by right].
Qed.

Lemma indexProviders_lookup ps byType :
  indexProviders ps ∅ = inr byType →
  NoDup (keys ps) ∧ ∀ k q, byType !! k = Some q ↔ q ∈ ps ∧ Provider.key q = k.
Proof.
  intros (Hnd & _ & Hlook)%indexProviders_inr. split; [done|].
  intros k q. rewrite Hlook, lookup_empty. naive_solver.
Qed.

Lemma indexProviders_provided ps byType k :
  indexProviders ps ∅ = inr byType →
  (∃ q, byType !! k = Some q) ↔ k ∈ keys ps.
Proof.
  intros [_ Hlook]%indexProviders_lookup. rewrite elem_of_keys.
  split; intros [q Hq]; exists q; by apply Hlook.
Qed.

(** A failed index build stops at the first provider [Q] whose key is
    already indexed, and names it with the provider [P] found under that
    key. *)
Lemma indexProviders_inl ps m e :
  indexProviders ps m = inl e →
  ∃ j Q P, ps !! j = Some Q ∧ NoDup (keys (take j ps)) ∧
    (∀ q, q ∈ take j ps → m !! Provider.key q = None) ∧
    e = ErrDuplicate (Provider.key Q) (Provider.Name P) (Provider.Name Q) ∧
    (m !! Provider.key Q = Some P ∨
     ∃ i, i < j ∧ ps !! i = Some P ∧ Provider.key P = Provider.key Q).
Proof.
  revert m. induction ps as [|p ps IH]; intros m; simpl; [done|].
  destruct (m !! Provider.key p) as [dup|] eqn:Hm.
  - intros [= <-]. exists 0, p, dup. simpl.
    split_and!; [done|apply NoDup_nil_2|by intros q ?%elem_of_nil|done|by left].
  - intros (j & Q & P & Hj & Hnd & Hfresh & -> & Hwhere)%IH.
    assert (∀ q, q ∈ take j ps →
              Provider.key p ≠ Provider.key q ∧ m !! Provider.key q = None)
      as Hfresh'.
    { intros q Hq. specialize (Hfresh q Hq). rewrite lookup_insert in Hfresh.
      by destruct (decide (Provider.key p = Provider.key q)). }
    exists (S j), Q, P. simpl. split_and!; [done| | |done|].
    + rewrite keys_cons. apply NoDup_cons. split; [|done].
      intros (q & Hq & Hkq)%elem_of_keys. by destruct (Hfresh' q Hq).
    + intros q [->|Hq]%elem_of_cons; [done|]. by apply Hfresh'.
    + destruct Hwhere as [Hm'|(i & Hlt & Hi & Hk)].
      * rewrite lookup_insert in Hm'.
        destruct (decide (Provider.key p = Provider.key Q)) as [Heq|Hne].
        -- injection Hm' as <-. right. exists 0. simpl. split_and!; [lia|done..].
        -- by left.
      * right. exists (S i). simpl. split_and!; [lia|done..].
Qed.

Lemma indexProviders_dup ps :
  ¬ NoDup (keys ps) → ∃ e, indexProviders ps ∅ = inl e.
Proof.
  intros Hdup. destruct (indexProviders ps ∅) as [e|m] eqn:He; [eauto|].
  by apply indexProviders_inr in He as [? _].
Qed.

Lemma NoDup_keys_lookup ps i j P Q :
  NoDup (keys ps) → ps !! i = Some P → ps !! j = Some Q →
  Provider.key P = Provider.key Q → i = j.
Proof.
  intros Hnd Hi Hj Hk. eapply NoDup_lookup; [exact Hnd| |].
  - unfold keys. rewrite list_lookup_fmap, Hi. done.
  - unfold keys. rewrite list_lookup_fmap, Hj. simpl. by rewrite Hk.
Qed.

Lemma indexProviders_nodup ps :
  NoDup (keys ps) → ∃ byType, indexProviders ps ∅ = inr byType.
Proof.
  intros Hnd. destruct (indexProviders ps ∅) as [e|m] eqn:He; [|eauto].
  apply indexProviders_inl in He as (j & Q & P & Hj & _ & _ & _ & [Hm|Hdup]).
  - by rewrite lookup_empty in Hm.
  - destruct Hdup as (i & Hlt & Hi & Hk).
    pose proof (NoDup_keys_lookup _ _ _ _ _ Hnd Hi Hj Hk). lia.
Qed.

(** ** The order computed by [topoSort] over a well-formed index *)

Lemma topoSort_rearranges providers invocations byType l :
  indexProviders providers ∅ = inr byType →
  topoSort providers invocations byType = Done l →
  l ≡ₚ providers.
Proof.
  intros [Hnd Hlook]%indexProviders_lookup Hsort.
  pose proof (topoSort_ok providers invocations byType) as Hok.
  rewrite Hsort in Hok. destruct Hok as (Hndl & _ & Hreach & Hall).
  assert (∀ p, p ∈ l → p ∈ providers) as Hsub.
  { intros p Hp. apply Hreach in Hp as [Hp|[k Hk]]; [done|].
    by apply Hlook in Hk as [? _]. }
  apply NoDup_Permutation.
  - by eapply NoDup_fmap_1.
  - by eapply NoDup_fmap_1.
  - intros p. split; [by auto|]. intros Hp.
    pose proof (Hall p Hp) as (q & Hq & Hkq)%elem_of_keys.
    by rewrite <-(key_inj_on providers q p Hnd (Hsub q Hq) Hp Hkq).
Qed.

Lemma topoSort_topological providers invocations byType l :
  indexProviders providers ∅ = inr byType →
  topoSort providers invocations byType = Done l →
  NoDup (keys l) ∧ topological l.
Proof.
  intros Hidx Hsort.
  pose proof (topoSort_rearranges _ _ _ _ Hidx Hsort) as Hperm.
  pose proof (indexProviders_lookup _ _ Hidx) as [Hnd Hlook].
  pose proof (topoSort_ok providers invocations byType) as Hok.
  rewrite Hsort in Hok. destruct Hok as (Hndl & Htopo & _ & _).
  split; [done|].
  intros i P D Hi HD (Q & HQ & HkQ)%elem_of_keys.
  rewrite Hperm in HQ.
  assert (byType !! TypeRef.Key (Dependency.Type_ D) = Some Q) as Hby.
  { by apply Hlook. }
  destruct (Htopo i P D Q Hi HD Hby) as (j & Q' & Hlt & Hj & Hk').
  exists j, Q'. split_and!; [done..|congruence].
Qed.

(** ** Cycles of the depends-on relation *)

Lemma dependsOn_source providers k1 k2 :
  dependsOn providers k1 k2 → k1 ∈ keys providers.
Proof. intros (p & dep & Hp & Hk & _). apply elem_of_keys. eauto. Qed.

Lemma tc_dependsOn_source providers k1 k2 :
  tc (dependsOn providers) k1 k2 → k1 ∈ keys providers.
Proof. intros [? ? H|? ? ? H _]; by eapply dependsOn_source. Qed.

Lemma topological_descends providers l a b :
  NoDup (keys providers) → l ≡ₚ providers → topological l →
  tc (dependsOn providers) a b → b ∈ keys providers →
  ∀ i pa, l !! i = Some pa → Provider.key pa = a →
    ∃ j pb, j < i ∧ l !! j = Some pb ∧ Provider.key pb = b.
Proof.
  intros Hnd Hperm Htopo Htc. 
  assert (∀ a b, dependsOn providers a b → b ∈ keys providers →
            ∀ i pa, l !! i = Some pa → Provider.key pa = a →
            ∃ j pb, j < i ∧ l !! j = Some pb ∧ Provider.key pb = b) as Hstep.
  { clear a b Htc. intros a b (p & dep & Hp & Hkp & Hdep & Hkd) Hb i pa Hi Hka.
    assert (pa = p) as ->.
    { apply (key_inj_on providers); [done| |done|congruence].
      rewrite <-Hperm. apply list_elem_of_lookup. eauto. }
    destruct (Htopo i p dep Hi Hdep) as (j & Q & ? & ? & ?).
    - unfold keys. rewrite Hperm. fold (keys providers). by rewrite Hkd.
    - exists j, Q. split_and!; [done..|congruence]. }
  induction Htc as [a b Hab|a c b Hac Hcb IH]; intros Hb i pa Hi Hka.
  - by eapply Hstep.
  - destruct (Hstep a c Hac (tc_dependsOn_source _ _ _ Hcb) i pa Hi Hka)
      as (j & pc & Hlt & Hj & Hkc).
    destruct (IH Hb j pc Hj Hkc) as (j' & pb & Hlt' & Hj' & Hkb).
    exists j', pb. split_and!; [lia|done..].
Qed.

Lemma topological_acyclic providers l :
  NoDup (keys providers) → l ≡ₚ providers → topological l →
  ¬ hasCycle providers.
Proof.
  intros Hnd Hperm Htopo [k Hk].
  pose proof (tc_dependsOn_source _ _ _ Hk) as Hin.
  pose proof (topological_descends providers l k k Hnd Hperm Htopo Hk Hin) as Hdesc.
  assert (∀ i pa, l !! i = Some pa → Provider.key pa = k → False) as Hnone.
  { intros i. induction (lt_wf i) as [i _ IH]. intros pa Hi Hka.
    destruct (Hdesc i pa Hi Hka) as (j & pb & Hlt & Hj & Hkb). eauto. }
  apply elem_of_keys in Hin as (p & Hp & Hkp).
  rewrite <-Hperm in Hp. apply list_elem_of_lookup in Hp as [i Hi]. eauto.
Qed.

(** ** resolveVarNames *)

Lemma occurrencesBefore_cons p l i base :
  occurrencesBefore (p :: l) (S i) base
  = (if decide (Provider.VarName p = base) then 1 else 0)
    + occurrencesBefore l i base.
Proof.
  unfold occurrencesBefore. simpl. rewrite filter_cons.
  by destruct (decide (Provider.VarName p = base)).
Qed.

Lemma resolveVarNamesFrom_imap usedNames l :
  resolveVarNamesFrom usedNames l
  = imap (λ i p, disambiguated
                   (default 0 (usedNames !! Provider.VarName p)
                    + occurrencesBefore l i (Provider.VarName p)) p) l.
Proof.
  revert usedNames. induction l as [|p l IH]; intros m; simpl; [done|].
  f_equal.
  - unfold occurrencesBefore. simpl. by rewrite Nat.add_0_r.
  - rewrite IH. apply imap_ext. intros i q _. simpl.
    rewrite occurrencesBefore_cons, lookup_insert.
    destruct (decide (Provider.VarName p = Provider.VarName q)) as [Heq|Hne];
      simpl; [rewrite Heq|]; f_equal; lia.
Qed.

Lemma resolveVarNames_imap l :
  resolveVarNames l
  = imap (λ i p, disambiguated (occurrencesBefore l i (Provider.VarName p)) p) l.
Proof.
  unfold resolveVarNames. rewrite resolveVarNamesFrom_imap.
  apply imap_ext. intros i p _. simpl. by rewrite lookup_empty.
Qed.

Lemma disambiguated_key k p : Provider.key (disambiguated k p) = Provider.key p.
Proof. unfold disambiguated. by destruct (decide (k = 0)). Qed.

Lemma disambiguated_Dependencies k p :
  Provider.Dependencies (disambiguated k p) = Provider.Dependencies p.
Proof. unfold disambiguated. by destruct (decide (k = 0)). Qed.

Lemma disambiguated_ImportPath k p :
  Provider.ImportPath (disambiguated k p) = Provider.ImportPath p.
Proof. unfold disambiguated. by destruct (decide (k = 0)). Qed.

Lemma resolveVarNames_lookup l i P :
  resolveVarNames l !! i = Some P →
  ∃ P0 k, l !! i = Some P0 ∧ P = disambiguated k P0.
Proof.
  rewrite resolveVarNames_imap, list_lookup_imap.
  destruct (l !! i) as [P0|]; simpl; [|done]. intros [= <-]. eauto.
Qed.

Lemma resolveVarNames_keys l : keys (resolveVarNames l) = keys l.
Proof.
  rewrite resolveVarNames_imap. unfold keys. apply list_eq. intros i.
  rewrite !list_lookup_fmap, list_lookup_imap.
  destruct (l !! i); simpl; [|done]. by rewrite disambiguated_key.
Qed.


(** ** validateDeps *)

Section validate.
Context (providers : list Provider.t) (byType : gmap string Provider.t).
Hypothesis indexed : indexProviders providers ∅ = inr byType.

Lemma byType_None k : byType !! k = None ↔ k ∉ keys providers.
Proof.
  rewrite <-(indexProviders_provided providers byType k indexed).
  destruct (byType !! k) as [q|]; split.
  - done.
  - intros Hn. destruct Hn. eauto.
  - by intros _ [q Hq].
  - done.
Qed.

Lemma missingProviderDeps_spec p deps missing :
  missingProviderDeps (Provider.Name p) deps byType missing
  = missing ++
    ((λ dep, Provider.Name p +:+ " requires " +:+ TypeRef.Key (Dependency.Type_ dep))
       <$> filter (λ dep, TypeRef.Key (Dependency.Type_ dep) ∉ keys providers) deps).
Proof.
  revert missing. induction deps as [|dep deps IH]; intros missing; simpl.
  - by rewrite app_nil_r.
  - rewrite filter_cons.
    destruct (byType !! TypeRef.Key (Dependency.Type_ dep)) as [q|] eqn:Hq.
    + rewrite decide_False; [apply IH|].
      intros Hn. apply byType_None in Hn. congruence.
    + rewrite decide_True; [|by apply byType_None].
      rewrite IH, fmap_cons, <-app_assoc. done.
Qed.

Lemma missingInvocationDeps_spec inv deps missing :
  missingInvocationDeps (Invocation.Name inv) deps byType missing
  = missing ++
    ((λ dep, Invocation.Name inv +:+ " requires " +:+ TypeRef.Key dep)
       <$> filter (λ dep, TypeRef.Key dep ∉ keys providers) deps).
Proof.
  revert missing. induction deps as [|dep deps IH]; intros missing; simpl.
  - by rewrite app_nil_r.
  - rewrite filter_cons.
    destruct (byType !! TypeRef.Key dep) as [q|] eqn:Hq.
    + rewrite decide_False; [apply IH|].
      intros Hn. apply byType_None in Hn. congruence.
    + rewrite decide_True; [|by apply byType_None].
      rewrite IH, fmap_cons, <-app_assoc. done.
Qed.

Lemma missingOfProviders_spec ps missing :
  missingOfProviders ps byType missing
  = missing ++ (ps ≫= unmetOfProvider providers).
Proof.
  revert missing. induction ps as [|p ps IH]; intros missing; simpl.
  - by rewrite app_nil_r.
  - rewrite IH, missingProviderDeps_spec, <-app_assoc. done.
Qed.

Lemma missingOfInvocations_spec invs missing :
  missingOfInvocations invs byType missing
  = missing ++ (invs ≫= unmetOfInvocation providers).
Proof.
  revert missing. induction invs as [|inv invs IH]; intros missing; simpl.
  - by rewrite app_nil_r.
  - rewrite IH, missingInvocationDeps_spec, <-app_assoc. done.
Qed.

Lemma validateDeps_spec invocations :
  validateDeps providers invocations byType
  = let missing := (providers ≫= unmetOfProvider providers)
                   ++ (invocations ≫= unmetOfInvocation providers) in
    match missing with
    | [] => None
    | _ :: _ => Some (ErrMissing missing)
    end.
Proof.
  unfold validateDeps.
  rewrite missingOfInvocations_spec, missingOfProviders_spec. simpl.
  destruct (_ ++ _) as [|m ms]; [done|].
  case_decide as Hlen; [done|]. simpl in Hlen. lia.
Qed.
End validate.

Lemma elem_of_unmetReferences parsed entry :
  entry ∈ unmetReferences parsed ↔
  (∃ p dep, unmetProviderDep parsed p dep ∧
     entry = Provider.Name p +:+ " requires " +:+ TypeRef.Key (Dependency.Type_ dep))
  ∨ (∃ inv dep, unmetInvocationDep parsed inv dep ∧
       entry = Invocation.Name inv +:+ " requires " +:+ TypeRef.Key dep).
Proof.
  unfold unmetReferences, unmetProviderDep, unmetInvocationDep.
  rewrite elem_of_app, !list_elem_of_bind.
  unfold unmetOfProvider, unmetOfInvocation.
  split.
  - intros [(p & Hin & Hp)|(inv & Hin & Hinv)].
    + apply list_elem_of_fmap in Hin as (dep & -> & [Hn Hdep]%list_elem_of_filter).
      left. by exists p, dep.
    + apply list_elem_of_fmap in Hin as (dep & -> & [Hn Hdep]%list_elem_of_filter).
      right. by exists inv, dep.
  - intros [(p & dep & (Hp & Hdep & Hn) & ->)|(inv & dep & (Hi & Hdep & Hn) & ->)].
    + left. exists p. split; [|done].
      apply list_elem_of_fmap. exists dep. split; [done|].
      by apply list_elem_of_filter.
    + right. exists inv. split; [|done].
      apply list_elem_of_fmap. exists dep. split; [done|].
      by apply list_elem_of_filter.
Qed.

(** ** Decimal suffixes *)

Lemma pretty_N_go_nonempty (x : N) s : s ≠ "" → pretty_N_go x s ≠ "".
Proof.
  revert s. induction (N.lt_wf_0 x) as [x _ IH]; intros s Hs.
  destruct (decide (x = 0)%N) as [->|Hx]; [by rewrite pretty_N_go_0|].
  rewrite pretty_N_go_step by lia. apply IH; [|done].
  apply N.div_lt; lia.
Qed.

Lemma pretty_nat_nonempty (k : nat) : pretty k ≠ "".
Proof.
  unfold pretty, pretty_nat, pretty, pretty_N.
  destruct (decide (N.of_nat k = 0)%N) as [|Hk]; [done|].
  rewrite pretty_N_go_step by lia. by apply pretty_N_go_nonempty.
Qed.

Lemma append_empty (a b : string) : a +:+ b = "" → b = "".
Proof. destruct a; [done|]. by intros [=]. Qed.

Lemma aliasFor_inj base k1 k2 : aliasFor base k1 = aliasFor base k2 → k1 = k2.
Proof.
  unfold aliasFor.
  destruct (decide (k1 = 0)) as [->|H1], (decide (k2 = 0)) as [->|H2]; try done.
  - intros Heq. symmetry in Heq. apply append_empty in Heq.
    by apply pretty_nat_nonempty in Heq.
  - intros Heq. apply append_empty in Heq.
    by apply pretty_nat_nonempty in Heq.
  - intros Heq%(inj (String.app base)). by apply (inj pretty).
Qed.

(** ** List filters *)

Lemma filter_all {A} (P : A → Prop) `{∀ x, Decision (P x)} (l : list A) :
  Forall P l → filter P l = l.
Proof.
  induction 1 as [|x l Hx Hl IH]; [done|].
  rewrite filter_cons, decide_True by done. by f_equal.
Qed.

Lemma filter_none {A} (P : A → Prop) `{∀ x, Decision (P x)} (l : list A) :
  Forall (λ x, ¬ P x) l → filter P l = [].
Proof.
  induction 1 as [|x l Hx Hl IH]; [done|].
  by rewrite filter_cons, decide_False.
Qed.

(** ** resolveImportAliases *)

Section aliases.
Context `{PackageNameResolver R} (resolver : R).
Local Abbreviation sameNameBefore := (sameNameBefore resolver).
Local Abbreviation earlierSameName := (earlierSameName resolver).

Lemma sameNameBefore_cons a l i base :
  sameNameBefore (a :: l) (S i) base
  = (if decide (ResolveName resolver a = base) then 1 else 0)
    + sameNameBefore l i base.
Proof.
  unfold sameNameBefore. simpl. rewrite filter_cons.
  by destruct (decide (ResolveName resolver a = base)).
Qed.

Lemma assignAliases_cons path rest baseCount imports :
  assignAliases resolver (path :: rest) baseCount imports
  = assignAliases resolver rest
      (<[ResolveName resolver path :=
           default 0 (baseCount !! ResolveName resolver path) + 1]> baseCount)
      (<[path := aliasFor (ResolveName resolver path)
                   (default 0 (baseCount !! ResolveName resolver path))]> imports).
Proof.
  simpl. unfold aliasFor.
  by destruct (decide (default 0 (baseCount !! ResolveName resolver path) = 0)).
Qed.

Lemma assignAliases_other l baseCount imports path :
  path ∉ l →
  assignAliases resolver l baseCount imports !! path = imports !! path.
Proof.
  revert baseCount imports.
  induction l as [|a l IH]; intros bc im Hn; [done|].
  apply not_elem_of_cons in Hn as [Hne Hn].
  rewrite assignAliases_cons, IH by done. by rewrite lookup_insert_ne.
Qed.

Lemma assignAliases_lookup l baseCount imports i path :
  NoDup l → l !! i = Some path →
  assignAliases resolver l baseCount imports !! path
  = Some (aliasFor (ResolveName resolver path)
            (default 0 (baseCount !! ResolveName resolver path)
             + sameNameBefore l i (ResolveName resolver path))).
Proof.
  revert baseCount imports i.
  induction l as [|a l IH]; intros bc im i Hnd Hi; [done|].
  apply NoDup_cons in Hnd as [Ha Hnd].
  rewrite assignAliases_cons. destruct i as [|i]; simpl in Hi.
  - injection Hi as ->.
    rewrite assignAliases_other, lookup_insert_eq by done.
    unfold sameNameBefore. simpl. by rewrite Nat.add_0_r.
  - rewrite (IH _ _ i Hnd Hi), sameNameBefore_cons, lookup_insert.
    do 2 f_equal.
    destruct (decide (ResolveName resolver a = ResolveName resolver path))
      as [Heq|Hne]; simpl; [rewrite Heq|]; lia.
Qed.

Lemma assignAliases_dom l baseCount imports :
  dom (assignAliases resolver l baseCount imports)
  = list_to_set l ∪ dom imports.
Proof.
  revert baseCount imports. induction l as [|a l IH]; intros bc im.
  - simpl. set_solver.
  - rewrite assignAliases_cons, IH, dom_insert_L. simpl. set_solver.
Qed.

Lemma sorted_strictlyBefore l i path :
  StronglySorted String.le l → NoDup l → l !! i = Some path →
  filter (λ q, strictlyBefore q path) l = take i l.
Proof.
  intros Hs Hnd Hi.
  rewrite <-(take_drop_middle l i path Hi) in Hs, Hnd.
  rewrite <-(take_drop_middle l i path Hi) at 1.
  apply StronglySorted_app in Hs as (Hleft & _ & Hright).
  apply StronglySorted_cons in Hright as [Hafter _].
  apply NoDup_app in Hnd as (_ & Hdisj & Hnd).
  apply NoDup_cons in Hnd as [Hnotin _].
  rewrite filter_app, filter_cons, decide_False; [|by intros [_ []]].
  rewrite filter_all, filter_none; [by rewrite app_nil_r| |].
  - apply Forall_forall. intros q Hq [Hle Hne].
    rewrite Forall_forall in Hafter. specialize (Hafter q Hq).
    apply Hne. by apply (anti_symm String.le).
  - apply Forall_forall. intros q Hq. split.
    + apply (Hleft q path Hq). by left.
    + intros ->. apply (Hdisj path Hq). by left.
Qed.

Lemma sorted_paths (ranged : list string) (paths : gset string) :
  ranged ≡ₚ elements paths →
  let l := merge_sort String.le ranged in
  StronglySorted String.le l ∧ NoDup l ∧ l ≡ₚ elements paths.
Proof.
  intros Hperm l.
  assert (l ≡ₚ elements paths) as Hl.
  { unfold l. by rewrite merge_sort_Permutation. }
  split_and!; [apply StronglySorted_merge_sort; apply _| |done].
  rewrite Hl. apply NoDup_elements.
Qed.

Lemma resolveImportAliasesRanged_lookup ranged paths path :
  ranged ≡ₚ elements paths → path ∈ paths →
  resolveImportAliasesRanged resolver ranged !! path
  = Some (aliasFor (ResolveName resolver path) (earlierSameName paths path)).
Proof.
  intros Hperm Hin. unfold resolveImportAliasesRanged.
  destruct (sorted_paths ranged paths Hperm) as (Hs & Hnd & Hl).
  assert (path ∈ merge_sort String.le ranged) as Hpath.
  { rewrite Hl. by apply elem_of_elements. }
  apply list_elem_of_lookup in Hpath as [i Hi].
  rewrite (assignAliases_lookup _ _ _ i path Hnd Hi), lookup_empty. simpl.
  do 2 f_equal. unfold sameNameBefore, earlierSameName.
  rewrite <-(sorted_strictlyBefore _ i path Hs Hnd Hi). by rewrite Hl.
Qed.

Lemma resolveImportAliasesRanged_dom ranged paths :
  ranged ≡ₚ elements paths →
  dom (resolveImportAliasesRanged resolver ranged) = paths.
Proof.
  intros Hperm. unfold resolveImportAliasesRanged.
  rewrite assignAliases_dom, dom_empty_L.
  apply set_eq. intros x.
  rewrite elem_of_union, elem_of_list_to_set, merge_sort_Permutation, Hperm.
  rewrite elem_of_elements. set_solver.
Qed.

Lemma resolveImportAliasesRanged_order ranged paths :
  ranged ≡ₚ elements paths →
  resolveImportAliasesRanged resolver ranged
  = resolveImportAliases paths resolver.
Proof.
  intros Hperm. unfold resolveImportAliases, resolveImportAliasesRanged.
  f_equal. apply (Sorted_unique String.le).
  - apply Sorted_merge_sort; apply _.
  - apply Sorted_merge_sort; apply _.
  - by rewrite !merge_sort_Permutation.
Qed.

(** Among paths with one short name, a later path has been preceded by
    strictly more of them. *)
Lemma earlierSameName_lt paths p q :
  p ∈ paths → q ∈ paths → strictlyBefore p q →
  ResolveName resolver p = ResolveName resolver q →
  earlierSameName paths p < earlierSameName paths q.
Proof.
  intros Hp Hq Hpq Hname. unfold earlierSameName. rewrite Hname.
  destruct (sorted_paths (elements paths) paths ltac:(done)) as (Hs & Hnd & Hl).
  rewrite <-!Hl.
  assert (p ∈ merge_sort String.le (elements paths)) as [i Hi]%list_elem_of_lookup.
  { rewrite Hl. by apply elem_of_elements. }
  assert (q ∈ merge_sort String.le (elements paths)) as [j Hj]%list_elem_of_lookup.
  { rewrite Hl. by apply elem_of_elements. }
  rewrite (sorted_strictlyBefore _ i p Hs Hnd Hi).
  rewrite (sorted_strictlyBefore _ j q Hs Hnd Hj).
  set (l := merge_sort String.le (elements paths)) in *.
  assert (i < j) as Hlt.
  { destruct (decide (i < j)) as [|Hge]; [done|].
    assert (p ∈ filter (λ x, strictlyBefore x q) l) as Hin.
    { apply list_elem_of_filter. split; [done|]. apply list_elem_of_lookup; eauto. }
    rewrite (sorted_strictlyBefore _ j q Hs Hnd Hj) in Hin.
    apply list_elem_of_lookup in Hin as [i' Hi'].
    apply lookup_take_Some in Hi' as [Hi' Hlt'].
    pose proof (NoDup_lookup _ _ _ _ Hnd Hi Hi'). lia. }
  assert (take i (take j l) ++ p :: drop (S i) (take j l) = take j l) as Hmid.
  { apply take_drop_middle, lookup_take_Some. split; [done|lia]. }
  rewrite take_take, Nat.min_l in Hmid by lia. rewrite <-Hmid.
  rewrite filter_app, filter_cons, decide_True by done.
  rewrite length_app. simpl. lia.
Qed.
End aliases.

(** ** collectImports *)

Section imports.
Context (outputPath : string).
Local Abbreviation importable := (importable outputPath).

Lemma elem_of_add paths path x :
  x ∈ add outputPath paths path ↔ x ∈ paths ∨ (x = path ∧ importable x).
Proof.
  unfold add, importable.
  destruct (decide (path = "" ∨ path = outputPath)) as [Hskip|Hkeep].
  - split; [by left|]. intros [?|[-> [? ?]]]; [done|]. by destruct Hskip.
  - rewrite elem_of_union, elem_of_singleton. split.
    + intros [->|?]; [|by left]. right. split; [done|].
      split; intros ->; apply Hkeep; auto.
    + intros [?|[-> _]]; auto.
Qed.

Lemma elem_of_foldl_add {A} (f : A → string) (l : list A) paths x :
  x ∈ foldl (λ paths a, add outputPath paths (f a)) paths l ↔
  x ∈ paths ∨ (importable x ∧ ∃ a, a ∈ l ∧ x = f a).
Proof.
  revert paths. induction l as [|a l IH]; intros paths; simpl.
  - split; [by left|]. intros [?|[_ (a & Ha%elem_of_nil & _)]]; done.
  - rewrite IH, elem_of_add. split.
    + intros [[?|[-> ?]]|[? (b & Hb & ->)]].
      * by left.
      * right. split; [done|]. exists a. split; [by left|done].
      * right. split; [done|]. exists b. split; [by right|done].
    + intros [?|[? (b & [->|Hb]%elem_of_cons & ->)]].
      * by left; left.
      * by left; right.
      * right. split; [done|]. by exists b.
Qed.

Lemma elem_of_addProvider paths p x :
  x ∈ addProvider outputPath paths p ↔
  x ∈ paths ∨ (importable x ∧ referencedByProvider p x).
Proof.
  unfold addProvider, referencedByProvider.
  rewrite (elem_of_foldl_add (λ dep, TypeRef.ImportPath (Dependency.Type_ dep))).
  rewrite elem_of_add. naive_solver.
Qed.

Lemma elem_of_addInvocation paths inv x :
  x ∈ addInvocation outputPath paths inv ↔
  x ∈ paths ∨ (importable x ∧ referencedByInvocation inv x).
Proof.
  unfold addInvocation, referencedByInvocation.
  rewrite (elem_of_foldl_add TypeRef.ImportPath).
  rewrite elem_of_add. naive_solver.
Qed.

Lemma elem_of_foldl_addProvider providers paths x :
  x ∈ foldl (addProvider outputPath) paths providers ↔
  x ∈ paths ∨ (importable x ∧ ∃ p, p ∈ providers ∧ referencedByProvider p x).
Proof.
  revert paths. induction providers as [|p ps IH]; intros paths; simpl.
  - split; [by left|]. intros [?|[_ (a & Ha%elem_of_nil & _)]]; done.
  - rewrite IH, elem_of_addProvider. split.
    + intros [[?|[? ?]]|[? (q & Hq & ?)]].
      * by left.
      * right. split; [done|]. exists p. split; [by left|done].
      * right. split; [done|]. exists q. split; [by right|done].
    + intros [?|[? (q & [->|Hq]%elem_of_cons & ?)]].
      * by left; left.
      * by left; right.
      * right. split; [done|]. by exists q.
Qed.

Lemma elem_of_foldl_addInvocation invocations paths x :
  x ∈ foldl (addInvocation outputPath) paths invocations ↔
  x ∈ paths ∨
  (importable x ∧ ∃ inv, inv ∈ invocations ∧ referencedByInvocation inv x).
Proof.
  revert paths. induction invocations as [|p ps IH]; intros paths; simpl.
  - split; [by left|]. intros [?|[_ (a & Ha%elem_of_nil & _)]]; done.
  - rewrite IH, elem_of_addInvocation. split.
    + intros [[?|[? ?]]|[? (q & Hq & ?)]].
      * by left.
      * right. split; [done|]. exists p. split; [by left|done].
      * right. split; [done|]. exists q. split; [by right|done].
    + intros [?|[? (q & [->|Hq]%elem_of_cons & ?)]].
      * by left; left.
      * by left; right.
      * right. split; [done|]. by exists q.
Qed.

Lemma collectImports_dom `{PackageNameResolver R} (resolver : R)
    providers invocations path :
  path ∈ dom (collectImports providers invocations outputPath resolver) ↔
  referenced providers invocations path ∧ importable path.
Proof.
  unfold collectImports, resolveImportAliases.
  rewrite (resolveImportAliasesRanged_dom resolver _ _ ltac:(reflexivity)).
  rewrite elem_of_foldl_addInvocation, elem_of_foldl_addProvider.
  unfold referenced. rewrite elem_of_empty. naive_solver.
Qed.
End imports.

(** ** Strings *)

Lemma append_nil_l (s : string) : "" +:+ s = s.
Proof. done. Qed.

Lemma append_cons c (a b : string) : String c a +:+ b = String c (a +:+ b).
Proof. done. Qed.

Lemma append_nil_r (s : string) : s +:+ "" = s.
Proof. induction s as [|c s IH]; [done|]. by rewrite append_cons, IH. Qed.

Lemma append_assoc (a b c : string) : (a +:+ b) +:+ c = a +:+ (b +:+ c).
Proof. induction a as [|x a IH]; [done|]. by rewrite !append_cons, IH. Qed.

Lemma length_append (a b : string) :
  String.length (a +:+ b) = String.length a + String.length b.
Proof. induction a as [|x a IH]; [done|]. rewrite append_cons. simpl. by rewrite IH. Qed.

Lemma sliceFrom_append (a b : string) :
  gostrings.sliceFrom (a +:+ b) (String.length a) = b.
Proof. induction a as [|x a IH]; [by destruct b|]. by rewrite append_cons. Qed.

Lemma sliceTo_append (a b : string) :
  gostrings.sliceTo (a +:+ b) (String.length a) = a.
Proof.
  induction a as [|x a IH]; [by destruct b|]. rewrite append_cons. simpl.
  by rewrite IH.
Qed.

Lemma CutSuffix_append (stem suffix : string) :
  gostrings.CutSuffix (stem +:+ suffix) suffix = (stem, true).
Proof.
  unfold gostrings.CutSuffix, gostrings.HasSuffix.
  rewrite length_append.
  replace (String.length stem + String.length suffix - String.length suffix)
    with (String.length stem) by lia.
  rewrite sliceFrom_append, sliceTo_append.
  rewrite !bool_decide_eq_true_2; [done..|lia].
Qed.

Lemma CutSuffix_empty (s : string) : gostrings.CutSuffix s "" = (s, true).
Proof. by rewrite <-(append_nil_r s) at 1; rewrite CutSuffix_append. Qed.

Lemma Join_snoc (init : list string) (last sep : string) :
  init ≠ [] →
  gostrings.Join (init ++ [last]) sep = gostrings.Join init sep +:+ sep +:+ last.
Proof.
  induction init as [|a init IH]; [done|]. intros _.
  destruct init as [|b init]; [done|].
  change (gostrings.Join ((a :: b :: init) ++ [last]) sep)
    with (a +:+ sep +:+ gostrings.Join ((b :: init) ++ [last]) sep).
  rewrite IH by done.
  change (gostrings.Join (a :: b :: init) sep)
    with (a +:+ sep +:+ gostrings.Join (b :: init) sep).
  by rewrite !append_assoc.
Qed.

(** ** path/filepath *)

Lemma IsPathSeparator_true c : filepath.IsPathSeparator c = true → c = "/"%char.
Proof. unfold filepath.IsPathSeparator. by intros ?%Ascii.eqb_eq. Qed.

Lemma split_nonempty s : filepath.split s ≠ [].
Proof.
  destruct s as [|c s]; simpl; [done|].
  destruct (filepath.IsPathSeparator c); [done|].
  by destruct (filepath.split s).
Qed.

Lemma split_noSeparator s : noSeparator s = true → filepath.split s = [s].
Proof.
  induction s as [|c s IH]; [done|]. simpl.
  intros [Hc Hs]%andb_true_iff. apply negb_true_iff in Hc.
  by rewrite Hc, IH.
Qed.

Lemma Forall_split s : Forall (λ e, noSeparator e = true) (filepath.split s).
Proof.
  induction s as [|c s IH]; simpl; [by repeat constructor|].
  destruct (filepath.IsPathSeparator c) eqn:Hc; [by constructor|].
  destruct (filepath.split s) as [|e es].
  { constructor; [|done]. simpl. by rewrite Hc. }
  apply Forall_cons in IH as [He Hes]. constructor; [|done].
  simpl. by rewrite Hc, He.
Qed.

Lemma Join_split s : gostrings.Join (filepath.split s) "/" = s.
Proof.
  induction s as [|c s IH]; [done|]. simpl.
  destruct (filepath.IsPathSeparator c) eqn:Hc.
  - apply IsPathSeparator_true in Hc as ->.
    pose proof (split_nonempty s).
    destruct (filepath.split s) as [|e es]; [done|].
    change (gostrings.Join ("" :: e :: es) "/")
      with ("" +:+ "/" +:+ gostrings.Join (e :: es) "/").
    by rewrite IH.
  - pose proof (split_nonempty s).
    destruct (filepath.split s) as [|e es]; [done|].
    destruct es as [|e' es].
    + simpl in *. by rewrite IH.
    + change (gostrings.Join (String c e :: e' :: es) "/")
        with (String c e +:+ "/" +:+ gostrings.Join (e' :: es) "/").
      change (gostrings.Join (e :: e' :: es) "/")
        with (e +:+ "/" +:+ gostrings.Join (e' :: es) "/") in IH.
      by rewrite append_cons, IH.
Qed.

(** A path with a separator has at least two elements, the last one being
    what follows the last separator. *)
Lemma split_separator (a b : string) :
  noSeparator b = true →
  ∃ e init, filepath.split (a +:+ String "/" b) = e :: init ++ [b].
Proof.
  intros Hb. induction a as [|c a (e & init & IH)].
  - exists "", []. rewrite append_nil_l. simpl. by rewrite split_noSeparator.
  - rewrite append_cons. simpl. rewrite IH.
    destruct (filepath.IsPathSeparator c).
    + by exists "", (e :: init).
    + by exists (String c e), init.
Qed.

Lemma trimRightSeparators_noSeparator s :
  noSeparator s = true → filepath.trimRightSeparators s = s.
Proof.
  induction s as [|c s IH]; [done|]. simpl.
  intros [Hc Hs]%andb_true_iff. apply negb_true_iff in Hc.
  by rewrite Hc, IH.
Qed.

Lemma trimRightSeparators_last s :
  List.last (filepath.split s) "" ≠ "" → filepath.trimRightSeparators s = s.
Proof.
  induction s as [|c s IH]; [done|]. simpl.
  pose proof (split_nonempty s) as Hne.
  pose proof (Forall_split s) as Hall.
  pose proof (Join_split s) as Hjoin.
  destruct (filepath.IsPathSeparator c) eqn:Hc.
  - destruct (filepath.split s) as [|e es] eqn:Hsplit; [done|].
    intros Hlast. change (List.last ("" :: e :: es) "") with (List.last (e :: es) "") in Hlast.
    rewrite IH by done. simpl.
    rewrite bool_decide_eq_false_2; [done|].
    intros ->. simpl in Hsplit. injection Hsplit as <- <-. done.
  - destruct (filepath.split s) as [|e es] eqn:Hsplit; [done|].
    destruct es as [|e' es].
    + intros _. simpl in Hjoin. subst e.
      apply Forall_cons in Hall as [Hs _].
      by rewrite trimRightSeparators_noSeparator.
    + intros Hlast.
      change (List.last (String c e :: e' :: es) "")
        with (List.last (e :: e' :: es) "") in Hlast.
      by rewrite IH.
Qed.

Lemma Base_last path init last :
  filepath.split path = init ++ [last] → last ≠ "" → filepath.Base path = last.
Proof.
  intros Hsplit Hlast. unfold filepath.Base.
  assert (List.last (filepath.split path) "" = last) as Hl.
  { by rewrite Hsplit, last_last. }
  rewrite decide_False.
  2:{ intros ->. simpl in Hl. congruence. }
  rewrite trimRightSeparators_last by congruence.
  rewrite Hl. by rewrite decide_False.
Qed.

(** The last element of [pre ++ last] is [last] whenever [pre] is empty or
    ends with a separator. *)
Lemma Base_append pre last :
  last ≠ "" → noSeparator last = true →
  pre = "" ∨ (∃ pre', pre = pre' +:+ "/") →
  filepath.Base (pre +:+ last) = last.
Proof.
  intros Hne Hsep [->|[pre' ->]].
  - rewrite append_nil_l. apply (Base_last _ []); [|done].
    by apply split_noSeparator.
  - rewrite append_assoc.
    destruct (split_separator pre' last Hsep) as (e & init & Hsplit).
    by apply (Base_last _ (e :: init)).
Qed.

Lemma throughLastSeparator_noSeparator s :
  noSeparator s = true → filepath.throughLastSeparator s = "".
Proof.
  induction s as [|c s IH]; [done|]. simpl.
  intros [Hc Hs]%andb_true_iff. apply negb_true_iff in Hc.
  by rewrite Hc, IH.
Qed.

Lemma throughLastSeparator_append a b :
  noSeparator b = true →
  filepath.throughLastSeparator (a +:+ String "/" b) = a +:+ "/".
Proof.
  intros Hb. induction a as [|c a IH].
  - rewrite append_nil_l. simpl. by rewrite throughLastSeparator_noSeparator.
  - rewrite !append_cons. simpl. rewrite IH.
    rewrite (bool_decide_eq_false_2 (a +:+ "/" = "")).
    + by rewrite orb_true_r.
    + by destruct a.
Qed.

Lemma split_append_separator (a r : string) :
  noSeparator a = true →
  filepath.split (a +:+ String "/" r) = a :: filepath.split r.
Proof.
  induction a as [|c a IH]; [done|].
  intros [Hc Ha]%andb_true_iff. apply negb_true_iff in Hc.
  rewrite append_cons. simpl. by rewrite Hc, IH.
Qed.

Lemma split_Join (elems : list string) :
  elems ≠ [] → Forall (λ e, noSeparator e = true) elems →
  filepath.split (gostrings.Join elems "/") = elems.
Proof.
  induction elems as [|a elems IH]; [done|]. intros _ [Ha Hall]%Forall_cons.
  destruct elems as [|b elems]; [by apply split_noSeparator|].
  change (gostrings.Join (a :: b :: elems) "/")
    with (a +:+ String "/" (gostrings.Join (b :: elems) "/")).
  rewrite split_append_separator by done. by rewrite IH.
Qed.

Lemma cleanElem_proper rooted kept e :
  properElement e → filepath.cleanElem rooted kept e = e :: kept.
Proof.
  intros (H1 & H2 & H3). unfold filepath.cleanElem.
  rewrite decide_False by naive_solver. by rewrite decide_False.
Qed.

Lemma cleanElem_empty rooted kept : filepath.cleanElem rooted kept "" = kept.
Proof. unfold filepath.cleanElem. rewrite decide_True; auto. Qed.

(** The directory of a path whose last but one element is proper ends
    with that element. *)
Lemma Dir_ends init prev last :
  properElement prev → Forall (λ e, noSeparator e = true) (init ++ [prev; last]) →
  ∃ pre, (pre = "" ∨ ∃ pre', pre = pre' +:+ "/") ∧
         filepath.Dir (gostrings.Join (init ++ [prev; last]) "/") = pre +:+ prev.
Proof.
  intros Hprev Hall. unfold filepath.Dir.
  replace (init ++ [prev; last]) with ((init ++ [prev]) ++ [last]) in *
    by (by rewrite <-app_assoc).
  apply Forall_app in Hall as [Hinit [Hlast _]%Forall_cons].
  rewrite Join_snoc by (by destruct init).
  change ("/" +:+ last) with (String "/" last).
  rewrite throughLastSeparator_append by done.
  set (dir := gostrings.Join (init ++ [prev]) "/").
  assert (filepath.split (dir +:+ "/") = (init ++ [prev]) ++ [""]) as Hsplit.
  { rewrite <-(split_Join ((init ++ [prev]) ++ [""])).
    - rewrite Join_snoc by (by destruct init). done.
    - by destruct init.
    - apply Forall_app. split; [done|]. by repeat constructor. }
  unfold filepath.Clean.
  rewrite decide_False by (by intros ?%append_empty).
  rewrite Hsplit, !foldl_app. cbn [foldl].
  rewrite cleanElem_empty, cleanElem_proper by done.
  set (rooted := String.prefix "/" (dir +:+ "/")).
  set (kept := foldl (filepath.cleanElem rooted) [] init).
  set (root := if rooted then "/" else "").
  simpl rev.
  assert (∃ pre, (pre = "" ∨ ∃ pre', pre = pre' +:+ "/") ∧
            root +:+ gostrings.Join (rev kept ++ [prev]) "/" = pre +:+ prev)
    as (pre & Hpre & ->).
  { destruct (rev kept) as [|k ks] eqn:Hk.
    - exists root. split; [|done]. unfold root.
      destruct rooted; [right; by exists ""|by left].
    - rewrite Join_snoc by done.
      exists ((root +:+ gostrings.Join (k :: ks) "/") +:+ "/").
      split; [right; eauto|]. by rewrite !append_assoc. }
  exists pre. split; [done|].
  rewrite decide_False; [done|].
  intros Hout%append_empty. by destruct Hprev.
Qed.


(** ** The version suffixes of internal/resolver *)

Lemma isDigit_noDot c : resolver.isDigit c = true → Ascii.eqb c "." = false.
Proof.
  intros Hd. apply Ascii.eqb_neq. intros ->. by vm_compute in Hd.
Qed.

Lemma allDigits_noDot n : resolver.allDigits n = true → noDot n = true.
Proof.
  induction n as [|c n IH]; [done|]. simpl.
  intros [Hc Hn]%andb_true_iff. by rewrite (isDigit_noDot c Hc), IH.
Qed.

Lemma isVersionSuffix_bareVersion s :
  resolver.isVersionSuffix s = true ↔ bareVersion s.
Proof.
  unfold resolver.isVersionSuffix, bareVersion. split.
  - destruct s as [|c [|d n]]; [done| |].
    + simpl. by destruct (Ascii.eqb c "v").
    + destruct (Ascii.eqb_spec c "v") as [->|]; simpl; [|done].
      intros Hd. by exists (String d n).
  - intros (n & -> & Hn & Hd). destruct n as [|d n]; [done|].
    by rewrite Ascii.eqb_refl.
Qed.

Lemma prefix_cons a s1 b s2 :
  String.prefix (String a s1) (String b s2)
  = if ascii_dec a b then String.prefix s1 s2 else false.
Proof. done. Qed.

Lemma prefix_dot_v s :
  String.prefix ".v" s = true ↔ ∃ rest, s = String "." (String "v" rest).
Proof.
  split.
  - destruct s as [|c s]; [done|]. rewrite prefix_cons.
    destruct (ascii_dec "." c) as [<-|]; [|done].
    destruct s as [|d s]; [done|]. rewrite prefix_cons.
    destruct (ascii_dec "v" d) as [<-|]; [|done]. eauto.
  - intros [rest ->]. rewrite !prefix_cons.
    destruct (ascii_dec "." "."); [|done].
    destruct (ascii_dec "v" "v"); [|done]. by destruct rest.
Qed.

Lemma LastIndex_cons c s substr :
  gostrings.LastIndex (String c s) substr
  = match gostrings.LastIndex s substr with
    | Some i => Some (S i)
    | None => if String.prefix substr (String c s) then Some 0 else None
    end.
Proof. done. Qed.

Lemma LastIndex_noDot s : noDot s = true → gostrings.LastIndex s ".v" = None.
Proof.
  induction s as [|c s IH]; [done|]. rewrite LastIndex_cons. cbn [noDot].
  intros [Hc Hs]%andb_true_iff. rewrite IH by done.
  apply negb_true_iff, Ascii.eqb_neq in Hc.
  destruct (String.prefix ".v" (String c s)) eqn:Hp; [|done].
  apply prefix_dot_v in Hp as [rest [= -> _]]. done.
Qed.

Lemma LastIndex_dotVersion stem n :
  resolver.allDigits n = true →
  gostrings.LastIndex (stem +:+ ".v" +:+ n) ".v" = Some (String.length stem).
Proof.
  intros Hn. induction stem as [|c stem IH].
  - rewrite append_nil_l.
    change (".v" +:+ n) with (String "." (String "v" n)).
    rewrite LastIndex_cons, (LastIndex_noDot (String "v" n)).
    + assert (String.prefix ".v" (String "." (String "v" n)) = true) as ->; [|done].
      apply prefix_dot_v. eauto.
    + cbn [noDot]. by rewrite allDigits_noDot.
  - by rewrite append_cons, LastIndex_cons, IH.
Qed.

Lemma LastIndex_Some s i :
  gostrings.LastIndex s ".v" = Some i →
  ∃ stem rest, s = stem +:+ ".v" +:+ rest ∧ String.length stem = i.
Proof.
  revert i. induction s as [|c s IH]; intros i; [done|].
  rewrite LastIndex_cons.
  destruct (gostrings.LastIndex s ".v") as [j|].
  - intros [= <-]. destruct (IH j eq_refl) as (stem & rest & -> & <-).
    by exists (String c stem), rest.
  - destruct (String.prefix ".v" (String c s)) eqn:Hp; [|done].
    intros [= <-]. apply prefix_dot_v in Hp as [rest ->].
    by exists "", rest.
Qed.

Lemma versionSuffix_dotVersion stem n :
  n ≠ "" → resolver.allDigits n = true →
  resolver.versionSuffix (stem +:+ ".v" +:+ n) = ".v" +:+ n.
Proof.
  intros Hne Hn. unfold resolver.versionSuffix.
  rewrite LastIndex_dotVersion by done.
  replace (stem +:+ ".v" +:+ n) with ((stem +:+ ".") +:+ String "v" n)
    by (by rewrite append_assoc).
  replace (String.length stem + 1) with (String.length (stem +:+ "."))
    by (rewrite length_append; simpl; lia).
  rewrite sliceFrom_append.
  assert (resolver.isVersionSuffix (String "v" n) = true) as ->; [|done].
  apply isVersionSuffix_bareVersion. by exists n.
Qed.

Lemma versionSuffix_nonempty s :
  resolver.versionSuffix s ≠ "" → ∃ stem, dotVersion s stem.
Proof.
  unfold resolver.versionSuffix.
  destruct (gostrings.LastIndex s ".v") as [i|] eqn:Hi; [|done].
  apply LastIndex_Some in Hi as (stem & rest & -> & <-).
  replace (stem +:+ ".v" +:+ rest) with ((stem +:+ ".") +:+ String "v" rest)
    by (by rewrite append_assoc).
  replace (String.length stem + 1) with (String.length (stem +:+ "."))
    by (rewrite length_append; simpl; lia).
  rewrite sliceFrom_append.
  destruct (resolver.isVersionSuffix (String "v" rest)) eqn:Hv; [|done].
  intros _. apply isVersionSuffix_bareVersion in Hv as (n & [= <-] & Hne & Hn).
  exists stem, rest. by rewrite append_assoc.
Qed.

Lemma split_last_path path init last :
  filepath.split path = init ++ [last] →
  path = gostrings.Join (init ++ [last]) "/" ∧
  Forall (λ e, noSeparator e = true) (init ++ [last]).
Proof.
  intros Hsplit. rewrite <-Hsplit. split; [by rewrite Join_split|].
  apply Forall_split.
Qed.

(** ** Analyze *)

Lemma Analyze_Done_inv `{PackageNameResolver R} parsed (resolver : R) r :
  Analyze parsed resolver = Done r →
  ∃ byType ordered,
    indexProviders (ParseResult.Providers parsed) ∅ = inr byType ∧
    validateDeps (ParseResult.Providers parsed)
      (ParseResult.Invocations parsed) byType = None ∧
    topoSort (ParseResult.Providers parsed)
      (ParseResult.Invocations parsed) byType = Done ordered ∧
    Providers r = resolveVarNames ordered ∧
    Invocations r = ParseResult.Invocations parsed ∧
    Imports r = collectImports (resolveVarNames ordered)
                  (ParseResult.Invocations parsed)
                  (ParseResult.OutputImportPath parsed) resolver.
Proof.
  unfold Analyze.
  destruct (indexProviders _ _) as [e|byType] eqn:Hidx; [done|].
  destruct (validateDeps _ _ _) as [e|] eqn:Hval; [done|].
  destruct (topoSort _ _ _) as [ordered| |] eqn:Hsort; [|done..].
  intros [= <-]. exists byType, ordered. by split_and!.
Qed.

Lemma validateDeps_None providers invocations byType p dep :
  indexProviders providers ∅ = inr byType →
  validateDeps providers invocations byType = None →
  p ∈ providers → dep ∈ Provider.Dependencies p →
  TypeRef.Key (Dependency.Type_ dep) ∈ keys providers.
Proof.
  intros Hidx Hval Hp Hdep.
  rewrite (validateDeps_spec providers byType Hidx) in Hval. simpl in Hval.
  destruct (decide (TypeRef.Key (Dependency.Type_ dep) ∈ keys providers))
    as [|Hn]; [done|].
  assert (Provider.Name p +:+ " requires " +:+ TypeRef.Key (Dependency.Type_ dep)
          ∈ (providers ≫= unmetOfProvider providers)
            ++ (invocations ≫= unmetOfInvocation providers)) as Hin.
  { apply elem_of_app. left. apply list_elem_of_bind. exists p. split; [|done].
    unfold unmetOfProvider. apply list_elem_of_fmap. exists dep. split; [done|].
    by apply list_elem_of_filter. }
  destruct (_ ++ _); [by apply elem_of_nil in Hin|done].
Qed.

Lemma elem_of_resolveVarNames l P :
  P ∈ resolveVarNames l ↔ ∃ i P0, l !! i = Some P0 ∧
    P = disambiguated (occurrencesBefore l i (Provider.VarName P0)) P0.
Proof.
  rewrite resolveVarNames_imap, list_elem_of_lookup. split.
  - intros [i Hi]. rewrite list_lookup_imap in Hi.
    destruct (l !! i) as [P0|] eqn:HP0; [|done]. injection Hi as <-. eauto.
  - intros (i & P0 & Hi & ->). exists i. by rewrite list_lookup_imap, Hi.
Qed.

Lemma referenced_resolveVarNames ordered providers invocations path :
  ordered ≡ₚ providers →
  referenced (resolveVarNames ordered) invocations path ↔
  referenced providers invocations path.
Proof.
  intros Hperm. unfold referenced, referencedByProvider.
  split; (intros [(p & Hp & Href)|?]; [left|by right]).
  - apply elem_of_resolveVarNames in Hp as (i & P0 & Hi & ->).
    exists P0. split.
    + rewrite <-Hperm. apply list_elem_of_lookup. eauto.
    + by rewrite disambiguated_ImportPath, disambiguated_Dependencies in Href.
  - rewrite <-Hperm in Hp. apply list_elem_of_lookup in Hp as [i Hi].
    exists (disambiguated (occurrencesBefore ordered i (Provider.VarName p)) p).
    split.
    + apply elem_of_resolveVarNames. eauto.
    + by rewrite disambiguated_ImportPath, disambiguated_Dependencies.
Qed.


(** * The claims of the specification *)

(** C1 — topological validity.  Whenever [Analyze] succeeds, every
    dependency [D] declared by a provider [P] of the returned order has a
    provider of its key in that order, at an index strictly below the index
    of [P]; and any provider [Q] of the order whose key is the key of [D]
    sits strictly below [P]. *)
Theorem Analyze_topological `{PackageNameResolver R} parsed (resolver : R) r :
  Analyze parsed resolver = Done r → dependenciesFirst (Providers r).
Proof.
  intros (byType & ordered & Hidx & Hval & Hsort & Hprov & _)%Analyze_Done_inv.
  intros i P D Hi HD. rewrite Hprov in *.
  pose proof (topoSort_rearranges _ _ _ _ Hidx Hsort) as Hperm.
  pose proof (topoSort_topological _ _ _ _ Hidx Hsort) as [Hnd Htopo].
  pose proof Hi as (P0 & k & Hi0 & ->)%resolveVarNames_lookup.
  rewrite disambiguated_Dependencies in HD.
  assert (P0 ∈ ParseResult.Providers parsed) as HP0.
  { rewrite <-Hperm. apply list_elem_of_lookup. eauto. }
  pose proof (validateDeps_None _ _ _ _ _ Hidx Hval HP0 HD) as Hprovided.
  destruct (Htopo i P0 D Hi0 HD) as (j & Q0 & Hlt & Hj & Hk).
  { unfold keys. rewrite Hperm. exact Hprovided. }
  assert (keys (resolveVarNames ordered) !! j
          = Some (TypeRef.Key (Dependency.Type_ D))) as Hkj.
  { rewrite resolveVarNames_keys. unfold keys.
    by rewrite list_lookup_fmap, Hj, <-Hk. }
  split.
  - unfold keys in Hkj. rewrite list_lookup_fmap in Hkj.
    destruct (resolveVarNames ordered !! j) as [Q|] eqn:HQ; [|done].
    injection Hkj as Hkj. by exists j, Q.
  - intros j' Q' Hj' Hk'.
    assert (keys (resolveVarNames ordered) !! j'
            = Some (TypeRef.Key (Dependency.Type_ D))) as Hkj'.
    { unfold keys. by rewrite list_lookup_fmap, Hj', <-Hk'. }
    rewrite <-(resolveVarNames_keys ordered) in Hnd.
    by rewrite (NoDup_lookup _ _ _ _ Hnd Hkj' Hkj).
Qed.

(** The diamond of the specification: [D] comes before [B] and [C], and
    both before [A]. *)
Lemma Analyze_topological_diamond :
  Analyze diamond MockResolver = Done diamondResult ∧
  dependenciesFirst (Providers diamondResult).
Proof.
  assert (Analyze diamond MockResolver = Done diamondResult) as Hrun.
  { vm_compute. reflexivity. }
  split; [exact Hrun|].
  exact (Analyze_topological diamond MockResolver diamondResult Hrun).
Defined.

(** C8 — the order is a permutation of the input.  When the index build
    of [Analyze] has succeeded and [topoSort] returns an order, that order
    holds every provider of the input exactly once and nothing else. *)
Theorem topoSort_permutation parsed byType ordered :
  indexProviders (ParseResult.Providers parsed) ∅ = inr byType →
  topoSort (ParseResult.Providers parsed) (ParseResult.Invocations parsed)
    byType = Done ordered →
  ordered ≡ₚ ParseResult.Providers parsed ∧ NoDup ordered.
Proof.
  intros Hidx Hsort.
  pose proof (topoSort_rearranges _ _ _ _ Hidx Hsort) as Hperm.
  split; [done|].
  apply indexProviders_lookup in Hidx as [Hnd _].
  rewrite Hperm. by eapply NoDup_fmap_1.
Qed.

(** [D] is reached through the invocation [Run] only after [A], [B] and
    [C] were entered, and is the first to be emitted. *)
Lemma topoSort_permutation_diamond :
  (∃ byType,
     indexProviders (ParseResult.Providers diamond) ∅ = inr byType ∧
     topoSort (ParseResult.Providers diamond) (ParseResult.Invocations diamond)
       byType = Done (Providers diamondResult)) ∧
  Providers diamondResult ≡ₚ ParseResult.Providers diamond ∧
  NoDup (Providers diamondResult).
Proof.
  destruct (indexProviders (ParseResult.Providers diamond) ∅)
    as [e|byType] eqn:Hidx; [by vm_compute in Hidx|].
  assert (topoSort (ParseResult.Providers diamond)
            (ParseResult.Invocations diamond) byType
          = Done (Providers diamondResult)) as Hsort.
  { vm_compute in Hidx. injection Hidx as <-. vm_compute. reflexivity. }
  split; [by exists byType|].
  exact (topoSort_permutation diamond byType _ Hidx Hsort).
Defined.


Lemma leadIn_hasCycle : hasCycle (ParseResult.Providers leadIn).
Proof.
  exists "pkg.B". apply tc_once.
  exists (providerOf "pkg" "B" "b" [typeOf "pkg" "B"]),
         (Dependency.mk "" (typeOf "pkg" "B")).
  split_and!; [|done| |done].
  - apply list_elem_of_In. simpl. auto.
  - apply list_elem_of_In. simpl. auto.
Defined.



(** C3 — missing dependencies are aggregated.  Over providers with
    pairwise distinct keys: if some provider dependency or some invocation
    requirement has a key that no provider provides, [Analyze] fails with
    one missing-dependency error whose list is [unmetReferences]: one entry
    [requester requires key] for every unmet reference, the providers'
    first, in declaration order; if every provider dependency and every
    invocation requirement is provided, the completeness check passes. *)
Theorem Analyze_missing `{PackageNameResolver R} parsed (resolver : R) :
  NoDup (keys (ParseResult.Providers parsed)) →
  (((∃ p dep, unmetProviderDep parsed p dep) ∨
    (∃ inv dep, unmetInvocationDep parsed inv dep)) →
   Analyze parsed resolver = Fail (ErrMissing (unmetReferences parsed)) ∧
   (∀ p dep, unmetProviderDep parsed p dep →
      Provider.Name p +:+ " requires " +:+ TypeRef.Key (Dependency.Type_ dep)
      ∈ unmetReferences parsed) ∧
   (∀ inv dep, unmetInvocationDep parsed inv dep →
      Invocation.Name inv +:+ " requires " +:+ TypeRef.Key dep
      ∈ unmetReferences parsed)) ∧
  ((∀ p dep, p ∈ ParseResult.Providers parsed →
      dep ∈ Provider.Dependencies p →
      TypeRef.Key (Dependency.Type_ dep) ∈ keys (ParseResult.Providers parsed)) →
   (∀ inv dep, inv ∈ ParseResult.Invocations parsed →
      dep ∈ Invocation.Dependencies inv →
      TypeRef.Key dep ∈ keys (ParseResult.Providers parsed)) →
   ∃ byType,
     indexProviders (ParseResult.Providers parsed) ∅ = inr byType ∧
     validateDeps (ParseResult.Providers parsed)
       (ParseResult.Invocations parsed) byType = None).
Proof.
  intros Hnd. destruct (indexProviders_nodup _ Hnd) as [byType Hidx].
  pose proof (validateDeps_spec _ byType Hidx (ParseResult.Invocations parsed))
    as Hval.
  simpl in Hval. fold (unmetReferences parsed) in Hval.
  split.
  - intros Hunmet.
    assert (∃ entry, entry ∈ unmetReferences parsed) as [entry Hentry].
    { destruct Hunmet as [(p & dep & Hu)|(inv & dep & Hu)];
        eexists; apply elem_of_unmetReferences; [left|right]; eauto. }
    split_and!.
    + unfold Analyze. rewrite Hidx, Hval.
      destruct (unmetReferences parsed); [by apply elem_of_nil in Hentry|done].
    + intros p dep Hu. apply elem_of_unmetReferences. left. eauto.
    + intros inv dep Hu. apply elem_of_unmetReferences. right. eauto.
  - intros Hprov Hinv. exists byType. split; [done|]. rewrite Hval.
    destruct (unmetReferences parsed) as [|entry rest] eqn:Hrefs; [done|].
    assert (entry ∈ unmetReferences parsed) as Hentry by (rewrite Hrefs; left).
    apply elem_of_unmetReferences in Hentry
      as [(p & dep & (Hp & Hdep & Hn) & _)|(inv & dep & (Hi & Hdep & Hn) & _)].
    + destruct Hn. by eapply Hprov.
    + destruct Hn. by eapply Hinv.
Qed.

(** The scenario of the specification: two unmet dependencies of one
    provider and one of an invocation give one error listing all three. *)
Lemma Analyze_missing_three :
  unmetReferences threeMissing
  = [ "Service requires pkg.Config"; "Service requires pkg.Database";
      "Setup requires pkg.Logger" ] ∧
  Analyze threeMissing MockResolver
  = Fail (ErrMissing (unmetReferences threeMissing)).
Proof.
  split; [by vm_compute|].
  assert (NoDup (keys (ParseResult.Providers threeMissing))) as Hnd.
  { vm_compute. apply NoDup_singleton. }
  apply (Analyze_missing threeMissing MockResolver Hnd).
  right. exists (Invocation.mk "Setup" [typeOf "pkg" "Logger"] false "pkg"),
                (typeOf "pkg" "Logger").
  split_and!.
  - apply list_elem_of_In. simpl. auto.
  - apply list_elem_of_In. simpl. auto.
  - intros Hin%list_elem_of_In. vm_compute in Hin. by destruct Hin as [[=]|[]].
Defined.

(** C4 — duplicate providers.  If two providers of the input, at
    positions [i < j], share a key, [Analyze] fails with a
    duplicate-provider error and returns no result; the error carries the
    shared key and the names of the first conflicting pair in declaration
    order: the earliest provider [Q'] whose key was already indexed, and
    the provider [P'] before it that holds that key. *)
Theorem Analyze_duplicate `{PackageNameResolver R} parsed (resolver : R)
    i j P Q :
  i < j →
  ParseResult.Providers parsed !! i = Some P →
  ParseResult.Providers parsed !! j = Some Q →
  Provider.key P = Provider.key Q →
  ∃ i' j' P' Q',
    i' < j' ≤ j ∧
    ParseResult.Providers parsed !! i' = Some P' ∧
    ParseResult.Providers parsed !! j' = Some Q' ∧
    Provider.key P' = Provider.key Q' ∧
    NoDup (keys (take j' (ParseResult.Providers parsed))) ∧
    Analyze parsed resolver
    = Fail (ErrDuplicate (Provider.key Q') (Provider.Name P') (Provider.Name Q')).
Proof.
  intros Hlt Hi Hj Hk.
  destruct (indexProviders_dup (ParseResult.Providers parsed)) as [e He].
  { intros Hnd. pose proof (NoDup_keys_lookup _ _ _ _ _ Hnd Hi Hj Hk). lia. }
  pose proof He as (j' & Q' & P' & Hj' & Hnd & _ & -> & Hwhere)%indexProviders_inl.
  destruct Hwhere as [Hempty|(i' & Hlt' & Hi' & Hk')].
  { by rewrite lookup_empty in Hempty. }
  exists i', j', P', Q'. split_and!; [done| |done..|].
  - destruct (decide (j' ≤ j)) as [|Hgt]; [done|].
    assert (take j' (ParseResult.Providers parsed) !! i = Some P) as Hi2.
    { apply lookup_take_Some. split; [done|lia]. }
    assert (take j' (ParseResult.Providers parsed) !! j = Some Q) as Hj2.
    { apply lookup_take_Some. split; [done|lia]. }
    pose proof (NoDup_keys_lookup _ _ _ _ _ Hnd Hi2 Hj2 Hk). lia.
  - unfold Analyze. by rewrite He.
Qed.

(** [TestAnalyze_DuplicateProvider]. *)
Lemma Analyze_duplicate_twoConfigs :
  ∃ i' j' P' Q',
    i' < j' ≤ 1 ∧
    ParseResult.Providers twoConfigs !! i' = Some P' ∧
    ParseResult.Providers twoConfigs !! j' = Some Q' ∧
    Provider.key P' = Provider.key Q' ∧
    NoDup (keys (take j' (ParseResult.Providers twoConfigs))) ∧
    Analyze twoConfigs MockResolver
    = Fail (ErrDuplicate (Provider.key Q') (Provider.Name P') (Provider.Name Q')).
Proof.
  eapply (Analyze_duplicate twoConfigs MockResolver 0 1);
    [lia|reflexivity|reflexivity|reflexivity].
Defined.

(** C5 — the generated names are not always distinct.  With the base
    names [cfg], [cfg], [cfg1] the second provider is renamed to [cfg1],
    the name the third one keeps. *)
Lemma Analyze_cfgNames_collide :
  ∃ r, Analyze cfgNames MockResolver = Done r ∧
       Provider.Name <$> Providers r = ["Cfg"; "Cfg"; "Cfg1"] ∧
       Provider.VarName <$> Providers r = ["cfg"; "cfg1"; "cfg1"].
Proof. eexists. split; [vm_compute; reflexivity|]. by vm_compute. Qed.

(** C6 — name disambiguation.  [resolveVarNames] walks the order once: the
    provider at index [i] keeps its base name when no earlier provider
    carries it, and gets the base name followed by [k] when [k > 0]
    earlier providers carry it; three providers named [cfg] become [cfg],
    [cfg1], [cfg2].  [Analyze] applies it to the order [topoSort]
    returned. *)
Theorem resolveVarNames_suffixes `{PackageNameResolver R} (resolver : R) :
  (∀ l, resolveVarNames l
        = imap (λ i p, disambiguated
                         (occurrencesBefore l i (Provider.VarName p)) p) l) ∧
  Provider.VarName
    <$> resolveVarNames [ providerOf "pkg/a" "Cfg" "cfg" [];
                          providerOf "pkg/b" "Cfg" "cfg" [];
                          providerOf "pkg/c" "Cfg" "cfg" [] ]
  = ["cfg"; "cfg1"; "cfg2"] ∧
  (∀ parsed,
     match Analyze parsed resolver with
     | Done r =>
         ∃ byType ordered,
           topoSort (ParseResult.Providers parsed)
             (ParseResult.Invocations parsed) byType = Done ordered ∧
           Providers r = resolveVarNames ordered
     | _ => True
     end).
Proof.
  split_and!.
  - apply resolveVarNames_imap.
  - by vm_compute.
  - intros parsed.
    destruct (Analyze parsed resolver) as [r| |] eqn:Hrun; [|done..].
    apply Analyze_Done_inv in Hrun
      as (byType & ordered & _ & _ & Hsort & Hprov & _).
    by exists byType, ordered.
Qed.



(** C9 — the keys of the import map.  A path is a key of the map
    [collectImports] returns exactly when it is the namespace of a
    provider, of a provider's dependency, of an invocation or of an
    invocation's required type, is not empty and is not the output path;
    the map of a successful [Analyze] has these keys for the providers and
    invocations of its input. *)
Theorem collectImports_keys `{PackageNameResolver R} (resolver : R) :
  (∀ providers invocations outputPath path,
     path ∈ dom (collectImports providers invocations outputPath resolver) ↔
     referenced providers invocations path ∧ path ≠ "" ∧ path ≠ outputPath) ∧
  (∀ parsed path,
     match Analyze parsed resolver with
     | Done r =>
         path ∈ dom (Imports r) ↔
         referenced (ParseResult.Providers parsed)
           (ParseResult.Invocations parsed) path ∧
         path ≠ "" ∧ path ≠ ParseResult.OutputImportPath parsed
     | _ => True
     end).
Proof.
  split.
  - intros. apply collectImports_dom.
  - intros parsed path.
    destruct (Analyze parsed resolver) as [r| |] eqn:Hrun; [|done..].
    apply Analyze_Done_inv in Hrun
      as (byType & ordered & Hidx & _ & Hsort & _ & _ & ->).
    rewrite collectImports_dom.
    rewrite (referenced_resolveVarNames ordered (ParseResult.Providers parsed));
      [done|].
    by eapply topoSort_rearranges.
Qed.

(** C10 — the syntactic fallback.  [fallbackName] is a total function.
    For a path whose last element [last] is not empty: if [last] is a bare
    version ([v] and one or more digits), the result is the element before
    it, when there is one and it is a proper element (not empty, [.] or
    [..]); otherwise, if [last] is [stem] followed by [.vN], the result is
    [stem]; otherwise the result is [last]. *)
Theorem fallbackName_strips_version path init last :
  filepath.split path = init ++ [last] → last ≠ "" →
  (bareVersion last →
   ∀ init' prev, init = init' ++ [prev] → properElement prev →
     resolver.fallbackName path = prev) ∧
  (¬ bareVersion last →
   ∀ stem, dotVersion last stem → resolver.fallbackName path = stem) ∧
  (¬ bareVersion last → (∀ stem, ¬ dotVersion last stem) →
   resolver.fallbackName path = last).
Proof.
  intros Hsplit Hlast.
  pose proof (Base_last path init last Hsplit Hlast) as Hbase.
  unfold resolver.fallbackName. rewrite Hbase.
  split_and!.
  - intros Hbare%isVersionSuffix_bareVersion init' prev -> Hprev.
    rewrite Hbare.
    apply split_last_path in Hsplit as [-> Hall].
    rewrite <-app_assoc in *. simpl in *.
    destruct (Dir_ends init' prev last Hprev Hall) as (pre & Hpre & ->).
    apply Base_append; [by destruct Hprev| |done].
    apply Forall_app in Hall as [_ Hall]. by apply Forall_cons in Hall as [? _].
  - intros Hbare stem (n & -> & Hne & Hn).
    destruct (resolver.isVersionSuffix _) eqn:Hv.
    { by apply isVersionSuffix_bareVersion in Hv. }
    rewrite versionSuffix_dotVersion by done.
    by rewrite CutSuffix_append.
  - intros Hbare Hnone.
    destruct (resolver.isVersionSuffix _) eqn:Hv.
    { by apply isVersionSuffix_bareVersion in Hv. }
    destruct (decide (resolver.versionSuffix last = "")) as [->|Hsuffix].
    + by rewrite CutSuffix_empty.
    + apply versionSuffix_nonempty in Hsuffix as [stem Hstem].
      by destruct (Hnone stem).
Qed.

Lemma dotVersion_versionSuffix s stem :
  dotVersion s stem → resolver.versionSuffix s ≠ "".
Proof.
  intros (n & -> & Hne & Hn). by rewrite versionSuffix_dotVersion.
Qed.

(** Three rows of [TestFallbackName], one for each case. *)
Lemma fallbackName_strips_version_rows :
  resolver.fallbackName "github.com/example/pkg/v2" = "pkg" ∧
  resolver.fallbackName "gopkg.in/yaml.v3" = "yaml" ∧
  resolver.fallbackName "github.com/example/pkg" = "pkg".
Proof.
  split_and!.
  - assert ("v2" ≠ "") as Hlast by done.
    destruct (fallbackName_strips_version "github.com/example/pkg/v2"
                ["github.com"; "example"; "pkg"] "v2" eq_refl Hlast)
      as (Hbare & _ & _).
    assert (bareVersion "v2") as Hv2 by (by exists "2").
    apply (Hbare Hv2 ["github.com"; "example"] "pkg" eq_refl).
    by split_and!.
  - assert ("yaml.v3" ≠ "") as Hlast by done.
    destruct (fallbackName_strips_version "gopkg.in/yaml.v3" ["gopkg.in"]
                "yaml.v3" eq_refl Hlast) as (_ & Hdot & _).
    apply Hdot; [|by exists "3"].
    intros Hbare%isVersionSuffix_bareVersion. by vm_compute in Hbare.
  - assert ("pkg" ≠ "") as Hlast by done.
    destruct (fallbackName_strips_version "github.com/example/pkg"
                ["github.com"; "example"] "pkg" eq_refl Hlast) as (_ & _ & Hplain).
    apply Hplain.
    + intros Hbare%isVersionSuffix_bareVersion. by vm_compute in Hbare.
    + intros stem Hdot%dotVersion_versionSuffix. by vm_compute in Hdot.
Defined.

(** A path that is nothing but a bare version has no element before it;
    the directory is then [.], and so is the result. *)
Lemma fallbackName_lone_version : resolver.fallbackName "v2" = ".".
Proof. by vm_compute. Qed.

(** ** The tables of the repository's tests *)

Example TestFallbackName :
  resolver.fallbackName <$>
    [ "github.com/example/pkg/v2"; "github.com/example/pkg/v10";
      "github.com/labstack/echo/v4"; "github.com/go-chi/chi/v5";
      "github.com/example/pkg"; "fmt"; "gopkg.in/yaml.v3";
      "gopkg.in/check.v1"; "github.com/example/v";
      "github.com/example/foo.v2.bar" ]
  = [ "pkg"; "pkg"; "echo"; "chi"; "pkg"; "fmt"; "yaml"; "check"; "v";
      "foo.v2.bar" ].
Proof. by vm_compute. Qed.

Example TestIsVersionSuffix :
  resolver.isVersionSuffix <$> ["v2"; "v10"; "v0"; "v"; "va"; "2v"; ""]
  = [true; true; true; false; false; false; false].
Proof. by vm_compute. Qed.

Example TestVersionSuffix :
  resolver.versionSuffix
    <$> ["yaml.v3"; "check.v1"; "pkg.v10"; "pkg"; "pkg.va"; "foo.v2.bar"]
  = [".v3"; ".v1"; ".v10"; ""; ""; ""].
Proof. by vm_compute. Qed.

Example TestTypeRef_Key :
  TypeRef.Key <$>
    [ TypeRef.mk "Foo" "" false; TypeRef.mk "Foo" "" true;
      TypeRef.mk "Foo" "pkg/bar" false; TypeRef.mk "Foo" "pkg/bar" true ]
  = ["Foo"; "*Foo"; "pkg/bar.Foo"; "*pkg/bar.Foo"].
Proof. by vm_compute. Qed.

Example TestResolveVarNames :
  (λ names, Provider.VarName
              <$> resolveVarNames ((λ name, providerOf "pkg" "T" name []) <$> names))
    <$> [ ["a"; "b"; "c"]; ["config"; "config"]; ["cfg"; "cfg"; "cfg"];
          ["a"; "b"; "a"; "c"; "a"]; [] ]
  = [ ["a"; "b"; "c"]; ["config"; "config1"]; ["cfg"; "cfg1"; "cfg2"];
      ["a"; "b"; "a1"; "c"; "a2"]; [] ].
Proof. by vm_compute. Qed.

Example TestResolveImportAliases :
  resolveImportAliases {[ "pkg/http"; "other/http" ]} MockResolver
  = list_to_map [("other/http", ""); ("pkg/http", "http1")] ∧
  resolveImportAliases {[ "a/foo"; "b/foo"; "c/foo" ]} MockResolver
  = list_to_map [("a/foo", ""); ("b/foo", "foo1"); ("c/foo", "foo2")].
Proof. split; by vm_compute. Qed.

(** ** Further properties *)

Lemma occurrencesBefore_lt l i j p base :
  i < j → l !! i = Some p → Provider.VarName p = base →
  occurrencesBefore l i base < occurrencesBefore l j base.
Proof.
  intros Hlt Hi Hp. unfold occurrencesBefore.
  destruct (decide (j ≤ length l)) as [Hj|Hj].
  - assert (take i (take j l) ++ p :: drop (S i) (take j l) = take j l) as Hmid.
    { apply take_drop_middle, lookup_take_Some. split; [done|lia]. }
    rewrite take_take, Nat.min_l in Hmid by lia. rewrite <-Hmid.
    rewrite filter_app, filter_cons, decide_True by done.
    rewrite length_app. simpl. lia.
  - rewrite (take_ge l j) by lia.
    rewrite <-(take_drop_middle l i p Hi) at 2.
    rewrite filter_app, filter_cons, decide_True by done.
    rewrite length_app. simpl. lia.
Qed.

(** Providers that share a base name end up with different names. *)
Lemma resolveVarNames_distinct_within_base l i j p q P Q :
  i ≠ j → l !! i = Some p → l !! j = Some q →
  Provider.VarName p = Provider.VarName q →
  resolveVarNames l !! i = Some P → resolveVarNames l !! j = Some Q →
  Provider.VarName P ≠ Provider.VarName Q.
Proof.
  intros Hne Hi Hj Hbase. rewrite resolveVarNames_imap, !list_lookup_imap, Hi, Hj.
  simpl. intros [= <-] [= <-]. rewrite <-Hbase.
  assert (occurrencesBefore l i (Provider.VarName p)
          ≠ occurrencesBefore l j (Provider.VarName p)) as Hocc.
  { destruct (decide (i < j)).
    - pose proof (occurrencesBefore_lt l i j p _ ltac:(done) Hi eq_refl). lia.
    - pose proof (occurrencesBefore_lt l j i q (Provider.VarName p)
                    ltac:(lia) Hj (eq_sym Hbase)). lia. }
  revert Hocc.
  generalize (occurrencesBefore l i (Provider.VarName p)) as k1.
  generalize (occurrencesBefore l j (Provider.VarName p)) as k2.
  intros k2 k1 Hk. unfold disambiguated.
  destruct (decide (k1 = 0)) as [->|H1], (decide (k2 = 0)) as [->|H2];
    simpl; rewrite <-?Hbase.
  - done.
  - rewrite <-(append_nil_r (Provider.VarName p)) at 1.
    intros Heq%(inj (String.app _)). symmetry in Heq.
    by apply pretty_nat_nonempty in Heq.
  - rewrite <-(append_nil_r (Provider.VarName p)) at 2.
    intros Heq%(inj (String.app _)). by apply pretty_nat_nonempty in Heq.
  - intros Heq%(inj (String.app _)). by apply (inj pretty) in Heq.
Qed.

Lemma resolveVarNames_distinct_within_base_cfg :
  Provider.VarName (providerOf "pkg/a" "Cfg" "cfg" [])
  = Provider.VarName (providerOf "pkg/b" "Cfg" "cfg" []) ∧
  Provider.VarName (providerOf "pkg/a" "Cfg" "cfg" [])
  ≠ Provider.VarName
      (Provider.setVarName (providerOf "pkg/b" "Cfg" "cfg" []) "cfg1").
Proof.
  split; [done|].
  apply (resolveVarNames_distinct_within_base
           (ParseResult.Providers cfgNames) 0 1
           (providerOf "pkg/a" "Cfg" "cfg" [])
           (providerOf "pkg/b" "Cfg" "cfg" [])); [lia|done..].
Defined.

(** ** The reported cycle *)

Lemma linked_nil R : linked R [].
Proof. intros i a b Hi. by rewrite lookup_nil in Hi. Qed.

Lemma linked_snoc R l x :
  linked R l → (∀ k, last l = Some k → R k x) → linked R (l ++ [x]).
Proof.
  intros Hl Hlast i a b Ha Hb.
  apply lookup_snoc_Some in Hb as [[Hlt Hb]|[Hlen ->]].
  - apply (Hl i a b); [|done]. rewrite lookup_app_l in Ha; [done|lia].
  - rewrite lookup_app_l in Ha by lia. apply Hlast.
    rewrite last_lookup. by replace (pred (length l)) with i by lia.
Qed.

Lemma linked_app_r R l1 l2 : linked R (l1 ++ l2) → linked R l2.
Proof.
  intros Hl i a b Ha Hb. apply (Hl (length l1 + i) a b).
  - by rewrite lookup_app_r, Nat.add_comm, Nat.add_sub by lia.
  - replace (S (length l1 + i)) with (length l1 + S i) by lia.
    by rewrite lookup_app_r, Nat.add_comm, Nat.add_sub by lia.
Qed.

Lemma linked_impl (R1 R2 : string → string → Prop) l :
  (∀ a b, R1 a b → R2 a b) → linked R1 l → linked R2 l.
Proof. intros HR Hl i a b Ha Hb. eauto. Qed.

Lemma linked_tc R a l b : linked R (a :: l ++ [b]) → tc R a b.
Proof.
  revert a. induction l as [|x l IH]; intros a Hl.
  - apply tc_once. by apply (Hl 0 a b).
  - eapply tc_l; [by apply (Hl 0 a x)|].
    apply IH. by apply (linked_app_r R [a]).
Qed.

Lemma reportOf_tc R c : reportOf R c → ∃ k, tc R k k.
Proof.
  intros (stack & k & -> & _ & Hk & Hl).
  apply list_elem_of_split in Hk as (pre & mid & ->).
  exists k. apply (linked_tc R k mid k).
  rewrite <-app_assoc in Hl. by apply linked_app_r in Hl.
Qed.

Section report.
Context (byType : gmap string Provider.t).
Context (universe : list string) (known : Provider.t → Prop).
Hypothesis known_byType : ∀ k q, byType !! k = Some q → known q.
Hypothesis known_universe : ∀ q, known q → Provider.key q ∈ universe.

Local Abbreviation dfsInv := (dfsInv byType universe known).
Local Abbreviation visitOk := (visitOk byType universe known).
Local Abbreviation step := (stepBy byType known).

(** The provider [p] has a dependency that [byType] resolves to [q]. *)
Local Abbreviation requires p q :=
  (∃ dep, dep ∈ Provider.Dependencies p ∧
          byType !! TypeRef.Key (Dependency.Type_ dep) = Some q).

Lemma visitDeps_report rec p deps path st c :
  (∀ q st, dfsInv path st → known q → visitOk path st q (rec q path st)) →
  (∀ q st c, dfsInv path st → requires p q →
     rec q path st = Fail (ErrCycle c) → reportOf step c) →
  dfsInv path st →
  (∀ dep, dep ∈ deps → dep ∈ Provider.Dependencies p) →
  visitDeps rec byType deps path st = Fail (ErrCycle c) → reportOf step c.
Proof.
  intros Hok Hfail. revert st.
  induction deps as [|dep deps IH]; intros st Hinv Hsub; simpl; [done|].
  destruct (byType !! TypeRef.Key (Dependency.Type_ dep)) as [q|] eqn:Hq.
  - pose proof (Hok q st Hinv (known_byType _ _ Hq)) as Hq_ok.
    destruct (rec q path st) as [st1|e|] eqn:Hrec; simpl in Hq_ok; [| |done].
    + destruct Hq_ok as (Hinv1 & _). apply IH; [done|].
      intros d Hd. apply Hsub. by right.
    + intros [= ->]. apply (Hfail q st c Hinv); [|done].
      exists dep. split; [|done]. apply Hsub. by left.
  - apply IH; [done|]. intros d Hd. apply Hsub. by right.
Qed.

Lemma visit_report fuel p path st c :
  dfsInv path st → known p → length universe < fuel + length path →
  linked step path → (∀ k, last path = Some k → step k (Provider.key p)) →
  visit fuel byType p path st = Fail (ErrCycle c) → reportOf step c.
Proof.
  revert p path st c.
  induction fuel as [|fuel IH]; intros p path st c Hinv Hk Hfuel Hl Hlast;
    [done|].
  simpl.
  destruct (flag (inStack st) (Provider.key p)) eqn:Hs.
  { intros [= <-]. exists path, (Provider.key p). split_and!; [done| | |].
    - by destruct Hinv.
    - by apply (inv_stack _ _ _ _ _ Hinv).
    - by apply linked_snoc. }
  destruct (flag (visited st) (Provider.key p)) eqn:Hv; [done|].
  pose proof (dfsInv_push byType universe known _ _ _ Hinv
                (known_universe _ Hk) Hs Hv) as Hinv1.
  destruct (visitDeps _ _ _ _ _) as [st2|e|] eqn:Hdeps; [done| |done].
  intros [= ->].
  apply (visitDeps_report (visit fuel byType) p (Provider.Dependencies p)
           (path ++ [Provider.key p]) _ c) in Hdeps; [done| | |done|done].
  - intros q st' Hi Hq. apply visit_ok; [done..|].
    rewrite length_app. simpl. lia.
  - intros q st' c' Hi (dep & Hdep & Hq) Hrun.
    apply (IH q (path ++ [Provider.key p]) st' c' Hi (known_byType _ _ Hq));
      [rewrite length_app; simpl; lia| | |done].
    + by apply linked_snoc.
    + rewrite last_snoc. intros k [= <-]. by exists p, dep, q.
Qed.

Section roots.
Context (rec : Provider.t → list string → dfs → outcome dfs).
Hypothesis rec_ok : ∀ p st,
  dfsInv [] st → known p → visitOk [] st p (rec p [] st).
Hypothesis rec_report : ∀ p st c,
  dfsInv [] st → known p → rec p [] st = Fail (ErrCycle c) → reportOf step c.

Lemma visitInvocationDeps_report deps st c :
  dfsInv [] st →
  visitInvocationDeps rec byType deps st = Fail (ErrCycle c) →
  reportOf step c.
Proof.
  revert st. induction deps as [|dep deps IH]; intros st Hinv; simpl; [done|].
  destruct (byType !! TypeRef.Key dep) as [q|] eqn:Hq; [|by apply IH].
  pose proof (rec_ok q st Hinv (known_byType _ _ Hq)) as Hq_ok.
  destruct (rec q [] st) as [st1|e|] eqn:Hrec; simpl in Hq_ok; [| |done].
  - destruct Hq_ok as (Hinv1 & _). by apply IH.
  - intros [= ->]. by apply (rec_report q st c Hinv (known_byType _ _ Hq)).
Qed.

Lemma visitInvocations_report invocations st c :
  dfsInv [] st →
  visitInvocations rec byType invocations st = Fail (ErrCycle c) →
  reportOf step c.
Proof.
  revert st. induction invocations as [|inv invs IH]; intros st Hinv; simpl;
    [done|].
  pose proof (visitInvocationDeps_ok byType universe known known_byType
                rec rec_ok (Invocation.Dependencies inv) st Hinv) as Hdeps.
  destruct (visitInvocationDeps _ _ _ _) as [st1|e|] eqn:Hrun;
    simpl in Hdeps; [| |done].
  - destruct Hdeps as (Hinv1 & _). by apply IH.
  - intros [= ->]. by eapply visitInvocationDeps_report.
Qed.

Lemma visitProviders_report providers st c :
  dfsInv [] st → (∀ p, p ∈ providers → known p) →
  visitProviders rec providers st = Fail (ErrCycle c) → reportOf step c.
Proof.
  revert st. induction providers as [|p ps IH]; intros st Hinv Hknown; simpl;
    [done|].
  pose proof (rec_ok p st Hinv (Hknown p ltac:(left))) as Hp_ok.
  destruct (rec p [] st) as [st1|e|] eqn:Hrec; simpl in Hp_ok; [| |done].
  - destruct Hp_ok as (Hinv1 & _). apply IH; [done|].
    intros q Hq. apply Hknown. by right.
  - intros [= ->]. apply (rec_report p st c Hinv); [|done].
    apply Hknown. by left.
Qed.
End roots.
End report.

Lemma topoSort_report providers invocations byType c :
  topoSort providers invocations byType = Fail (ErrCycle c) →
  reportOf (stepBy byType (reachable providers byType)) c.
Proof.
  unfold topoSort.
  set (universe := keys providers ++ keys (map_to_list byType).*2).
  set (known := reachable providers byType).
  assert (∀ k q, byType !! k = Some q → known q) as Hkb.
  { intros k q Hq. right. eauto. }
  assert (∀ q, known q → Provider.key q ∈ universe) as Hku.
  { apply reachable_universe. }
  assert (length universe < visitDepth providers byType + 0) as Hfuel.
  { unfold universe, visitDepth. rewrite size_universe. lia. }
  set (rec := visit (visitDepth providers byType) byType).
  assert (∀ p st, dfsInv byType universe known [] st → known p →
            visitOk byType universe known [] st p (rec p [] st)) as Hrec.
  { intros p st Hinv Hp. by apply visit_ok. }
  assert (∀ p st c, dfsInv byType universe known [] st → known p →
            rec p [] st = Fail (ErrCycle c) →
            reportOf (stepBy byType known) c) as Hrep.
  { intros p st c' Hinv Hp. by apply (visit_report byType universe known). }
  clearbody rec.
  pose proof (visitInvocations_ok byType universe known Hkb rec Hrec
                invocations _ (dfsInv_init byType universe known)) as H1.
  destruct (visitInvocations _ _ _ _) as [st1|e|] eqn:Hinvs; simpl in H1;
    [| |done].
  - destruct H1 as (Hinv1 & _ & _).
    destruct (visitProviders _ _ _) as [st2|e|] eqn:Hprov; [done| |done].
    intros [= ->].
    apply (visitProviders_report byType universe known rec Hrec Hrep
             providers st1 c Hinv1); [|done].
    intros p Hp. by left.
  - intros [= ->].
    by apply (visitInvocations_report byType universe known Hkb rec Hrec Hrep
                invocations _ c (dfsInv_init byType universe known)).
Qed.

Lemma stepBy_dependsOn providers byType k1 k2 :
  indexProviders providers ∅ = inr byType →
  stepBy byType (reachable providers byType) k1 k2 →
  dependsOn providers k1 k2.
Proof.
  intros [_ Hlook]%indexProviders_lookup (p & dep & q & Hp & <- & Hdep & Hq & <-).
  apply Hlook in Hq as [_ Hkq]. exists p, dep. split_and!; [|done..].
  destruct Hp as [Hp|[k Hk]]; [done|]. by apply Hlook in Hk as [? _].
Qed.

Lemma Analyze_Fail_cycle_inv `{PackageNameResolver R} parsed (resolver : R) c :
  Analyze parsed resolver = Fail (ErrCycle c) →
  ∃ byType,
    indexProviders (ParseResult.Providers parsed) ∅ = inr byType ∧
    validateDeps (ParseResult.Providers parsed)
      (ParseResult.Invocations parsed) byType = None ∧
    topoSort (ParseResult.Providers parsed)
      (ParseResult.Invocations parsed) byType = Fail (ErrCycle c).
Proof.
  unfold Analyze.
  destruct (indexProviders _ _) as [e|byType] eqn:Hidx.
  { intros [= ->]. by apply indexProviders_inl in Hidx as (?&?&?&_&_&_&?&_). }
  destruct (validateDeps _ _ _) as [e|] eqn:Hval.
  { intros [= ->]. unfold validateDeps in Hval. by case_decide. }
  destruct (topoSort _ _ _) as [ordered|e|] eqn:Hsort; [done| |done].
  intros [= ->]. by exists byType.
Qed.

Lemma reportOf_impl (R1 R2 : string → string → Prop) c :
  (∀ a b, R1 a b → R2 a b) → reportOf R1 c → reportOf R2 c.
Proof.
  intros HR (stack & k & -> & Hnd & Hk & Hl).
  exists stack, k. split_and!; [done..|]. by eapply linked_impl.
Qed.

(** The path of a cycle error is a chain of declared dependencies: each
    key is the key of a provider that declares a dependency on the next
    key; no key occurs twice in it, except the last one, which repeats an
    earlier one. *)
Theorem Analyze_cycle_report `{PackageNameResolver R} parsed (resolver : R) c :
  Analyze parsed resolver = Fail (ErrCycle c) →
  reportOf (dependsOn (ParseResult.Providers parsed)) c.
Proof.
  intros (byType & Hidx & _ & Hsort)%Analyze_Fail_cycle_inv.
  apply topoSort_report in Hsort.
  eapply reportOf_impl; [|done].
  intros a b. by apply stepBy_dependsOn.
Qed.

Lemma Analyze_cycle_report_leadIn :
  Analyze leadIn MockResolver = Fail (ErrCycle ["pkg.A"; "pkg.B"; "pkg.B"]) ∧
  reportOf (dependsOn (ParseResult.Providers leadIn)) ["pkg.A"; "pkg.B"; "pkg.B"].
Proof.
  assert (Analyze leadIn MockResolver
          = Fail (ErrCycle ["pkg.A"; "pkg.B"; "pkg.B"])) as Hrun.
  { vm_compute. reflexivity. }
  split; [exact Hrun|].
  exact (Analyze_cycle_report leadIn MockResolver _ Hrun).
Defined.

(** [Analyze] succeeds exactly when no two providers share a key, every
    dependency of a provider or an invocation is provided, and the
    depends-on relation has no cycle: a cycle error is never reported for
    an acyclic input. *)
Theorem Analyze_succeeds_iff `{PackageNameResolver R} parsed (resolver : R) :
  (∃ r, Analyze parsed resolver = Done r) ↔
  NoDup (keys (ParseResult.Providers parsed)) ∧
  unmetReferences parsed = [] ∧
  ¬ hasCycle (ParseResult.Providers parsed).
Proof.
  split.
  - intros [r (byType & ordered & Hidx & Hval & Hsort & _)%Analyze_Done_inv].
    pose proof (indexProviders_lookup _ _ Hidx) as [Hnd _].
    split_and!; [done| |].
    + rewrite (validateDeps_spec _ byType Hidx) in Hval. simpl in Hval.
      fold (unmetReferences parsed) in Hval.
      by destruct (unmetReferences parsed).
    + eapply topological_acyclic; [done| |].
      * by eapply topoSort_rearranges.
      * by eapply topoSort_topological.
  - intros (Hnd & Hunmet & Hacyclic).
    destruct (indexProviders_nodup _ Hnd) as [byType Hidx].
    unfold Analyze. rewrite Hidx.
    rewrite (validateDeps_spec _ byType Hidx). simpl.
    fold (unmetReferences parsed). rewrite Hunmet.
    pose proof (topoSort_ok (ParseResult.Providers parsed)
                  (ParseResult.Invocations parsed) byType) as Hok.
    destruct (topoSort _ _ _) as [ordered|e|] eqn:Hsort; [eauto| |done].
    destruct Hok as (c & -> & _). destruct Hacyclic.
    apply topoSort_report in Hsort.
    apply (reportOf_impl _ (dependsOn (ParseResult.Providers parsed))) in Hsort.
    + by apply reportOf_tc in Hsort.
    + intros a b. by apply stepBy_dependsOn.
Qed.

(** ** Providers declared in dependency order *)

Lemma visitInvocations_no_deps rec byType invocations st :
  (∀ inv, inv ∈ invocations → Invocation.Dependencies inv = []) →
  visitInvocations rec byType invocations st = Done st.
Proof.
  induction invocations as [|inv invs IH]; intros Hnone; simpl; [done|].
  rewrite (Hnone inv) by left. simpl. apply IH.
  intros i Hi. apply Hnone. by right.
Qed.

Lemma visit_S fuel byType p path st :
  visit (S fuel) byType p path st
  = if flag (inStack st) (Provider.key p)
    then Fail (ErrCycle (path ++ [Provider.key p]))
    else if flag (visited st) (Provider.key p) then Done st
    else
      match visitDeps (visit fuel byType) byType (Provider.Dependencies p)
              (path ++ [Provider.key p])
              (mkDfs (visited st) (<[Provider.key p := true]> (inStack st))
                 (result st)) with
      | Done st' =>
          Done (mkDfs (<[Provider.key p := true]> (visited st'))
                  (<[Provider.key p := false]> (inStack st'))
                  (result st' ++ [p]))
      | Fail e => Fail e
      | OutOfFuel => OutOfFuel
      end.
Proof. done. Qed.

Lemma visitDeps_all_visited fuel byType deps path st :
  (∀ dep q, dep ∈ deps →
     byType !! TypeRef.Key (Dependency.Type_ dep) = Some q →
     flag (inStack st) (Provider.key q) = false ∧
     flag (visited st) (Provider.key q) = true) →
  visitDeps (visit (S fuel) byType) byType deps path st = Done st.
Proof.
  induction deps as [|dep deps IH]; intros Hall; [done|].
  cbn [visitDeps].
  destruct (byType !! TypeRef.Key (Dependency.Type_ dep)) as [q|] eqn:Hq.
  - rewrite visit_S.
    destruct (Hall dep q ltac:(left) Hq) as [-> ->].
    apply IH. intros d q' Hd. apply Hall. by right.
  - apply IH. intros d q' Hd. apply Hall. by right.
Qed.

Section inOrder.
Context (providers : list Provider.t) (byType : gmap string Provider.t).
Hypothesis indexed : indexProviders providers ∅ = inr byType.
Hypothesis ordered : declaredInOrder providers.

(** The state after the first [i] providers were visited. *)
Local Abbreviation visitedUpTo i st :=
  (result st = take i providers ∧
   (∀ k, flag (inStack st) k = false) ∧
   (∀ k, flag (visited st) k = true ↔ k ∈ keys (take i providers))).

Lemma visit_next fuel i p st :
  visitedUpTo i st → providers !! i = Some p →
  ∃ st', visit (S (S fuel)) byType p [] st = Done st' ∧ visitedUpTo (S i) st'.
Proof.
  intros (Hres & Hstack & Hvis) Hi.
  pose proof (indexProviders_lookup _ _ indexed) as [Hnd Hlook].
  assert (Provider.key p ∉ keys (take i providers)) as Hfresh.
  { intros (j & q & Hj & Hk)%elem_of_keys_lookup.
    apply lookup_take_Some in Hj as [Hj Hlt].
    pose proof (NoDup_keys_lookup _ _ _ _ _ Hnd Hj Hi Hk). lia. }
  assert (flag (visited st) (Provider.key p) = false) as Hv.
  { destruct (flag (visited st) (Provider.key p)) eqn:Hf; [|done].
    by apply Hvis in Hf. }
  rewrite visit_S, Hstack, Hv.
  rewrite visitDeps_all_visited.
  - eexists. split; [done|]. simpl. split_and!.
    + by rewrite Hres, (take_S_r _ _ p).
    + intros k. rewrite !flag_insert.
      by destruct (decide (Provider.key p = k)).
    + intros k. rewrite flag_insert, (take_S_r _ _ p), keys_snoc by done.
      rewrite elem_of_app, list_elem_of_singleton, <-Hvis.
      destruct (decide (Provider.key p = k)) as [->|]; naive_solver.
  - intros dep q Hdep Hq. simpl.
    pose proof Hq as [Hqin Hkq]%Hlook.
    assert (Provider.key q ∈ keys (take i providers)) as Hdone.
    { rewrite Hkq. apply (ordered i p dep Hi Hdep).
      rewrite <-Hkq. apply elem_of_keys. eauto. }
    split; [|by apply Hvis].
    rewrite flag_insert.
    destruct (decide (Provider.key p = Provider.key q)) as [Heq|]; [|done].
    by rewrite Heq in Hfresh.
Qed.

Lemma visitProviders_in_order fuel rest before st :
  providers = before ++ rest → visitedUpTo (length before) st →
  ∃ st', visitProviders (visit (S (S fuel)) byType) rest st = Done st' ∧
         result st' = providers.
Proof.
  revert before st. induction rest as [|p rest IH]; intros before st Hsplit Hst.
  - exists st. split; [done|]. destruct Hst as (-> & _).
    rewrite Hsplit, app_nil_r. by rewrite take_ge.
  - assert (providers !! length before = Some p) as Hp.
    { rewrite Hsplit. by rewrite list_lookup_middle. }
    destruct (visit_next fuel _ p st Hst Hp) as (st1 & Hrun & Hst1).
    cbn [visitProviders]. rewrite Hrun.
    apply (IH (before ++ [p])).
    + by rewrite <-app_assoc.
    + rewrite length_app. simpl.
      by replace (length before + 1) with (S (length before)) by lia.
Qed.
End inOrder.

(** Providers that are declared in dependency order stay in their
    declaration order when no invocation has dependencies. *)
Theorem topoSort_keeps_declaration_order providers invocations byType :
  indexProviders providers ∅ = inr byType →
  (∀ inv, inv ∈ invocations → Invocation.Dependencies inv = []) →
  declaredInOrder providers →
  topoSort providers invocations byType = Done providers.
Proof.
  intros Hidx Hnone Hordered. unfold topoSort.
  rewrite visitInvocations_no_deps by done.
  destruct providers as [|p ps]; [done|].
  unfold visitDepth. cbn [length Nat.add].
  destruct (visitProviders_in_order (p :: ps) byType Hidx Hordered
              (length ps + size byType) (p :: ps) [] (mkDfs ∅ ∅ []))
    as (st' & -> & ->); [done| |done].
  simpl. split_and!; [done|apply flag_empty|].
  intros k. rewrite flag_empty. split; [done|]. by intros ?%elem_of_nil.
Qed.

Lemma diamondOrdered_declaredInOrder : declaredInOrder diamondOrdered.
Proof.
  intros i p dep Hi Hdep _.
  destruct i as [|[|[|[|i]]]]; simpl in Hi; [| | | |done];
    injection Hi as <-; apply list_elem_of_In in Hdep; simpl in Hdep;
    repeat (destruct Hdep as [<-|Hdep]); try done;
    apply list_elem_of_In; vm_compute; auto.
Defined.

Lemma topoSort_keeps_diamondOrdered :
  declaredInOrder diamondOrdered ∧
  ∃ byType, indexProviders diamondOrdered ∅ = inr byType ∧
            topoSort diamondOrdered [] byType = Done diamondOrdered.
Proof.
  split; [exact diamondOrdered_declaredInOrder|].
  destruct (indexProviders diamondOrdered ∅) as [e|byType] eqn:Hidx;
    [by vm_compute in Hidx|].
  exists byType. split; [done|].
  apply (topoSort_keeps_declaration_order diamondOrdered [] byType Hidx).
  - by intros inv ?%elem_of_nil.
  - exact diamondOrdered_declaredInOrder.
Defined.

(** ** What resolveVarNames leaves alone *)

Lemma setVarName_same p : Provider.setVarName p (Provider.VarName p) = p.
Proof. by destruct p. Qed.

(** [resolveVarNames] keeps the number and the positions of the
    providers and changes nothing of a provider but its [VarName]. *)
Theorem resolveVarNames_renames_only l :
  length (resolveVarNames l) = length l ∧
  ∀ i P, resolveVarNames l !! i = Some P →
    ∃ P0, l !! i = Some P0 ∧ P = Provider.setVarName P0 (Provider.VarName P).
Proof.
  split.
  - by rewrite resolveVarNames_imap, length_imap.
  - intros i P (P0 & k & Hi & ->)%resolveVarNames_lookup.
    exists P0. split; [done|]. unfold disambiguated.
    destruct (decide (k = 0)); [by rewrite setVarName_same|done].
Qed.

(** Providers whose base names are pairwise distinct all keep them. *)
Theorem resolveVarNames_distinct_unchanged l :
  NoDup (Provider.VarName <$> l) → resolveVarNames l = l.
Proof.
  intros Hnd. rewrite resolveVarNames_imap. apply list_eq. intros i.
  rewrite list_lookup_imap. destruct (l !! i) as [p|] eqn:Hi; [|done].
  simpl. f_equal.
  assert (occurrencesBefore l i (Provider.VarName p) = 0) as ->; [|done].
  unfold occurrencesBefore. rewrite filter_none; [done|].
  apply Forall_forall. intros q [j Hj]%list_elem_of_lookup Hname.
  apply lookup_take_Some in Hj as [Hj Hlt].
  assert (j = i); [|lia].
  eapply NoDup_lookup; [exact Hnd| |].
  - by rewrite list_lookup_fmap, Hj.
  - rewrite list_lookup_fmap, Hi. simpl. by rewrite Hname.
Qed.

Lemma resolveVarNames_distinct_unchanged_diamond :
  Provider.VarName <$> diamondOrdered = ["d"; "b"; "c"; "a"] ∧
  resolveVarNames diamondOrdered = diamondOrdered.
Proof.
  split; [done|].
  apply resolveVarNames_distinct_unchanged.
  apply (bool_decide_unpack (NoDup (Provider.VarName <$> diamondOrdered))).
  by vm_compute.
Defined.

(** ** Keys *)

Lemma noDot_append_dot a x : noDot (a +:+ String "." x) = false.
Proof.
  induction a as [|c a IH]; [done|]. rewrite append_cons. simpl.
  by rewrite IH, andb_false_r.
Qed.

Lemma dot_split_inj a b x y :
  noDot x = true → noDot y = true →
  a +:+ String "." x = b +:+ String "." y → a = b ∧ x = y.
Proof.
  intros Hx Hy. revert b. induction a as [|c a IH]; intros [|d b].
  - rewrite !append_nil_l. by intros [= ->].
  - rewrite append_nil_l, append_cons. intros [= <- ->].
    by rewrite noDot_append_dot in Hx.
  - rewrite append_nil_l, append_cons. intros [= -> <-].
    by rewrite noDot_append_dot in Hy.
  - rewrite !append_cons. intros [= -> Heq].
    by destruct (IH b Heq) as [-> ->].
Qed.

Lemma Key_keyBody t :
  TypeRef.Key t = if TypeRef.IsPointer t then String "*" (keyBody t) else keyBody t.
Proof.
  unfold TypeRef.Key, keyBody.
  destruct (TypeRef.IsPointer t), (decide (TypeRef.ImportPath t = "")); try done.
  - by rewrite !append_assoc.
  - by rewrite !append_assoc.
Qed.

Lemma keyBody_no_star t : plainRef t → startsWithStar (keyBody t) = false.
Proof.
  intros (_ & Hname & Hpath). unfold keyBody.
  destruct (decide (TypeRef.ImportPath t = "")) as [|Hne]; [done|].
  by destruct (TypeRef.ImportPath t).
Qed.

Lemma keyBody_inj t1 t2 :
  plainRef t1 → plainRef t2 → keyBody t1 = keyBody t2 →
  TypeRef.ImportPath t1 = TypeRef.ImportPath t2 ∧
  TypeRef.Name t1 = TypeRef.Name t2.
Proof.
  intros (Hn1 & _) (Hn2 & _). unfold keyBody.
  destruct (decide (TypeRef.ImportPath t1 = "")) as [->|],
           (decide (TypeRef.ImportPath t2 = "")) as [->|]; intros Heq.
  - done.
  - rewrite Heq, noDot_append_dot in Hn1. done.
  - rewrite <-Heq, noDot_append_dot in Hn2. done.
  - by apply dot_split_inj.
Qed.

(** Two plain references with the same key are the same reference: same
    name, same import path, both pointers or neither. *)
Theorem Key_inj t1 t2 :
  plainRef t1 → plainRef t2 → TypeRef.Key t1 = TypeRef.Key t2 → t1 = t2.
Proof.
  intros H1 H2. rewrite !Key_keyBody.
  pose proof (keyBody_no_star t1 H1) as Hs1.
  pose proof (keyBody_no_star t2 H2) as Hs2.
  destruct t1 as [n1 p1 [|]], t2 as [n2 p2 [|]]; simpl.
  - intros [= Heq]. by destruct (keyBody_inj _ _ H1 H2 Heq) as [[= ->] [= ->]].
  - intros Heq. rewrite <-Heq in Hs2. done.
  - intros Heq. rewrite Heq in Hs1. done.
  - intros Heq. by destruct (keyBody_inj _ _ H1 H2 Heq) as [[= ->] [= ->]].
Qed.

Lemma Key_inj_Config :
  TypeRef.Key (TypeRef.mk "Config" "pkg/config" true) = "*pkg/config.Config" ∧
  TypeRef.mk "Config" "pkg/config" true = TypeRef.mk "Config" "pkg/config" true.
Proof.
  split; [done|].
  apply Key_inj; [by split_and!..|done].
Defined.

(** ** More on the fallback *)

(** [versionSuffix] returns the empty string or the [.vN] ending of its
    argument, so cutting it off always succeeds: in [fallbackName] the
    final [return base] is never reached. *)
Theorem versionSuffix_cut s :
  (resolver.versionSuffix s = "" ∨
   ∃ n, resolver.versionSuffix s = ".v" +:+ n ∧ n ≠ "" ∧
        resolver.allDigits n = true) ∧
  ∃ name, gostrings.CutSuffix s (resolver.versionSuffix s) = (name, true) ∧
          s = name +:+ resolver.versionSuffix s.
Proof.
  destruct (decide (resolver.versionSuffix s = "")) as [Hempty|Hsuffix].
  - split; [by left|]. exists s. rewrite Hempty.
    by rewrite CutSuffix_empty, append_nil_r.
  - apply versionSuffix_nonempty in Hsuffix as (stem & n & -> & Hne & Hn).
    rewrite versionSuffix_dotVersion by done. split; [right; eauto|].
    exists stem. by rewrite CutSuffix_append.
Qed.

Lemma noSeparator_append a b :
  noSeparator (a +:+ b) = noSeparator a && noSeparator b.
Proof.
  induction a as [|c a IH]; [done|]. rewrite append_cons. simpl.
  by rewrite IH, andb_assoc.
Qed.

Lemma Forall_last {A} (P : A → Prop) (l : list A) d :
  Forall P l → P d → P (List.last l d).
Proof.
  induction 1 as [|x l Hx Hl IH]; [done|]. intros Hd.
  destruct l; [done|]. by apply IH.
Qed.

Lemma Base_shape path :
  filepath.Base path = "/" ∨ noSeparator (filepath.Base path) = true.
Proof.
  unfold filepath.Base. destruct (decide (path = "")); [by right|].
  destruct (decide (List.last _ "" = "")); [by left|]. right.
  by apply (Forall_last (λ e, noSeparator e = true)); [apply Forall_split|].
Qed.

(** The fallback name never contains a separator, unless it is the lone
    separator [/] that [filepath.Base] gives for a path of separators. *)
Theorem fallbackName_no_separator path :
  resolver.fallbackName path = "/" ∨
  noSeparator (resolver.fallbackName path) = true.
Proof.
  unfold resolver.fallbackName.
  destruct (resolver.isVersionSuffix (filepath.Base path)); [apply Base_shape|].
  destruct (versionSuffix_cut (filepath.Base path)) as (_ & name & -> & Hbase).
  destruct (Base_shape path) as [Hroot|Hsep].
  - rewrite Hroot in Hbase.
    destruct name as [|c [|d name]].
    + by vm_compute in Hbase.
    + left. rewrite append_cons in Hbase. by injection Hbase as <-.
    + rewrite !append_cons in Hbase. done.
  - right. rewrite Hbase, noSeparator_append in Hsep.
    by apply andb_true_iff in Hsep as [? _].
Qed.

(** ** The cache of resolved names *)

(** What the map's methods do to later loads: a stored value is loaded
    back; [LoadOrStore] returns and keeps a value already present, and
    stores the given one otherwise; after [Delete] or [LoadAndDelete] the
    key is not found; no method changes what is loaded for another key. *)
Theorem Map_loads `{Countable K} {V : Type} (zero : V) (m : gmap K V)
    (key : K) (value : V) :
  xsync.Load zero (xsync.Store m key value) key = (value, true) ∧
  (∀ actual, m !! key = Some actual →
     xsync.LoadOrStore m key value = ((actual, true), m)) ∧
  (m !! key = None →
     xsync.LoadOrStore m key value = ((value, false), xsync.Store m key value)) ∧
  xsync.Load zero (xsync.Delete m key) key = (zero, false) ∧
  xsync.Load zero (xsync.LoadAndDelete zero m key).2 key = (zero, false) ∧
  (xsync.LoadAndDelete zero m key).1 = xsync.Load zero m key ∧
  (∀ other, other ≠ key →
     xsync.Load zero (xsync.Store m key value) other = xsync.Load zero m other ∧
     xsync.Load zero (xsync.LoadOrStore m key value).2 other
     = xsync.Load zero m other ∧
     xsync.Load zero (xsync.Delete m key) other = xsync.Load zero m other ∧
     xsync.Load zero (xsync.LoadAndDelete zero m key).2 other
     = xsync.Load zero m other).
Proof.
  unfold xsync.Load, xsync.Store, xsync.LoadOrStore, xsync.Delete,
    xsync.LoadAndDelete.
  split_and!.
  - by rewrite lookup_insert_eq.
  - by intros actual ->.
  - by intros ->.
  - by rewrite lookup_delete_eq.
  - destruct (m !! key) eqn:Hm; simpl; [by rewrite lookup_delete_eq|by rewrite Hm].
  - by destruct (m !! key).
  - intros other Hne. split_and!.
    + by rewrite lookup_insert_ne.
    + destruct (m !! key); simpl; [done|by rewrite lookup_insert_ne].
    + by rewrite lookup_delete_ne.
    + destruct (m !! key); simpl; [by rewrite lookup_delete_ne|done].
Qed.

(** Resolved names are memoized: the name a call returns is in the cache
    it leaves, every later call for the same path returns that name and
    leaves the cache as it is, whatever the command would print then; a
    call changes the cache entry of no other path, and runs no command
    for a cached path. *)
Theorem ResolveName_memoized (TrimSpace : string → string)
    (cache : gmap string string) (output : option string) (path : string) :
  (resolver.ResolveName TrimSpace cache output path).2 !! path
  = Some (resolver.ResolveName TrimSpace cache output path).1 ∧
  (∀ output',
     resolver.ResolveName TrimSpace
       (resolver.ResolveName TrimSpace cache output path).2 output' path
     = resolver.ResolveName TrimSpace cache output path) ∧
  (∀ other, other ≠ path →
     (resolver.ResolveName TrimSpace cache output path).2 !! other
     = cache !! other) ∧
  (∀ name, cache !! path = Some name →
     resolver.ResolveName TrimSpace cache output path = (name, cache)) ∧
  (cache !! path = None →
     (resolver.ResolveName TrimSpace cache output path).1
     = resolver.resolve TrimSpace output path).
Proof.
  unfold resolver.ResolveName, xsync.Load, xsync.LoadOrStore.
  destruct (cache !! path) as [name|] eqn:Hc; simpl.
  - split_and!; [done| |done| |done].
    + intros output'. by rewrite Hc.
    + by intros name' [= <-].
  - split_and!; [by rewrite lookup_insert_eq| | |done|done].
    + intros output'. by rewrite lookup_insert_eq.
    + intros other Hne. by rewrite lookup_insert_ne.
Qed.

Lemma Index_cons c s substr :
  gostrings.Index (String c s) substr
  = if String.prefix substr (String c s) then Some 0
    else S <$> gostrings.Index s substr.
Proof. done. Qed.

Lemma prefix_space_cons c s :
  String.prefix " " (String c s) = bool_decide (c = " "%char).
Proof.
  rewrite prefix_cons. destruct (ascii_dec " " c) as [<-|Hne].
  - by destruct s.
  - rewrite bool_decide_eq_false_2; [done|]. by intros ->.
Qed.

Lemma Index_first_space a b :
  gostrings.Index a " " = None →
  gostrings.Index (a +:+ " " +:+ b) " " = Some (String.length a).
Proof.
  induction a as [|c a IH].
  - intros _. rewrite append_nil_l.
    change (" " +:+ b) with (String " " b).
    by rewrite Index_cons, prefix_space_cons.
  - rewrite append_cons, !Index_cons, !prefix_space_cons.
    destruct (bool_decide (c = " "%char)); [done|].
    destruct (gostrings.Index a " ") eqn:Ha; [done|].
    intros _. by rewrite IH.
Qed.

(** The name [resolve] takes from the output of [go list]: the fallback
    name when the command fails or its trimmed output holds no space;
    otherwise all that follows the first space. *)
Theorem resolve_outcomes (TrimSpace : string → string) (path : string) :
  resolver.resolve TrimSpace None path = resolver.fallbackName path ∧
  (∀ out, gostrings.Index (TrimSpace out) " " = None →
     resolver.resolve TrimSpace (Some out) path = resolver.fallbackName path) ∧
  (∀ out importPath name,
     TrimSpace out = importPath +:+ " " +:+ name →
     gostrings.Index importPath " " = None →
     resolver.resolve TrimSpace (Some out) path = name).
Proof.
  unfold resolver.resolve, resolver.goListOutputParts. split_and!.
  - done.
  - intros out Hnone. cbn [gostrings.SplitN]. by rewrite Hnone.
  - intros out importPath name -> Hnone. cbn [gostrings.SplitN].
    rewrite (Index_first_space importPath name Hnone). simpl.
    replace (importPath +:+ " " +:+ name)
      with ((importPath +:+ " ") +:+ name) by apply append_assoc.
    replace (String.length importPath + 1)
      with (String.length (importPath +:+ " "))
      by (rewrite length_append; simpl; lia).
    by rewrite sliceFrom_append.
Qed.

(** ** The parser: resolving type expressions *)

Lemma resolveType_star e ctx :
  parser.resolveType (ast.StarExpr e) ctx
  = inner ← parser.resolveType e ctx;
    parser.Ok (TypeRef.mk (TypeRef.Name inner) (TypeRef.ImportPath inner) true).
Proof. done. Qed.

Lemma resolveType_star_star e ctx :
  parser.resolveType (ast.StarExpr (ast.StarExpr e)) ctx
  = parser.resolveType (ast.StarExpr e) ctx.
Proof.
  rewrite (resolveType_star (ast.StarExpr e)), resolveType_star.
  by destruct (parser.resolveType e ctx).
Qed.

(** A pointer to a pointer, at any depth, resolves like a single pointer:
    to the same reference, or to the same error. *)
Theorem resolveType_pointer_depth (n : nat) (e : ast.Expr)
    (ctx : parser.fileContext) :
  parser.resolveType (stars (S n) e) ctx
  = parser.resolveType (ast.StarExpr e) ctx.
Proof.
  induction n as [|n IH]; [done|].
  change (stars (S (S n)) e) with (ast.StarExpr (stars (S n) e)).
  rewrite resolveType_star, IH, <-resolveType_star.
  apply resolveType_star_star.
Qed.

Lemma resolveType_stars_Ok n e ctx t :
  parser.resolveType e ctx = parser.Ok t →
  parser.resolveType (stars n e) ctx
  = parser.Ok (TypeRef.mk (TypeRef.Name t) (TypeRef.ImportPath t)
                 (bool_decide (0 < n) || TypeRef.IsPointer t)).
Proof.
  intros He. induction n as [|n IH].
  - cbn. rewrite He. by destruct t.
  - change (stars (S n) e) with (ast.StarExpr (stars n e)).
    by rewrite resolveType_star, IH.
Qed.

(** [resolveType] succeeds exactly on a type name, or on a name qualified
    by a package name the file binds, behind any number of pointer marks;
    the reference is a pointer as soon as there is one mark. *)
Theorem resolveType_Ok (e : ast.Expr) (ctx : parser.fileContext)
    (t : TypeRef.t) :
  parser.resolveType e ctx = parser.Ok t ↔
  ∃ n,
    (∃ name, e = stars n (ast.Ident name) ∧
       t = TypeRef.mk name
             (if parser.isBuiltin name then "" else parser.importPath ctx)
             (bool_decide (0 < n))) ∨
    (∃ pkg sel path, e = stars n (ast.SelectorExpr (ast.Ident pkg) sel) ∧
       parser.imports ctx !! pkg = Some path ∧
       t = TypeRef.mk sel path (bool_decide (0 < n))).
Proof.
  split.
  - revert t. induction e as [name|x IH|x _ sel| | | | | | |];
      intros t He; try discriminate He.
    + exists 0. left. exists name. split; [done|].
      cbn in He. destruct (parser.isBuiltin name); by inversion He.
    + rewrite resolveType_star in He.
      destruct (parser.resolveType x ctx) as [inner|] eqn:Hx; [|done].
      injection He as <-.
      destruct (IH _ eq_refl) as (n & [(name & -> & ->)|(pkg & sel & path & -> & Hp & ->)]).
      * exists (S n). left. exists name. split; [done|].
        done.
      * exists (S n). right. exists pkg, sel, path. split_and!; [done..|].
        done.
    + destruct x as [pkg| | | | | | | | |]; try discriminate He.
      cbn in He. destruct (parser.imports ctx !! pkg) as [path|] eqn:Hp; [|done].
      injection He as <-. exists 0. right. by exists pkg, sel, path.
  - intros (n & [(name & -> & ->)|(pkg & sel & path & -> & Hp & ->)]).
    + rewrite (resolveType_stars_Ok n _ ctx
                 (TypeRef.mk name
                    (if parser.isBuiltin name then "" else parser.importPath ctx)
                    false)).
      * cbn [TypeRef.Name TypeRef.ImportPath TypeRef.IsPointer].
        by rewrite orb_false_r.
      * cbn. by destruct (parser.isBuiltin name).
    + rewrite (resolveType_stars_Ok n _ ctx (TypeRef.mk sel path false)).
      * cbn [TypeRef.Name TypeRef.ImportPath TypeRef.IsPointer].
        by rewrite orb_false_r.
      * cbn. by rewrite Hp.
Qed.

(** The import path of a resolved reference is empty, the file's own, or
    one the file binds a name to. *)
Lemma resolveType_origin e ctx t :
  parser.resolveType e ctx = parser.Ok t → fromContext ctx t.
Proof.
  unfold fromContext. revert t. induction e as [name|x IH|x _ sel| | | | | | |];
    intros t He; try discriminate He.
  - cbn in He. destruct (parser.isBuiltin name); injection He as <-; auto.
  - rewrite resolveType_star in He.
    destruct (parser.resolveType x ctx) as [inner|] eqn:Hx; [|done].
    injection He as <-. exact (IH _ eq_refl).
  - destruct x as [pkg| | | | | | | | |]; try discriminate He.
    cbn in He. destruct (parser.imports ctx !! pkg) as [path|] eqn:Hp; [|done].
    injection He as <-. right; right. by exists pkg.
Qed.

(** ** The parser: parameters *)

Lemma paramDeps_count f t :
  replicate (if decide (length (ast.Names f) = 0) then 1
             else length (ast.Names f)) (Dependency.mk "" t)
  = paramDeps f t.
Proof.
  unfold paramDeps. f_equal. destruct (decide _); lia.
Qed.

Lemma parseParamList_Ok params ctx acc deps :
  parser.parseParamList params ctx acc = parser.Ok deps ↔
  ∃ ts, Forall2 (resolvesTo ctx) params ts ∧
        deps = acc ++ mjoin (zip_with paramDeps params ts).
Proof.
  revert acc. induction params as [|p params IH]; intros acc.
  - cbn. split.
    + intros [= <-]. exists []. split; [constructor|]. by rewrite app_nil_r.
    + intros (ts & Hts & ->). apply Forall2_nil_inv_l in Hts as ->.
      cbn. by rewrite app_nil_r.
  - cbn [parser.parseParamList]. split.
    + destruct (parser.resolveType (ast.Type_ p) ctx) as [t|] eqn:Hp; [|done].
      cbn. rewrite paramDeps_count. intros (ts & Hts & ->)%IH.
      exists (t :: ts). split; [by constructor|].
      cbn. by rewrite app_assoc.
    + intros (ts & Hts & ->).
      apply Forall2_cons_inv_l in Hts as (t & ts' & Hp & Hts & ->).
      unfold resolvesTo in Hp. rewrite Hp. cbn. rewrite paramDeps_count.
      apply IH. exists ts'. split; [done|]. cbn. by rewrite app_assoc.
Qed.

Lemma parseParamList_Err params ctx acc msg :
  parser.parseParamList params ctx acc = parser.Err msg ↔
  ∃ before p after, params = before ++ p :: after ∧
    Forall (λ q, ∃ t, resolvesTo ctx q t) before ∧
    parser.resolveType (ast.Type_ p) ctx = parser.Err msg.
Proof.
  revert acc. induction params as [|p params IH]; intros acc.
  - cbn. split; [done|]. intros (before & q & after & Heq & _).
    by destruct before.
  - cbn [parser.parseParamList].
    destruct (parser.resolveType (ast.Type_ p) ctx) as [t|msg'] eqn:Hp; cbn.
    + rewrite IH. split.
      * intros (before & q & after & -> & Hbefore & Hq).
        exists (p :: before), q, after. split; [done|]. split; [|done].
        constructor; [by exists t|done].
      * intros (before & q & after & Heq & Hbefore & Hq).
        destruct before as [|p' before].
        { injection Heq as <- _. congruence. }
        injection Heq as <- ->. apply Forall_cons in Hbefore as [_ Hbefore].
        by exists before, q, after.
    + split.
      * intros [= ->]. by exists [], p, params.
      * intros (before & q & after & Heq & Hbefore & Hq).
        destruct before as [|p' before].
        { injection Heq as <- _. congruence. }
        injection Heq as <- _. apply Forall_cons in Hbefore as [[t Ht] _].
        unfold resolvesTo in Ht. congruence.
Qed.

(** [parseParams] yields, in order, one dependency for each name of each
    parameter declaration, one for a declaration without names, none of
    them with a field name; it fails exactly when the type of some
    declaration does not resolve, with the error of the first such. *)
Theorem parseParams_outcome (params : list (ast.Field ast.Expr))
    (ctx : parser.fileContext) :
  (∀ deps, parser.parseParams (Some params) ctx = parser.Ok deps ↔
     ∃ ts, Forall2 (resolvesTo ctx) params ts ∧
           deps = mjoin (zip_with paramDeps params ts)) ∧
  (∀ msg, parser.parseParams (Some params) ctx = parser.Err msg ↔
     ∃ before p after, params = before ++ p :: after ∧
       Forall (λ q, ∃ t, resolvesTo ctx q t) before ∧
       parser.resolveType (ast.Type_ p) ctx = parser.Err msg).
Proof.
  split.
  - intros deps. apply (parseParamList_Ok params ctx []).
  - intros msg. apply parseParamList_Err.
Qed.

(** ** The parser: the interface argument of an annotation *)

Lemma prefix_char_cons sep c s :
  String.prefix (String sep "") (String c s) = bool_decide (c = sep).
Proof.
  rewrite prefix_cons. destruct (ascii_dec sep c) as [<-|Hne].
  - rewrite bool_decide_eq_true_2; [|done]. by destruct s.
  - rewrite bool_decide_eq_false_2; [done|]. by intros ->.
Qed.

Lemma Index_first_char sep a b :
  gostrings.Index a (String sep "") = None →
  gostrings.Index (a +:+ String sep b) (String sep "")
  = Some (String.length a).
Proof.
  induction a as [|c a IH].
  - intros _. rewrite append_nil_l.
    rewrite Index_cons, prefix_char_cons. by rewrite bool_decide_eq_true_2.
  - rewrite append_cons, !Index_cons, !prefix_char_cons.
    destruct (bool_decide (c = sep)); [done|].
    destruct (gostrings.Index a (String sep "")) eqn:Ha; [done|].
    intros _. by rewrite IH.
Qed.

(** The interface argument of an annotation: a name without a dot is a
    type of the file's own package; otherwise what precedes the first dot
    must be a package name the file binds, and all that follows it, later
    dots included, is the type name.  The reference is never a pointer. *)
Theorem resolveInterfaceFromArg_outcomes (arg : string)
    (ctx : parser.fileContext) :
  (gostrings.Index arg "." = None →
     parser.resolveInterfaceFromArg arg ctx
     = parser.Ok (TypeRef.mk arg (parser.importPath ctx) false)) ∧
  (∀ pkg name, arg = pkg +:+ "." +:+ name →
     gostrings.Index pkg "." = None →
     parser.resolveInterfaceFromArg arg ctx
     = match parser.imports ctx !! pkg with
       | Some path => parser.Ok (TypeRef.mk name path false)
       | None => parser.Err ("unknown package alias: " +:+ pkg)
       end).
Proof.
  unfold parser.resolveInterfaceFromArg. split.
  - intros Hnone. cbn [gostrings.SplitN]. by rewrite Hnone.
  - intros pkg name -> Hnone. cbn [gostrings.SplitN].
    change ("." +:+ name) with (String "." name).
    rewrite (Index_first_char "." pkg name Hnone).
    cbn [length decide nth].
    replace (pkg +:+ String "." name)
      with ((pkg +:+ ".") +:+ name) by apply (append_assoc pkg "." name).
    replace (String.length pkg + String.length ".")
      with (String.length (pkg +:+ "."))
      by (rewrite length_append; simpl; lia).
    rewrite sliceFrom_append.
    assert (gostrings.sliceTo ((pkg +:+ ".") +:+ name) (String.length pkg) = pkg)
      as ->.
    { rewrite (append_assoc pkg "." name). clear. induction pkg as [|c pkg IH].
      - by rewrite append_nil_l.
      - rewrite append_cons. cbn. by rewrite IH. }
    done.
Qed.

(** ** The parser: the names a file binds to its imports *)

Lemma buildImportMap_snoc imports imp :
  parser.buildImportMap (ast.File.mk (imports ++ [imp]) [])
  = let m := parser.buildImportMap (ast.File.mk imports []) in
    if decide (boundName imp = "_" ∨ boundName imp = ".") then m
    else <[boundName imp := importedPath imp]> m.
Proof.
  unfold parser.buildImportMap. cbn [ast.File.Imports].
  rewrite foldl_app. cbn [foldl]. unfold boundName, importedPath.
  by destruct (ast.ImportSpec.Name imp).
Qed.

Lemma buildImportMap_nil :
  parser.buildImportMap (ast.File.mk [] []) = ∅.
Proof. done. Qed.

Lemma buildImportMap_imports file :
  parser.buildImportMap file
  = parser.buildImportMap (ast.File.mk (ast.File.Imports file) []).
Proof. done. Qed.

Lemma buildImportMap_elem file name path :
  parser.buildImportMap file !! name = Some path →
  ∃ imp, imp ∈ ast.File.Imports file ∧ boundName imp = name ∧
         importedPath imp = path.
Proof.
  rewrite buildImportMap_imports.
  induction (ast.File.Imports file) as [|imp imports IH] using rev_ind.
  { by rewrite buildImportMap_nil, lookup_empty. }
  rewrite buildImportMap_snoc. cbn zeta.
  setoid_rewrite elem_of_app. setoid_rewrite list_elem_of_singleton.
  destruct (decide _) as [_|_].
  - intros (imp' & ? & ? & ?)%IH. exists imp'. auto.
  - destruct (decide (boundName imp = name)) as [<-|Hne].
    + rewrite lookup_insert_eq. intros [= <-]. exists imp. auto.
    + rewrite lookup_insert_ne by done.
      intros (imp' & ? & ? & ?)%IH. exists imp'. auto.
Qed.

(** Looking a name up in the import map of a file finds the path of the
    last import bound to that name; an import bound to [_] or [.] binds
    nothing, and an import without a local name is bound to the last
    element of its path. *)
Theorem buildImportMap_lookup (file : ast.File.t) (name path : string) :
  parser.buildImportMap file !! name = Some path ↔
  name ≠ "_" ∧ name ≠ "." ∧
  ∃ before imp after,
    ast.File.Imports file = before ++ imp :: after ∧
    boundName imp = name ∧ importedPath imp = path ∧
    Forall (λ later, boundName later ≠ name) after.
Proof.
  rewrite buildImportMap_imports.
  induction (ast.File.Imports file) as [|x l IH] using rev_ind.
  { rewrite buildImportMap_nil, lookup_empty. split; [done|].
    intros (_ & _ & before & imp & after & Heq & _). by destruct before. }
  rewrite buildImportMap_snoc. cbn zeta.
  assert (∀ before imp after,
            l ++ [x] = before ++ imp :: after ↔
            (after = [] ∧ before = l ∧ imp = x) ∨
            (∃ after', after = after' ++ [x] ∧ l = before ++ imp :: after'))
    as Hsplit.
  { intros before imp after. destruct after as [|y after _] using rev_ind.
    - split.
      + intros [-> ->]%app_inj_tail. by left.
      + intros [(_ & -> & ->)|(after' & Heq & _)]; [done|].
        by destruct after'.
    - rewrite app_comm_cons, app_assoc. split.
      + intros [-> ->]%app_inj_tail. right. by exists after.
      + intros [(Heq & _)|(after' & [-> ->]%app_inj_tail & ->)].
        * by destruct after.
        * done. }
  destruct (decide (boundName x = "_" ∨ boundName x = ".")) as [Hblank|Hbinds].
  - rewrite IH. split.
    + intros (H1 & H2 & before & imp & after & -> & Hn & Hp & Hafter).
      split_and!; [done..|]. exists before, imp, (after ++ [x]).
      split_and!; [by rewrite <-app_assoc|done..|].
      apply Forall_app. split; [done|]. constructor; [|done].
      intros Heq. rewrite Heq in Hblank. tauto.
    + intros (H1 & H2 & before & imp & after & Heq & Hn & Hp & Hafter).
      split_and!; [done..|].
      apply Hsplit in Heq as [(-> & -> & ->)|(after' & -> & ->)].
      * rewrite Hn in Hblank. tauto.
      * apply Forall_app in Hafter as [Hafter _].
        by exists before, imp, after'.
  - destruct (decide (boundName x = name)) as [Hx|Hx].
    + rewrite <-Hx, lookup_insert_eq. split.
      * intros [= <-]. split_and!; [tauto..|]. by exists l, x, [].
      * intros (_ & _ & before & imp & after & Heq & Hn & Hp & Hafter).
        apply Hsplit in Heq as [(-> & -> & ->)|(after' & -> & ->)].
        -- by rewrite Hp.
        -- apply Forall_app in Hafter as [_ Hafter].
           by apply Forall_cons in Hafter as [? _].
    + rewrite lookup_insert_ne by done. rewrite IH. split.
      * intros (H1 & H2 & before & imp & after & -> & Hn & Hp & Hafter).
        split_and!; [done..|]. exists before, imp, (after ++ [x]).
        split_and!; [by rewrite <-app_assoc|done..|].
        apply Forall_app. split; [done|]. by constructor.
      * intros (H1 & H2 & before & imp & after & Heq & Hn & Hp & Hafter).
        split_and!; [done..|].
        apply Hsplit in Heq as [(-> & -> & ->)|(after' & -> & ->)].
        -- done.
        -- apply Forall_app in Hafter as [Hafter _].
           by exists before, imp, after'.
Qed.

(** ** The parser: providers *)

Lemma wrapped_Ok {A} prefix (r : parser.result A) a :
  parser.wrapped prefix r = parser.Ok a ↔ r = parser.Ok a.
Proof. destruct r; cbn; split; congruence. Qed.

Lemma bind_Ok {A B} (r : parser.result A) (f : A → parser.result B) b :
  (r ≫= f) = parser.Ok b ↔ ∃ a, r = parser.Ok a ∧ f a = parser.Ok b.
Proof.
  destruct r as [a|msg]; cbn.
  - split; [by exists a|]. by intros (a' & [= <-] & ?).
  - split; [done|]. by intros (? & ? & _).
Qed.

(** A provider function is accepted exactly when it declares one result,
    or two of which the second is [error], when its parameters and its
    first result resolve, and when the interface argument, if there is
    one, resolves.  The provider then provides the interface if one is
    given and the first result otherwise, can fail exactly when there are
    two results, and takes its variable name from the provided type. *)
Theorem parseFuncProvider_Ok (runes : string → list N)
    (ofRunes : list N → string) (IsUpper : N → bool)
    (ToLower : string → string) (fn : ast.FuncDecl.t)
    (ctx : parser.fileContext) (interfaceArg : string) (p : Provider.t) :
  parser.parseFuncProvider runes ofRunes IsUpper ToLower fn ctx interfaceArg
  = parser.Ok p ↔
  ∃ first others deps returned provided,
    ast.Results (ast.FuncDecl.Type_ fn) = Some (first :: others) ∧
    (others = [] ∨
     ∃ second, others = [second] ∧
               parser.isErrorType (ast.Type_ second) = true) ∧
    parser.parseParams (ast.Params (ast.FuncDecl.Type_ fn)) ctx
    = parser.Ok deps ∧
    resolvesTo ctx first returned ∧
    (if decide (interfaceArg = "") then provided = returned
     else parser.resolveInterfaceFromArg interfaceArg ctx
          = parser.Ok provided) ∧
    p = Provider.mk (ast.FuncDecl.Name fn) ProviderKindFunc provided deps
          (bool_decide (others ≠ [])) (parser.importPath ctx)
          (parser.toLowerCamel runes ofRunes IsUpper ToLower
             (TypeRef.Name provided)).
Proof.
  unfold parser.parseFuncProvider, resolvesTo.
  destruct (ast.Results (ast.FuncDecl.Type_ fn)) as [results|];
    cbv beta iota delta [from_option id]; cycle 1.
  { split; [done|]. by intros (? & ? & ? & ? & ? & ? & _). }
  destruct results as [|first others].
  { split; [done|]. by intros (? & ? & ? & ? & ? & ? & _). }
  destruct others as [|second others].
  - cbv beta iota zeta. rewrite bind_Ok. setoid_rewrite wrapped_Ok.
    setoid_rewrite bind_Ok. setoid_rewrite wrapped_Ok.
    setoid_rewrite bind_Ok. split.
    + intros (deps & Hdeps & returned & Hret & provided & Hprov & [= <-]).
      exists first, [], deps, returned, provided.
      split_and!; [done|by left|done..| |done].
      destruct (decide (interfaceArg = "")) as [Harg|Harg].
      * rewrite decide_False in Hprov by (by intros ?). congruence.
      * rewrite decide_True in Hprov by done. by apply wrapped_Ok in Hprov.
    + intros (first' & others' & deps & returned & provided & [= <- <-] & _
              & Hdeps & Hret & Hprov & ->).
      exists deps. split; [done|]. exists returned. split; [done|].
      exists provided. split; [|done].
      destruct (decide (interfaceArg = "")) as [Harg|Harg].
      * rewrite decide_False by (by intros ?). congruence.
      * rewrite decide_True by done. by apply wrapped_Ok.
  - cbv beta iota zeta. destruct others as [|third others]; cycle 1.
    { split; [done|].
      intros (? & ? & ? & ? & ? & [= <- <-] & [[=]|(? & [=] & _)] & _). }
    destruct (parser.isErrorType (ast.Type_ second)) eqn:Herr; cbn [negb];
      cycle 1.
    { split; [done|].
      intros (? & ? & ? & ? & ? & [= <- <-] & [[=]|(? & [= <-] & ?)] & _).
      congruence. }
    rewrite bind_Ok. setoid_rewrite wrapped_Ok.
    setoid_rewrite bind_Ok. setoid_rewrite wrapped_Ok.
    setoid_rewrite bind_Ok. split.
    + intros (deps & Hdeps & returned & Hret & provided & Hprov & [= <-]).
      exists first, [second], deps, returned, provided.
      split_and!; [done|right; by exists second|done..| |done].
      destruct (decide (interfaceArg = "")) as [Harg|Harg].
      * rewrite decide_False in Hprov by (by intros ?). congruence.
      * rewrite decide_True in Hprov by done. by apply wrapped_Ok in Hprov.
    + intros (first' & others' & deps & returned & provided & [= <- <-] & _
              & Hdeps & Hret & Hprov & ->).
      exists deps. split; [done|]. exists returned. split; [done|].
      exists provided. split; [|done].
      destruct (decide (interfaceArg = "")) as [Harg|Harg].
      * rewrite decide_False by (by intros ?). congruence.
      * rewrite decide_True by done. by apply wrapped_Ok.
Qed.

Lemma structDeps_Ok IsUpper fields ctx acc deps :
  parser.structDeps IsUpper fields ctx acc = parser.Ok deps →
  ∃ new, deps = acc ++ new ∧
    Forall2 (fieldDep IsUpper ctx)
      (filter (λ f, is_Some (exportedName IsUpper f)) fields) new.
Proof.
  revert acc. induction fields as [|f fields IH]; intros acc.
  - intros [= <-]. exists []. split; [by rewrite app_nil_r|constructor].
  - cbn [parser.structDeps]. rewrite filter_cons.
    destruct (ast.Names f) as [|first others] eqn:Hnames.
    { rewrite decide_False; [apply IH|].
      unfold exportedName. rewrite Hnames. by intros [? ?]. }
    destruct (parser.isExported IsUpper first) eqn:Hexp; cbn [negb].
    2: { rewrite decide_False; [apply IH|].
         unfold exportedName. rewrite Hnames, Hexp. by intros [? ?]. }
    rewrite decide_True by (unfold exportedName; by rewrite Hnames, Hexp).
    intros (t & Ht%wrapped_Ok & (new & -> & Hnew)%IH)%bind_Ok.
    exists (Dependency.mk first t :: new).
    split; [by rewrite <-app_assoc|].
    constructor; [|done]. split; [|done].
    unfold exportedName. by rewrite Hnames, Hexp.
Qed.

(** The dependencies of a struct provider are its field declarations
    whose first name is exported, in order, each under that first name and
    with the type of the field; embedded fields, fields whose first name
    is not exported and the further names of a declaration give none.
    The provider provides a pointer to the struct unless an interface
    argument is given, never fails, and takes its variable name from the
    struct. *)
Theorem parseStructProvider_Ok (runes : string → list N)
    (ofRunes : list N → string) (IsUpper : N → bool)
    (ToLower : string → string) (name : string)
    (fields : list (ast.Field ast.Expr)) (ctx : parser.fileContext)
    (interfaceArg : string) (p : Provider.t) :
  parser.parseStructProvider runes ofRunes IsUpper ToLower name (Some fields)
    ctx interfaceArg = parser.Ok p →
  Forall2 (fieldDep IsUpper ctx)
    (filter (λ f, is_Some (exportedName IsUpper f)) fields)
    (Provider.Dependencies p) ∧
  (if decide (interfaceArg = "")
   then Provider.ProvidedType p
        = TypeRef.mk name (parser.importPath ctx) true
   else parser.resolveInterfaceFromArg interfaceArg ctx
        = parser.Ok (Provider.ProvidedType p)) ∧
  Provider.Name p = name ∧ Provider.Kind p = ProviderKindStruct ∧
  Provider.CanError p = false ∧
  Provider.ImportPath p = parser.importPath ctx ∧
  Provider.VarName p = parser.toLowerCamel runes ofRunes IsUpper ToLower name.
Proof.
  unfold parser.parseStructProvider.
  intros (deps & (new & -> & Hnew)%structDeps_Ok
          & (provided & Hprov & [= <-])%bind_Ok)%bind_Ok.
  cbn. split_and!; try done.
  destruct (decide (interfaceArg = "")) as [Harg|Harg].
  - rewrite decide_False in Hprov by (by intros ?). congruence.
  - rewrite decide_True in Hprov by done. by apply wrapped_Ok in Hprov.
Qed.

Lemma parseStructProvider_Ok_Service :
  parser.parseStructProvider asciiRunes asciiOfRunes asciiIsUpper asciiToLower
    "Service" (Some serviceFields) appContext "" = parser.Ok serviceProvider ∧
  Forall2 (fieldDep asciiIsUpper appContext)
    (filter (λ f, is_Some (exportedName asciiIsUpper f)) serviceFields)
    (Provider.Dependencies serviceProvider).
Proof.
  assert (parser.parseStructProvider asciiRunes asciiOfRunes asciiIsUpper
            asciiToLower "Service" (Some serviceFields) appContext ""
          = parser.Ok serviceProvider) as Hparsed by (by vm_compute).
  split; [done|].
  by destruct (parseStructProvider_Ok _ _ _ _ _ _ _ _ _ Hparsed) as [Hdeps _].
Defined.

(** ** The parser: a file *)

Lemma extended_nil result : extended result [] [] = result.
Proof. destruct result. unfold extended. cbn. by rewrite !app_nil_r. Qed.

Lemma extended_extended result ps invs ps' invs' :
  extended (extended result ps invs) ps' invs'
  = extended result (ps ++ ps') (invs ++ invs').
Proof. unfold extended. cbn. by rewrite !app_assoc. Qed.

Section parsed.
Context (runes : string → list N) (ofRunes : list N → string).
Context (IsUpper : N → bool) (ToLower TrimSpace : string → string).
Context (ctx : parser.fileContext).
Context (okProvider : Provider.t → Prop) (okInvocation : Invocation.t → Prop).

Hypothesis struct_ok : ∀ name st interfaceArg p,
  parser.parseStructProvider runes ofRunes IsUpper ToLower name st ctx
    interfaceArg = parser.Ok p →
  okProvider p.
Hypothesis func_ok : ∀ fn interfaceArg p,
  parser.parseFuncProvider runes ofRunes IsUpper ToLower fn ctx interfaceArg
  = parser.Ok p →
  okProvider p.
Hypothesis invocation_ok : ∀ fn inv,
  parser.parseInvocation fn ctx = parser.Ok inv → okInvocation inv.

Local Abbreviation grows := (grows okProvider okInvocation).

Lemma grows_refl result err : grows result (result, err).
Proof. exists [], []. by rewrite extended_nil. Qed.

Lemma grows_trans result result' out :
  grows result (result', None) → grows result' out → grows result out.
Proof.
  intros (ps & invs & Heq & Hps & Hinvs) (ps' & invs' & Heq' & Hps' & Hinvs').
  cbn in Heq. subst result'. exists (ps ++ ps'), (invs ++ invs').
  rewrite Heq', extended_extended. by rewrite !Forall_app.
Qed.

Lemma grows_provider result p err :
  okProvider p → grows result (parser.appendProvider result p, err).
Proof.
  intros Hp. exists [p], []. split; [|by repeat constructor].
  unfold extended, parser.appendProvider. cbn. by rewrite app_nil_r.
Qed.

Lemma grows_invocation result inv err :
  okInvocation inv → grows result (parser.appendInvocation result inv, err).
Proof.
  intros Hp. exists [], [inv]. split; [|by repeat constructor].
  unfold extended, parser.appendInvocation. cbn. by rewrite app_nil_r.
Qed.

Lemma grows_error result result' err err' :
  grows result (result', err) → grows result (result', err').
Proof. intros (ps & invs & ?). by exists ps, invs. Qed.

Lemma parseSpecs_grows specs provideArg result :
  grows result
    (parser.parseSpecs runes ofRunes IsUpper ToLower specs ctx provideArg
       result).
Proof.
  revert result. induction specs as [|spec specs IH]; intros result.
  { apply grows_refl. }
  cbn [parser.parseSpecs].
  destruct spec as [| |name []]; try apply IH.
  destruct (parser.parseStructProvider _ _ _ _ _ _ _ _) as [p|msg] eqn:Hp.
  - eapply grows_trans; [|apply IH].
    apply grows_provider. by eapply struct_ok.
  - apply grows_refl.
Qed.

Lemma parseFuncDecl_grows d result :
  grows result
    (parser.parseFuncDecl runes ofRunes IsUpper ToLower TrimSpace d ctx result).
Proof.
  unfold parser.parseFuncDecl.
  destruct (parser.parseAnnotation _ _ parser.annotationProvide)
    as [hasProvide provideArg].
  destruct (parser.parseAnnotation _ _ parser.annotationInvoke)
    as [hasInvoke ?].
  destruct hasProvide, hasInvoke; cbn [andb]; try apply grows_refl.
  - destruct (parser.parseFuncProvider _ _ _ _ _ _ _) as [p|msg] eqn:Hp.
    + apply grows_provider. by eapply func_ok.
    + apply grows_refl.
  - destruct (parser.parseInvocation _ _) as [inv|msg] eqn:Hinv.
    + apply grows_invocation. by eapply invocation_ok.
    + apply grows_refl.
Qed.

Lemma parseDecls_grows decls result :
  grows result
    (parser.parseDecls runes ofRunes IsUpper ToLower TrimSpace decls ctx
       result).
Proof.
  revert result. induction decls as [|decl decls IH]; intros result.
  { apply grows_refl. }
  cbn [parser.parseDecls]. destruct decl as [|doc tok specs|d]; [apply IH| |].
  - destruct tok; try apply IH.
    destruct (parser.parseAnnotation _ _ _) as [[] provideArg];
      cbn [negb]; [|apply IH].
    pose proof (parseSpecs_grows specs provideArg result) as Hspecs.
    destruct (parser.parseSpecs _ _ _ _ _ _ _ _) as [result' [err|]];
      [done|].
    eapply grows_trans; [done|apply IH].
  - destruct (ast.FuncDecl.Recv d); [apply IH|].
    pose proof (parseFuncDecl_grows d result) as Hd.
    destruct (parser.parseFuncDecl _ _ _ _ _ _ _ _) as [result' [err|]];
      [done|].
    eapply grows_trans; [done|apply IH].
Qed.

End parsed.

Lemma provided_cases (interfaceArg prefix : string) ctx returned provided :
  (if decide (interfaceArg ≠ "")
   then parser.wrapped prefix (parser.resolveInterfaceFromArg interfaceArg ctx)
   else parser.Ok returned) = parser.Ok provided →
  provided = returned ∨
  parser.resolveInterfaceFromArg interfaceArg ctx = parser.Ok provided.
Proof.
  destruct (decide _).
  - intros ?%wrapped_Ok. by right.
  - intros [= <-]. by left.
Qed.

Lemma parseFuncProvider_parts runes ofRunes IsUpper ToLower fn ctx
    interfaceArg p :
  parser.parseFuncProvider runes ofRunes IsUpper ToLower fn ctx interfaceArg
  = parser.Ok p →
  Provider.ImportPath p = parser.importPath ctx ∧
  parser.parseParams (ast.Params (ast.FuncDecl.Type_ fn)) ctx
  = parser.Ok (Provider.Dependencies p) ∧
  ((∃ e, parser.resolveType e ctx = parser.Ok (Provider.ProvidedType p)) ∨
   parser.resolveInterfaceFromArg interfaceArg ctx
   = parser.Ok (Provider.ProvidedType p)).
Proof.
  unfold parser.parseFuncProvider.
  destruct (ast.Results (ast.FuncDecl.Type_ fn))
    as [[|first [|second [|third others]]]|];
    cbv beta iota zeta delta [from_option id]; try done.
  2: destruct (parser.isErrorType (ast.Type_ second)); cbn [negb]; [|done].
  all: intros (deps & Hdeps%wrapped_Ok
               & (returned & Hret%wrapped_Ok
                  & (provided & Hprov%provided_cases
                     & [= <-])%bind_Ok)%bind_Ok)%bind_Ok.
  all: cbn; split_and!; [done..|].
  all: destruct Hprov as [->|Hprov]; [left; by eexists|by right].
Qed.

Lemma parseStructProvider_parts runes ofRunes IsUpper ToLower name st ctx
    interfaceArg p :
  parser.parseStructProvider runes ofRunes IsUpper ToLower name st ctx
    interfaceArg = parser.Ok p →
  Provider.ImportPath p = parser.importPath ctx ∧
  Forall (λ dep, ∃ e, parser.resolveType e ctx
                      = parser.Ok (Dependency.Type_ dep))
    (Provider.Dependencies p) ∧
  (Provider.ProvidedType p = TypeRef.mk name (parser.importPath ctx) true ∨
   parser.resolveInterfaceFromArg interfaceArg ctx
   = parser.Ok (Provider.ProvidedType p)).
Proof.
  unfold parser.parseStructProvider.
  intros (deps & Hdeps
          & (provided & Hprov%provided_cases & [= <-])%bind_Ok)%bind_Ok.
  cbn. split_and!; [done| |done].
  destruct st as [fields|]; [|by injection Hdeps as <-].
  apply structDeps_Ok in Hdeps as (new & -> & Hnew).
  rewrite app_nil_l. clear Hprov.
  induction Hnew as [|f dep fs new [_ Hdep] _ IH]; constructor; [|done].
  by exists (ast.Type_ f).
Qed.

Lemma parseInvocation_parts fn ctx inv :
  parser.parseInvocation fn ctx = parser.Ok inv →
  Invocation.ImportPath inv = parser.importPath ctx ∧
  ∃ deps, parser.parseParams (ast.Params (ast.FuncDecl.Type_ fn)) ctx
          = parser.Ok deps ∧
          Invocation.Dependencies inv = Dependency.Type_ <$> deps.
Proof.
  unfold parser.parseInvocation.
  intros (deps & Hdeps%wrapped_Ok & [= <-])%bind_Ok.
  split; [done|]. by exists deps.
Qed.

(** [parseFile] only appends to the result it is handed, whether it
    fails or not, and whatever it appends carries the import path it was
    given for the file. *)
Theorem parseFile_appends (runes : string → list N)
    (ofRunes : list N → string) (IsUpper : N → bool)
    (ToLower TrimSpace : string → string)
    (parsed : parser.result ast.File.t) (importPath : string)
    (result : ParseResult.t) :
  ∃ ps invs,
    (parser.parseFile runes ofRunes IsUpper ToLower TrimSpace parsed
       importPath result).1 = extended result ps invs ∧
    Forall (λ p, Provider.ImportPath p = importPath) ps ∧
    Forall (λ inv, Invocation.ImportPath inv = importPath) invs.
Proof.
  unfold parser.parseFile. destruct parsed as [file|msg].
  - apply (parseDecls_grows runes ofRunes IsUpper ToLower TrimSpace
             (parser.mkContext importPath (parser.buildImportMap file))).
    + by intros name st arg p (? & _)%parseStructProvider_parts.
    + by intros fn arg p (? & _)%parseFuncProvider_parts.
    + by intros fn inv (? & _)%parseInvocation_parts.
  - exists [], []. by rewrite extended_nil.
Qed.

(** ** The parser: where the references of a file point *)

Lemma resolveInterfaceFromArg_origin arg ctx t :
  parser.resolveInterfaceFromArg arg ctx = parser.Ok t → fromContext ctx t.
Proof.
  unfold parser.resolveInterfaceFromArg, fromContext.
  destruct (decide _); [intros [= <-]; auto|].
  destruct (parser.imports ctx !! _) as [path|] eqn:Hpath; [|done].
  intros [= <-]. right; right. by eexists.
Qed.

Lemma parseParamList_origin params ctx acc deps :
  parser.parseParamList params ctx acc = parser.Ok deps →
  Forall (λ dep, fromContext ctx (Dependency.Type_ dep)) acc →
  Forall (λ dep, fromContext ctx (Dependency.Type_ dep)) deps.
Proof.
  revert acc. induction params as [|p params IH]; intros acc.
  - by intros [= <-].
  - cbn [parser.parseParamList].
    intros (t & Ht%resolveType_origin & Hrest)%bind_Ok Hacc.
    apply (IH _ Hrest). apply Forall_app. split; [done|].
    by apply Forall_replicate.
Qed.

Lemma parseParams_origin params ctx deps :
  parser.parseParams params ctx = parser.Ok deps →
  Forall (λ dep, fromContext ctx (Dependency.Type_ dep)) deps.
Proof.
  destruct params as [params|]; cbn.
  - intros Hdeps. by apply (parseParamList_origin _ _ _ _ Hdeps).
  - by intros [= <-].
Qed.

Lemma fromContext_fromFile file importPath t :
  fromContext (parser.mkContext importPath (parser.buildImportMap file)) t →
  fromFile file importPath t.
Proof.
  intros [?|[?|(pkg & (imp & ? & _ & ?)%buildImportMap_elem)]].
  - by left.
  - right. by left.
  - right; right. by exists imp.
Qed.

(** Every reference [parseFile] produces, be it the provided type of a
    provider or a dependency of a provider or of an invocation, names a
    built-in, a type of the file's own package, or a type of a package
    the file imports. *)
Theorem parseFile_references (runes : string → list N)
    (ofRunes : list N → string) (IsUpper : N → bool)
    (ToLower TrimSpace : string → string) (file : ast.File.t)
    (importPath : string) (result : ParseResult.t) :
  ∃ ps invs,
    (parser.parseFile runes ofRunes IsUpper ToLower TrimSpace
       (parser.Ok file) importPath result).1 = extended result ps invs ∧
    Forall (λ p, fromFile file importPath (Provider.ProvidedType p) ∧
                 Forall (λ dep, fromFile file importPath (Dependency.Type_ dep))
                   (Provider.Dependencies p)) ps ∧
    Forall (λ inv, Forall (fromFile file importPath)
                     (Invocation.Dependencies inv)) invs.
Proof.
  unfold parser.parseFile.
  set (ctx := parser.mkContext importPath (parser.buildImportMap file)).
  apply (parseDecls_grows runes ofRunes IsUpper ToLower TrimSpace ctx).
  - intros name st arg p (_ & Hdeps & Hprov)%parseStructProvider_parts. split.
    + destruct Hprov as [->|Hprov]; [right; by left|].
      by apply fromContext_fromFile, (resolveInterfaceFromArg_origin arg).
    + eapply Forall_impl; [done|]. intros dep [e He]. cbn beta in He.
      by apply fromContext_fromFile, (resolveType_origin e).
  - intros fn arg p (_ & Hdeps & Hprov)%parseFuncProvider_parts. split.
    + apply fromContext_fromFile. destruct Hprov as [[e He]|Hprov].
      * by apply (resolveType_origin e).
      * by apply (resolveInterfaceFromArg_origin arg).
    + apply parseParams_origin in Hdeps.
      eapply Forall_impl; [done|]. intros dep.
      apply fromContext_fromFile.
  - intros fn inv (_ & deps & Hdeps%parseParams_origin & ->)%parseInvocation_parts.
    apply Forall_fmap. eapply Forall_impl; [done|]. intros dep.
    apply fromContext_fromFile.
Qed.
